(** * Knowledge-graph core of [script.js]: a shallow embedding

    [src/script.js] holds three successive revisions of the same script.
    Two of them carry the full graph core and are embedded here:

    - module [Auto]: lines 1-1150, where cross-references are detected by
      scanning item text ([findReferences]);
    - module [Manual]: lines 1970-3897, where cross-references are listed
      by the author in [data-graph-links-to].

    Numbers are modelled as rationals ([Q]); trigonometry and
    [Math.random] are supplied by an oracle; strings are ASCII strings.
    Around the graph core, the accordion ([toggleSection] and its
    listeners, both revisions), the sound object ([AudioFeedback]) and
    the theme toggle of the last revision are embedded as well.  The
    SVG shapes and paths, the tooltips, the haptics and the revision
    with a static layout (lines 1154-1963) are left out. *)

From Stdlib Require Import List String Ascii Bool Arith Lia QArith Qminmax.
From Stdlib Require Import DecimalString DecimalNat Lqa.
From Stdlib Require DecimalFacts.
Import ListNotations.
Local Close Scope Q_scope.
Local Open Scope string_scope.
Local Open Scope list_scope.

Local Infix "+:+" := String.append (at level 60, right associativity).

(* ================================================================= *)
(** ** JavaScript strings, truthiness and [Map] *)

Module JS.

Definition inRange (lo hi : nat) (c : ascii) : bool :=
  let n := nat_of_ascii c in ((lo <=? n) && (n <=? hi))%nat.

Definition isDigit : ascii -> bool := inRange 48 57.
Definition isLower : ascii -> bool := inRange 97 122.
Definition isUpper : ascii -> bool := inRange 65 90.

(** The class [\w] of a regular expression without the [u] flag. *)
Definition isWordChar (c : ascii) : bool :=
  isDigit c || isLower c || isUpper c || (c =? "_")%char.

(** White space removed by [String.prototype.trim] (ASCII part). *)
Definition isSpace (c : ascii) : bool :=
  let n := nat_of_ascii c in
  (((9 <=? n) && (n <=? 13)) || (n =? 32))%nat.

Definition toLowerChar (c : ascii) : ascii :=
  if isUpper c then ascii_of_nat (nat_of_ascii c + 32) else c.

(** [String.prototype.toLowerCase] on ASCII text, the text of this
    model.  Outside ASCII the method also maps a few characters to
    ASCII letters (the Kelvin sign to [k]). *)
Fixpoint toLowerCase (s : string) : string :=
  match s with
  | EmptyString => EmptyString
  | String c r => String (toLowerChar c) (toLowerCase r)
  end.

Fixpoint trimStart (s : string) : string :=
  match s with
  | EmptyString => EmptyString
  | String c r => if isSpace c then trimStart r else s
  end.

Fixpoint trimEnd (s : string) : string :=
  match s with
  | EmptyString => EmptyString
  | String c r =>
      let r' := trimEnd r in
      if isSpace c && (r' =? "") then "" else String c r'
  end.

Definition trim (s : string) : string := trimEnd (trimStart s).

(** A string is falsy exactly when it is empty. *)
Definition truthy (s : string) : bool := negb (s =? "").

(** [a || b] where [a] is a string or [undefined]. *)
Definition orElse (a : option string) (b : string) : string :=
  match a with
  | Some s => if truthy s then s else b
  | None => b
  end.

(** [a || b] where both sides may be [undefined]. *)
Definition orElseOpt (a b : option string) : option string :=
  match a with
  | Some s => if truthy s then Some s else b
  | None => b
  end.

Fixpoint dropPrefix (pat s : string) : option string :=
  match pat with
  | EmptyString => Some s
  | String p pat' =>
      match s with
      | EmptyString => None
      | String c s' => if (p =? c)%char then dropPrefix pat' s' else None
      end
  end.

(** [s.replace(pat, rep)] with a string pattern: first occurrence only. *)
Fixpoint replaceFirst (pat rep s : string) : string :=
  match dropPrefix pat s with
  | Some rest => rep +:+ rest
  | None =>
      match s with
      | EmptyString => EmptyString
      | String c s' => String c (replaceFirst pat rep s')
      end
  end.

(** Template interpolation of a non-negative array index. *)
Definition numToString (n : nat) : string :=
  NilEmpty.string_of_uint (Nat.to_uint n).

(** [arr.includes(k)] on an array of strings. *)
Definition includes (arr : list string) (k : string) : bool :=
  existsb (String.eqb k) arr.

(** [s.split(',')]: never returns an empty array. *)
Fixpoint splitComma (s : string) : list string :=
  match s with
  | EmptyString => [EmptyString]
  | String c r =>
      if (c =? ",")%char then EmptyString :: splitComma r
      else match splitComma r with
           | [] => [String c EmptyString]
           | w :: ws => String c w :: ws
           end
  end.

(** *** [Map]: insertion-ordered, [set] overwrites in place *)

Definition Map (V : Type) : Type := list (string * V).

Fixpoint set {V} (m : Map V) (k : string) (v : V) : Map V :=
  match m with
  | [] => [(k, v)]
  | (k', v') :: r => if k' =? k then (k, v) :: r else (k', v') :: set r k v
  end.

Fixpoint get {V} (m : Map V) (k : string) : option V :=
  match m with
  | [] => None
  | (k', v') :: r => if k' =? k then Some v' else get r k
  end.

Definition keys {V} (m : Map V) : list string := map fst m.
Definition values {V} (m : Map V) : list V := map snd m.

(** [Array.from(new Set(xs))]: first occurrences, in order. *)
Definition setFrom (xs : list string) : list string :=
  fold_left (fun acc x => if includes acc x then acc else acc ++ [x]) xs [].

(** *** The word-boundary regular expression of [findReferences]

    [wordRegexTest tok text] models
    [new RegExp('\\b' + tok + '\\b', 'i').test(text)] for a token free of
    regular-expression metacharacters (see [literalToken]): some
    occurrence of [tok] in [text], compared without case, has a word
    boundary on each side. *)

Definition isWordOpt (c : option ascii) : bool :=
  match c with Some a => isWordChar a | None => false end.

Definition boundary (prev next : option ascii) : bool :=
  xorb (isWordOpt prev) (isWordOpt next).

Definition head (s : string) : option ascii :=
  match s with EmptyString => None | String c _ => Some c end.

(** Match [tok] at the start of [text] ignoring case; returns the last
    character consumed (or [prev]) and the rest of the text. *)
Fixpoint matchHere (tok text : string) (prev : option ascii)
  : option (option ascii * string) :=
  match tok with
  | EmptyString => Some (prev, text)
  | String t tok' =>
      match text with
      | EmptyString => None
      | String c text' =>
          if (toLowerChar t =? toLowerChar c)%char
          then matchHere tok' text' (Some c) else None
      end
  end.

Definition matchAt (tok text : string) (prev : option ascii) : bool :=
  boundary prev (head text) &&
  match matchHere tok text prev with
  | Some (last, rest) => boundary last (head rest)
  | None => false
  end.

Fixpoint scanFrom (tok text : string) (prev : option ascii) : bool :=
  matchAt tok text prev ||
  match text with
  | EmptyString => false
  | String c text' => scanFrom tok text' (Some c)
  end.

Definition wordRegexTest (tok text : string) : bool := scanFrom tok text None.

Definition isMetaChar (c : ascii) : bool :=
  existsb (Ascii.eqb c)
    (list_ascii_of_string "\^$.*+?()[]{}|").

Fixpoint literalToken (s : string) : bool :=
  match s with
  | EmptyString => true
  | String c r => negb (isMetaChar c) && literalToken r
  end.

End JS.

(* ================================================================= *)
(** ** Page content read by the builder *)

(** One content block ([itemEl]).  [headingText] and [subText] are the
    [textContent] of the first descendant matched by the label and the
    subtitle selector of [collectItemData], when there is one. *)
Record ItemEl : Type := mkItemEl {
  graphId : option string;        (* dataset.graphId *)
  graphLabel : option string;     (* dataset.graphLabel *)
  graphSubtitle : option string;  (* dataset.graphSubtitle *)
  graphRef : option string;       (* dataset.graphRef *)
  graphLinksTo : option string;   (* dataset.graphLinksTo *)
  headingText : option string;
  subText : option string;
  textContent : string
}.

(** [itemEl.dataset.graphId = id] *)
Definition setGraphId (e : ItemEl) (id : string) : ItemEl :=
  mkItemEl (Some id) (graphLabel e) (graphSubtitle e) (graphRef e)
           (graphLinksTo e) (headingText e) (subText e) (textContent e).

(** A [.section-block]: the text of its [.section-title], if any, and the
    elements its category's [itemSelector] selects, in document order.
    Section blocks are separate subtrees: an element is selected under
    one category only. *)
Record SectionBlock : Type := mkSectionBlock {
  sectionTitle : option string;
  blockItems : list ItemEl
}.

(** The page: the [offsetWidth] and [offsetHeight] of [#graph-container]
    when the element exists, and the section blocks keyed by their
    [data-section] attribute. *)
Record Document : Type := mkDocument {
  container : option (Q * Q);
  sections : list (string * SectionBlock)
}.

(** [document.querySelector('.section-block[data-section="k"]')] *)
Definition querySection (d : Document) (k : string) : option SectionBlock :=
  JS.get (sections d) k.

Fixpoint replaceSection (secs : list (string * SectionBlock)) (k : string)
  (b : SectionBlock) : list (string * SectionBlock) :=
  match secs with
  | [] => []
  | (k', b') :: r =>
      if k' =? k then (k', b) :: r else (k', b') :: replaceSection r k b
  end.

(* ================================================================= *)
(** ** Graph data *)

Inductive NodeType : Type := center | category | item.
Inductive LinkType : Type := spine | branch | reference.

Definition NodeType_eqb (a b : NodeType) : bool :=
  match a, b with
  | center, center | category, category | item, item => true
  | _, _ => false
  end.

Definition LinkType_eqb (a b : LinkType) : bool :=
  match a, b with
  | spine, spine | branch, branch | reference, reference => true
  | _, _ => false
  end.

(** A node object.  Fields a revision does not set are [None]
    ([undefined]); [node_hidden] is [false] where the script leaves it
    [undefined] (center and category nodes). *)
Record Node : Type := mkNode {
  node_id : string;
  node_label : string;
  node_subtitle : string;
  node_type : NodeType;
  node_category : option string;
  node_shape : string;
  node_size : nat;
  node_referenceId : option string;
  node_fullText : option string;
  node_linksTo : option (list string);
  node_x : Q;
  node_y : Q;
  node_fx : option Q;
  node_fy : option Q;
  node_hidden : bool
}.

(** An end of a link: the identity string the builder writes, or the node
    object (its index in [nodes]) the force layout substitutes for it. *)
Inductive LinkEnd : Type :=
| EndId (s : string)
| EndObj (i : nat).

Record Link : Type := mkLink {
  link_source : LinkEnd;
  link_target : LinkEnd;
  link_type : LinkType;
  link_strokeOpacity : Q   (* attribute of the rendered element *)
}.

Record GraphData : Type := mkGraphData {
  nodes : list Node;
  links : list Link
}.

Definition CATEGORY_RADIUS : Q := 140.
Definition CENTER_SIZE : nat := 8.
Definition CATEGORY_SIZE : nat := 14.
Definition ITEM_SIZE : nat := 6.

(** What the embedding does not compute: [Math.cos] and [Math.sin] of a
    category's seed angle, and the two [Math.random()] draws taken for
    an item. *)
Record Oracle : Type := mkOracle {
  cosAngle : nat -> Q;
  sinAngle : nat -> Q;
  random2 : string -> nat -> Q * Q
}.

(* ----------------------------------------------------------------- *)
(** *** [slugify] (lines 57-59) *)

Definition isSlugChar (c : ascii) : bool := JS.isLower c || JS.isDigit c.

(** [.replace(/[^a-z0-9]+/g, '-')]; [inRun] holds inside a run already
    replaced. *)
Fixpoint dashRuns (s : string) (inRun : bool) : string :=
  match s with
  | EmptyString => EmptyString
  | String c r =>
      if isSlugChar c then String c (dashRuns r false)
      else if inRun then dashRuns r true
      else String "-" (dashRuns r true)
  end.

Fixpoint stripLeadingDashes (s : string) : string :=
  match s with
  | String c r => if (c =? "-")%char then stripLeadingDashes r else s
  | EmptyString => EmptyString
  end.

Fixpoint stripTrailingDashes (s : string) : string :=
  match s with
  | EmptyString => EmptyString
  | String c r =>
      let r' := stripTrailingDashes r in
      if (c =? "-")%char && (r' =? "") then "" else String c r'
  end.

Definition slugify (text : string) : string :=
  let s := stripTrailingDashes
             (stripLeadingDashes (dashRuns (JS.toLowerCase text) false)) in
  if JS.truthy s then s else "node".

(** [`${sectionKey}-${slugify(label)}-${fallbackIdx}`] *)
Definition derivedId (sectionKey label : string) (fallbackIdx : nat) : string :=
  sectionKey +:+ "-" +:+ slugify label +:+ "-" +:+ JS.numToString fallbackIdx.

Definition itemLabel (itemEl : ItemEl) : string :=
  JS.orElse (graphLabel itemEl)
    (JS.orElse (option_map JS.trim (headingText itemEl))
       (JS.trim (textContent itemEl))).

Definition itemSubtitle (itemEl : ItemEl) : string :=
  JS.orElse (graphSubtitle itemEl)
    (JS.orElse (option_map JS.trim (subText itemEl)) "").

Definition itemId (sectionKey : string) (itemEl : ItemEl) (fallbackIdx : nat)
  : string :=
  JS.orElse (graphId itemEl)
    (derivedId sectionKey (itemLabel itemEl) fallbackIdx).

(* ================================================================= *)
(** ** The Graph Builder: [buildGraphData] *)

Record Config : Type := mkConfig {
  shape : string;
  itemSelector : string
}.

(** What differs between the two revisions of [buildGraphData]. *)
Record Variant : Type := mkVariant {
  sectionConfig : list (string * Config);
  centerShape : string;
  (* [collectItemData(sectionKey, itemEl, fallbackIdx)], the returned object *)
  collectItemData : string -> ItemEl -> nat -> Node;
  (* the statement that enters an item into [nodeIndex] *)
  indexNode : JS.Map Node -> Node -> JS.Map Node;
  (* the loop that creates reference links, from [nodes] and [nodeIndex] *)
  referenceLinks : list Node -> JS.Map Node -> list Link
}.

(** The arrays and maps [buildGraphData] fills. *)
Record Build : Type := mkBuild {
  b_nodes : list Node;
  b_links : list Link;
  b_domIndex : JS.Map ItemEl;
  b_nodeIndex : JS.Map Node
}.

Definition newLink (s t : string) (ty : LinkType) : Link :=
  mkLink (EndId s) (EndId t) ty 0.

(** [node.x = itemX; node.y = itemY; node.hidden = true] *)
Definition placeItem (n : Node) (itemX itemY : Q) : Node :=
  mkNode (node_id n) (node_label n) (node_subtitle n) (node_type n)
         (node_category n) (node_shape n) (node_size n)
         (node_referenceId n) (node_fullText n) (node_linksTo n)
         itemX itemY (node_fx n) (node_fy n) true.

(** [items.forEach((itemEl, itemIdx) => ...)]; also returns the elements
    with their [data-graph-id] written back. *)
Fixpoint forEachItem (V : Variant) (orc : Oracle) (catKey : string) (x y : Q)
  (items : list ItemEl) (itemIdx : nat) (acc : Build) : Build * list ItemEl :=
  match items with
  | [] => (acc, [])
  | itemEl :: rest =>
      let node0 := collectItemData V catKey itemEl itemIdx in
      let itemEl' := setGraphId itemEl (node_id node0) in
      let spread := 60%Q in
      let r := random2 orc catKey itemIdx in
      let itemX := (x + (fst r - (1 # 2)) * spread)%Q in
      let itemY := (y + (snd r - (1 # 2)) * spread)%Q in
      let node := placeItem node0 itemX itemY in
      let acc1 :=
        mkBuild (b_nodes acc ++ [node])
                (b_links acc ++ [newLink ("cat-" +:+ catKey) (node_id node) branch])
                (JS.set (b_domIndex acc) (node_id node) itemEl')
                (indexNode V (b_nodeIndex acc) node) in
      let '(acc2, rest') := forEachItem V orc catKey x y rest (S itemIdx) acc1 in
      (acc2, itemEl' :: rest')
  end.

Definition categoryNode (catKey label shp : string) (x y : Q) : Node :=
  mkNode ("cat-" +:+ catKey) label "" category (Some catKey) shp CATEGORY_SIZE
         None None None x y None None false.

(** [categories.forEach(([catKey, config], idx) => ...)] *)
Fixpoint forEachCategory (V : Variant) (orc : Oracle) (centerX centerY : Q)
  (categories : list (string * Config)) (idx : nat)
  (doc : Document) (acc : Build) : Build * Document :=
  match categories with
  | [] => (acc, doc)
  | (catKey, config) :: rest =>
      match querySection doc catKey with
      | None => forEachCategory V orc centerX centerY rest (S idx) doc acc
      | Some block =>
          let label :=
            JS.orElse (option_map JS.trim (sectionTitle block)) catKey in
          let x := (centerX + cosAngle orc idx * CATEGORY_RADIUS)%Q in
          let y := (centerY + sinAngle orc idx * CATEGORY_RADIUS)%Q in
          let acc1 :=
            mkBuild (b_nodes acc ++ [categoryNode catKey label (shape config) x y])
                    (b_links acc ++ [newLink "center" ("cat-" +:+ catKey) spine])
                    (b_domIndex acc) (b_nodeIndex acc) in
          let '(acc2, items') :=
            forEachItem V orc catKey x y (blockItems block) 0 acc1 in
          let doc' :=
            mkDocument (container doc)
              (replaceSection (sections doc) catKey
                 (mkSectionBlock (sectionTitle block) items')) in
          forEachCategory V orc centerX centerY rest (S idx) doc' acc2
      end
  end.

(** [container ? container.offsetWidth / 2 : 300] and the same for the
    height. *)
Definition centerOf (c : option (Q * Q)) : Q * Q :=
  match c with
  | Some (w, h) => (w / 2, h / 2)%Q
  | None => (300, 300)%Q
  end.

Definition centerNode (V : Variant) (centerX centerY : Q) : Node :=
  mkNode "center" "me" "" center None (centerShape V) CENTER_SIZE
         None None None centerX centerY (Some centerX) (Some centerY) false.

Record BuildResult : Type := mkBuildResult {
  graph : GraphData;       (* the value returned *)
  domIndex : JS.Map ItemEl;
  nodeIndex : JS.Map Node;
  document' : Document     (* the page, identities written back *)
}.

Definition buildGraphData (V : Variant) (doc : Document) (orc : Oracle)
  : BuildResult :=
  let '(centerX, centerY) := centerOf (container doc) in
  let '(acc, doc') :=
    forEachCategory V orc centerX centerY (sectionConfig V) 0 doc
      (mkBuild [centerNode V centerX centerY] [] [] []) in
  let refs := referenceLinks V (b_nodes acc) (b_nodeIndex acc) in
  mkBuildResult (mkGraphData (b_nodes acc) (b_links acc ++ refs))
                (b_domIndex acc) (b_nodeIndex acc) doc'.

Definition optString_eqb (a b : option string) : bool :=
  match a, b with
  | Some s, Some t => s =? t
  | None, None => true
  | _, _ => false
  end.

Definition truthyOpt (a : option string) : bool :=
  match a with Some s => JS.truthy s | None => false end.

(* ----------------------------------------------------------------- *)
(** *** Revision with automatic references (lines 1-317) *)

Module Auto.

Definition sectionConfig : list (string * Config) :=
  [ ("work", mkConfig "square" ".work-item");
    ("opensource", mkConfig "triangle" ".project-card");
    ("talks", mkConfig "circle" ".talk-item");
    ("contact", mkConfig "diamond" ".contact-item") ].

(** [.replace(/^(work|opensource|talks|contact)-/, '')] *)
Fixpoint stripCategoryPrefix (alts : list string) (s : string) : string :=
  match alts with
  | [] => s
  | a :: r =>
      match JS.dropPrefix (a +:+ "-") s with
      | Some rest => rest
      | None => stripCategoryPrefix r s
      end
  end.

Fixpoint allDigits (s : string) : bool :=
  match s with
  | EmptyString => true
  | String c r => JS.isDigit c && allDigits r
  end.

(** [.replace(/-\d+$/, '')]: cut at the leftmost dash followed by digits
    only, and at least one, up to the end. *)
Fixpoint stripIndexSuffix (s : string) : string :=
  match s with
  | EmptyString => EmptyString
  | String c r =>
      if (c =? "-")%char && JS.truthy r && allDigits r then ""
      else String c (stripIndexSuffix r)
  end.

Definition extractReferenceId (idOrLabel : string) : string :=
  JS.toLowerCase
    (stripIndexSuffix
       (stripCategoryPrefix ["work"; "opensource"; "talks"; "contact"]
          idOrLabel)).

Definition collectItemData (sectionKey : string) (itemEl : ItemEl)
  (fallbackIdx : nat) : Node :=
  let label := itemLabel itemEl in
  let subtitle := itemSubtitle itemEl in
  let id := itemId sectionKey itemEl fallbackIdx in
  let referenceId := JS.orElse (graphRef itemEl) (extractReferenceId id) in
  let fullText :=
    JS.toLowerCase (label +:+ " " +:+ subtitle +:+ " " +:+ textContent itemEl) in
  mkNode id label subtitle item (Some sectionKey) "circle" ITEM_SIZE
         (Some referenceId) (Some fullText) None 0 0 None None false.

(** The expression is built from the token as it is.  A token with a
    metacharacter can make it match otherwise than [JS.wordRegexTest],
    or leave it malformed, and then [new RegExp] throws, and the build
    and [initGraph] with it.  [findReferences] is modelled for literal
    tokens ([JS.literalToken]); what is stated of the references this
    revision finds, and of its [initGraph] returning, is stated for
    pages whose tokens are literal. *)
Definition findReferences (text : string) (allReferenceIds : list string)
  : list string :=
  let textLower := JS.toLowerCase text in
  JS.setFrom
    (filter (fun refId =>
               negb (String.length refId <? 3)%nat
               && JS.wordRegexTest refId textLower)
            allReferenceIds).

(** [if (node.referenceId) nodeIndex.set(node.referenceId, node)] *)
Definition indexNode (nodeIndex : JS.Map Node) (node : Node) : JS.Map Node :=
  match node_referenceId node with
  | Some r => if JS.truthy r then JS.set nodeIndex r node else nodeIndex
  | None => nodeIndex
  end.

Definition linksOfNode (nodeIndex : JS.Map Node) (allReferenceIds : list string)
  (node : Node) : list Link :=
  match node_type node, node_fullText node with
  | item, Some fullText =>
      if JS.truthy fullText then
        flat_map
          (fun refId =>
             match JS.get nodeIndex refId with
             | Some targetNode =>
                 if negb (node_id targetNode =? node_id node)
                    && negb (optString_eqb (node_category targetNode)
                                           (node_category node))
                 then [newLink (node_id node) (node_id targetNode) reference]
                 else []
             | None => []
             end)
          (findReferences fullText allReferenceIds)
      else []
  | _, _ => []
  end.

Definition referenceLinks (nodes : list Node) (nodeIndex : JS.Map Node)
  : list Link :=
  let allReferenceIds := JS.keys nodeIndex in
  flat_map (linksOfNode nodeIndex allReferenceIds) nodes.

Definition variant : Variant :=
  mkVariant sectionConfig "circle" collectItemData indexNode referenceLinks.

Definition buildGraphData : Document -> Oracle -> BuildResult :=
  buildGraphData variant.

End Auto.

(* ----------------------------------------------------------------- *)
(** *** Revision with author-listed references (lines 2330-2651) *)

Module Manual.

Definition sectionConfig : list (string * Config) :=
  [ ("work", mkConfig "square" ".work-item");
    ("projects", mkConfig "triangle" ".project-card");
    ("media", mkConfig "circle" ".talk-item");
    ("contact", mkConfig "diamond" ".contact-item") ].

Definition collectItemData (sectionKey : string) (itemEl : ItemEl)
  (fallbackIdx : nat) : Node :=
  let label := itemLabel itemEl in
  let subtitle := itemSubtitle itemEl in
  let id := itemId sectionKey itemEl fallbackIdx in
  let linksTo :=
    match graphLinksTo itemEl with
    | Some s => if JS.truthy s then map JS.trim (JS.splitComma s) else []
    | None => []
    end in
  mkNode id label subtitle item (Some sectionKey) "circle" ITEM_SIZE
         None None (Some linksTo) 0 0 None None false.

(** [nodeIndex.set(node.id, node)] *)
Definition indexNode (nodeIndex : JS.Map Node) (node : Node) : JS.Map Node :=
  JS.set nodeIndex (node_id node) node.

Definition linksOfNode (nodeIndex : JS.Map Node) (node : Node) : list Link :=
  match node_type node, node_linksTo node with
  | item, Some linksTo =>
      flat_map
        (fun targetId =>
           match JS.get nodeIndex targetId with
           | Some targetNode =>
               if negb (node_id targetNode =? node_id node)
               then [newLink (node_id node) (node_id targetNode) reference]
               else []
           | None => []
           end)
        linksTo
  | _, _ => []
  end.

Definition referenceLinks (nodes : list Node) (nodeIndex : JS.Map Node)
  : list Link :=
  flat_map (linksOfNode nodeIndex) nodes.

Definition variant : Variant :=
  mkVariant sectionConfig "tilde" collectItemData indexNode referenceLinks.

Definition buildGraphData : Document -> Oracle -> BuildResult :=
  buildGraphData variant.

End Manual.

(* ================================================================= *)
(** ** Runtime state: visibility, viewport, drag *)

(** [activeSubgraph]: [null], a category key ([toggleSubgraph]) or an
    array of categories ([showMultipleSubgraphs]). *)
Inductive Active : Type :=
| ANull
| AKey (k : string)
| AKeys (ks : list (option string)).

(** A zoom transform; [TransformNaN] stands for the transform with [NaN]
    translation that [zoomToFit] computes from an empty selection. *)
Inductive Transform : Type :=
| mkTransform (x y k : Q)
| TransformNaN.

Record State : Type := mkState {
  st_container : option (Q * Q);   (* [getElementById('graph-container')] *)
  graphData : option GraphData;
  simulation : bool;               (* [simulation] is not [null] *)
  activeSubgraph : Active;
  currentTransform : Transform
}.

(** How a handler ends: it returns, or an exception leaves it.  The state
    reached is kept in both cases. *)
Inductive Completion : Type := Returned | Thrown.

(** The constants and the hover filter in which the two revisions of the
    handlers differ. *)
Record Style : Type := mkStyle {
  branchShown : Q;        (* branch link with a visible target *)
  referenceShown : Q;     (* reference link, in toggle/show *)
  referenceRest : Q;      (* reference link, on mouseout *)
  spineRest : Q;          (* spine link, at render and on mouseout *)
  hoverOpacity : Q;
  hoverSelects : Link -> bool   (* besides being connected to the node *)
}.

(** [link_strokeOpacity] is the value the attribute was last set to.
    The handlers set it through transitions of 250 to 400 ms, so the
    attribute of the element reaches this value only when the
    transition ends.  The hover filter of the last revision reads the
    attribute of the element; [hoverSelects] reads the value last set,
    which is the same outside a running transition. *)

Definition setHidden (n : Node) (h : bool) : Node :=
  mkNode (node_id n) (node_label n) (node_subtitle n) (node_type n)
         (node_category n) (node_shape n) (node_size n)
         (node_referenceId n) (node_fullText n) (node_linksTo n)
         (node_x n) (node_y n) (node_fx n) (node_fy n) h.

Definition setPos (n : Node) (x y : Q) : Node :=
  mkNode (node_id n) (node_label n) (node_subtitle n) (node_type n)
         (node_category n) (node_shape n) (node_size n)
         (node_referenceId n) (node_fullText n) (node_linksTo n)
         x y (node_fx n) (node_fy n) (node_hidden n).

Definition setPin (n : Node) (fx fy : option Q) : Node :=
  mkNode (node_id n) (node_label n) (node_subtitle n) (node_type n)
         (node_category n) (node_shape n) (node_size n)
         (node_referenceId n) (node_fullText n) (node_linksTo n)
         (node_x n) (node_y n) fx fy (node_hidden n).

Definition setOpacity (l : Link) (o : Q) : Link :=
  mkLink (link_source l) (link_target l) (link_type l) o.

(** [typeof e === 'object' ? e.id : e] *)
Definition endId (ns : list Node) (e : LinkEnd) : option string :=
  match e with
  | EndId s => Some s
  | EndObj i => option_map node_id (nth_error ns i)
  end.

(** [typeof e === 'object' ? e : graphData.nodes.find(n => n.id === e)] *)
Definition endNode (ns : list Node) (e : LinkEnd) : option Node :=
  match e with
  | EndId s => find (fun n => node_id n =? s) ns
  | EndObj i => nth_error ns i
  end.

(** [node && !node.hidden] *)
Definition shown (n : option Node) : bool :=
  match n with Some m => negb (node_hidden m) | None => false end.

Definition isType (t : NodeType) (n : Node) : bool := NodeType_eqb (node_type n) t.

(** [graphData.nodes.forEach(node => { if (node.type === 'item')
    node.hidden = h(node) })] *)
Definition hideItems (h : Node -> bool) (ns : list Node) : list Node :=
  map (fun node => if isType item node then setHidden node (h node) else node) ns.

(** The two [stroke-opacity] updates shared by [toggleSubgraph] and
    [showMultipleSubgraphs]: the [.link-branch] and the [.link-reference]
    selections. *)
Definition restyleLink (S : Style) (ns : list Node) (l : Link) : Link :=
  match link_type l with
  | branch =>
      setOpacity l (if shown (endNode ns (link_target l))
                    then branchShown S else 0)
  | reference =>
      setOpacity l (if shown (endNode ns (link_source l))
                       && shown (endNode ns (link_target l))
                    then referenceShown S else 0)
  | spine => l
  end.

(** The [stroke-opacity] reset of the [mouseout] handler, over [.link]. *)
Definition restLink (S : Style) (ns : list Node) (l : Link) : Link :=
  match link_type l with
  | branch =>
      setOpacity l (if shown (endNode ns (link_target l))
                    then branchShown S else 0)
  | reference =>
      setOpacity l (if shown (endNode ns (link_source l))
                       && shown (endNode ns (link_target l))
                    then referenceRest S else 0)
  | spine => setOpacity l (spineRest S)
  end.

(* ----------------------------------------------------------------- *)
(** *** Viewport Controller *)

(** The [forEach] that folds [Math.min]/[Math.max] over the selection,
    started at the first node ([Math.min(Infinity, x) = x]); [None] for
    an empty selection, whose bounds stay infinite. *)
Definition boundingBox (sel : list Node) : option (Q * Q * Q * Q) :=
  match sel with
  | [] => None
  | n :: r =>
      Some (fold_left
              (fun '(minX, maxX, minY, maxY) node =>
                 (Qmin minX (node_x node), Qmax maxX (node_x node),
                  Qmin minY (node_y node), Qmax maxY (node_y node)))
              r (node_x n, node_x n, node_y n, node_y n))
  end.

(** From "Add padding" to the transform object. *)
Definition fitTransform (containerWidth containerHeight padding maxScale : Q)
  (box : Q * Q * Q * Q) : Transform :=
  let '(minX0, maxX0, minY0, maxY0) := box in
  let minX := (minX0 - padding)%Q in
  let maxX := (maxX0 + padding)%Q in
  let minY := (minY0 - padding)%Q in
  let maxY := (maxY0 + padding)%Q in
  let width := (maxX - minX)%Q in
  let height := (maxY - minY)%Q in
  let scale :=
    Qmin (Qmin (containerWidth / width)%Q (containerHeight / height)%Q) maxScale in
  let centerX := ((minX + maxX) / 2)%Q in
  let centerY := ((minY + maxY) / 2)%Q in
  let translateX := (containerWidth / 2 - centerX * scale)%Q in
  let translateY := (containerHeight / 2 - centerY * scale)%Q in
  mkTransform translateX translateY scale.

Definition withTransform (st : State) (t : Transform) : State :=
  mkState (st_container st) (graphData st) (simulation st)
          (activeSubgraph st) t.

Definition isVisibleNode (n : Node) : bool :=
  isType center n || isType category n
  || (isType item n && negb (node_hidden n)).

Definition isMainNode (n : Node) : bool :=
  isType center n || isType category n.

Definition zoomToVisibleNodes (st : State) : State * Completion :=
  match graphData st with
  | None => (st, Returned)
  | Some g =>
      match st_container st with
      | None => (st, Thrown)          (* [container.offsetWidth] of [null] *)
      | Some (containerWidth, containerHeight) =>
          match boundingBox (filter isVisibleNode (nodes g)) with
          | None => (st, Returned)    (* [visibleNodes.length === 0] *)
          | Some box =>
              (withTransform st
                 (fitTransform containerWidth containerHeight 100 (3 # 2) box),
               Returned)
          end
      end
  end.

Definition zoomToCategory (categoryKey : string) : State -> State * Completion :=
  zoomToVisibleNodes.

Definition zoomToFit (st : State) : State * Completion :=
  match st_container st with
  | None => (st, Thrown)              (* [container.offsetWidth] of [null] *)
  | Some (containerWidth, containerHeight) =>
      match graphData st with
      | None => (st, Thrown)          (* [graphData.nodes] of [null] *)
      | Some g =>
          match boundingBox (filter isMainNode (nodes g)) with
          | None => (withTransform st TransformNaN, Returned)
          | Some box =>
              (withTransform st
                 (fitTransform containerWidth containerHeight 80 1 box),
               Returned)
          end
      end
  end.

(* ----------------------------------------------------------------- *)
(** *** Visibility Controller *)

Definition withGraph (st : State) (g : GraphData) (a : Active) : State :=
  mkState (st_container st) (Some g) (simulation st) a (currentTransform st).

(** [activeSubgraph === categoryKey] *)
Definition sameActive (a : Active) (categoryKey : option string) : bool :=
  match a, categoryKey with
  | ANull, None => true
  | AKey k, Some k' => k =? k'
  | _, _ => false
  end.

(** Truthiness of [activeSubgraph]; an array is always truthy. *)
Definition activeTruthy (a : Active) : bool :=
  match a with
  | ANull => false
  | AKey k => JS.truthy k
  | AKeys _ => true
  end.

Definition activeOfKey (categoryKey : option string) : Active :=
  match categoryKey with Some k => AKey k | None => ANull end.

(** [categories.includes(c)] on an array of category values. *)
Definition includesCat (categories : list (option string)) (c : option string)
  : bool :=
  existsb (optString_eqb c) categories.

Definition toggleSubgraph (S : Style) (categoryKey : option string) (st : State)
  : State * Completion :=
  match graphData st, simulation st with
  | Some g, true =>
      let categoryKey :=
        if sameActive (activeSubgraph st) categoryKey then None
        else categoryKey in
      let ns :=
        hideItems
          (fun node =>
             if truthyOpt categoryKey
             then negb (optString_eqb (node_category node) categoryKey)
             else true)
          (nodes g) in
      let st1 :=
        withGraph st (mkGraphData ns (map (restyleLink S ns) (links g)))
                  (activeOfKey categoryKey) in
      match categoryKey with
      | Some k => if JS.truthy k then zoomToCategory k st1 else zoomToFit st1
      | None => zoomToFit st1
      end
  | _, _ => (st, Returned)
  end.

Definition showMultipleSubgraphs (S : Style) (categories : list (option string))
  (st : State) : State * Completion :=
  match graphData st, simulation st with
  | Some g, true =>
      let active :=
        match categories with [] => ANull | _ :: _ => AKeys categories end in
      let ns :=
        hideItems (fun node => negb (includesCat categories (node_category node)))
                  (nodes g) in
      (withGraph st (mkGraphData ns (map (restyleLink S ns) (links g))) active,
       Returned)
  | _, _ => (st, Returned)
  end.

(** [sourceId === node.id && targetNode && targetNode.category] and the
    symmetric test, for one link; the categories it adds to the set. *)
Definition relatedOfLink (ns : list Node) (node : Node) (l : Link)
  : list string :=
  match link_type l with
  | reference =>
      let sourceId := endId ns (link_source l) in
      let targetId := endId ns (link_target l) in
      let sourceNode := endNode ns (link_source l) in
      let targetNode := endNode ns (link_target l) in
      (match targetNode with
       | Some t =>
           if optString_eqb sourceId (Some (node_id node))
              && truthyOpt (node_category t)
           then match node_category t with Some c => [c] | None => [] end
           else []
       | None => []
       end)
      ++
      (match sourceNode with
       | Some s =>
           if optString_eqb targetId (Some (node_id node))
              && truthyOpt (node_category s)
           then match node_category s with Some c => [c] | None => [] end
           else []
       | None => []
       end)
  | _ => []
  end.

Definition getRelatedCategories (st : State) (node : Node) : list string :=
  match graphData st with
  | None => []
  | Some g => JS.setFrom (flat_map (relatedOfLink (nodes g) node) (links g))
  end.

(* ----------------------------------------------------------------- *)
(** *** Reshuffle, drag, layout ticks, resize *)

Fixpoint mapi {A B} (f : nat -> A -> B) (i : nat) (l : list A) : list B :=
  match l with
  | [] => []
  | a :: r => f i a :: mapi f (S i) r
  end.

Definition withNodes (st : State) (f : list Node -> list Node) : State :=
  match graphData st with
  | None => st
  | Some g =>
      mkState (st_container st) (Some (mkGraphData (f (nodes g)) (links g)))
              (simulation st) (activeSubgraph st) (currentTransform st)
  end.

(** The body of [reshuffleGraph] up to the restart of the simulation;
    [offset i] is [(Math.cos(angle) * radius, Math.sin(angle) * radius)]
    as drawn for node [i].  The [zoomToFit] it schedules is the timer
    event [TimerZoomToFit] below. *)
Definition reshuffleGraph (offset : nat -> Q * Q) (st : State) : State :=
  match graphData st, simulation st with
  | Some g, true =>
      let '(centerX, centerY) := centerOf (st_container st) in
      withNodes st
        (mapi (fun i node =>
                 match node_type node with
                 | center =>
                     setPos (setPin node (Some centerX) (Some centerY))
                            centerX centerY
                 | category | item =>
                     setPin (setPos node (centerX + fst (offset i))%Q
                                         (centerY + snd (offset i))%Q)
                            None None
                 end) 0)
  | _, _ => st
  end.

Fixpoint updateAt {A} (i : nat) (f : A -> A) (l : list A) : list A :=
  match l, i with
  | [], _ => []
  | a :: r, O => f a :: r
  | a :: r, S j => a :: updateAt j f r
  end.

(** Drag handlers on the node object with index [i]. *)
Definition dragStart (i : nat) (st : State) : State :=
  withNodes st
    (updateAt i (fun d => setPin d (Some (node_x d)) (Some (node_y d)))).

Definition dragMove (i : nat) (ex ey : Q) (st : State) : State :=
  withNodes st (updateAt i (fun d => setPin d (Some ex) (Some ey))).

Definition dragEnd (i : nat) (st : State) : State :=
  withNodes st
    (updateAt i (fun d => if isType center d then d else setPin d None None)).

(** One tick of the force simulation of the layout library (the script's
    own [ticked] only redraws): a pinned coordinate is held at its pin, a
    free one moves to wherever the forces put it ([pos i]). *)
Definition simulationTick (pos : nat -> Q * Q) (st : State) : State :=
  withNodes st
    (mapi (fun i node =>
             setPos node
               (match node_fx node with Some fx => fx | None => fst (pos i) end)
               (match node_fy node with Some fy => fy | None => snd (pos i) end))
          0).

(** [graphData.nodes.find(n => n.id === 'center')], then the two
    assignments to it. *)
Fixpoint pinFirstCenter (cx cy : Q) (ns : list Node) : list Node :=
  match ns with
  | [] => []
  | n :: r =>
      if node_id n =? "center" then setPin n (Some cx) (Some cy) :: r
      else n :: pinFirstCenter cx cy r
  end.

(** The [resize] listener of [initGraph]; [newWidth] and [newHeight] are
    the container's new dimensions. *)
Definition onResize (newWidth newHeight : Q) (st : State) : State :=
  let st1 :=
    mkState (match st_container st with
             | Some _ => Some (newWidth, newHeight)
             | None => None
             end)
            (graphData st) (simulation st) (activeSubgraph st)
            (currentTransform st) in
  if simulation st
  then withNodes st1 (pinFirstCenter (newWidth / 2)%Q (newHeight / 2)%Q)
  else st1.

(* ----------------------------------------------------------------- *)
(** *** Interaction handlers installed by [renderGraph] *)

Definition withLinks (st : State) (f : list Node -> list Link -> list Link)
  : State :=
  match graphData st with
  | None => st
  | Some g =>
      mkState (st_container st)
              (Some (mkGraphData (nodes g) (f (nodes g) (links g))))
              (simulation st) (activeSubgraph st) (currentTransform st)
  end.

(** [sourceId === d.id || targetId === d.id] *)
Definition isConnected (ns : list Node) (d : Node) (l : Link) : bool :=
  optString_eqb (endId ns (link_source l)) (Some (node_id d))
  || optString_eqb (endId ns (link_target l)) (Some (node_id d)).

Definition mouseover (S : Style) (i : nat) (st : State) : State :=
  match graphData st with
  | None => st
  | Some g =>
      match nth_error (nodes g) i with
      | None => st
      | Some d =>
          if node_hidden d then st
          else
            withLinks st
              (fun ns ls =>
                 map (fun l =>
                        if isConnected ns d l && hoverSelects S l
                        then setOpacity l (hoverOpacity S) else l) ls)
      end
  end.

Definition mouseout (S : Style) (i : nat) (st : State) : State :=
  withLinks st (fun ns ls => map (restLink S ns) ls).

(** The timer set by a click on a category node. *)
Definition timerRecenter (st : State) : State * Completion :=
  if activeTruthy (activeSubgraph st) then zoomToVisibleNodes st
  else zoomToFit st.

(** The [click] handler of a node, without the calls to the accordion
    ([toggleSection]), the scrolling and the timers; [offset] feeds the
    reshuffle a click on the center triggers.  (The revision of lines
    1970-3897 drops the click that ends a drag; a run then has no
    [ClickNode] event there.) *)
Definition clickNode (S : Style) (offset : nat -> Q * Q) (i : nat) (st : State)
  : State * Completion :=
  match graphData st with
  | None => (st, Returned)
  | Some g =>
      match nth_error (nodes g) i with
      | None => (st, Returned)
      | Some d =>
          match node_type d with
          | category =>
              let catKey := JS.replaceFirst "cat-" "" (node_id d) in
              toggleSubgraph S (Some catKey) st
          | item =>
              let relatedCategories := getRelatedCategories st d in
              showMultipleSubgraphs S
                (node_category d :: map Some relatedCategories) st
          | center =>
              let st1 := reshuffleGraph offset st in
              if activeTruthy (activeSubgraph st1)
              then toggleSubgraph S None st1
              else (st1, Returned)
          end
      end
  end.

(** The [click] handler of the [svg] background. *)
Definition clickBackground (st : State) : State * Completion :=
  if activeTruthy (activeSubgraph st) then
    match graphData st with
    | None => (mkState (st_container st) None (simulation st) ANull
                       (currentTransform st), Thrown)
    | Some g =>
        let ns := hideItems (fun _ => true) (nodes g) in
        let ls :=
          map (fun l => match link_type l with
                        | branch | reference => setOpacity l 0
                        | spine => l
                        end) (links g) in
        zoomToFit (withGraph st (mkGraphData ns ls) ANull)
    end
  else (st, Returned).

(* ----------------------------------------------------------------- *)
(** *** [renderGraph] and [initGraph] *)

(** The node the link force of the layout library substitutes for an
    identity: the last node carrying it. *)
Fixpoint findLastIndex (s : string) (ns : list Node) (i : nat) : option nat :=
  match ns with
  | [] => None
  | n :: r =>
      match findLastIndex s r (S i) with
      | Some j => Some j
      | None => if node_id n =? s then Some i else None
      end
  end.

Definition resolveEnd (ns : list Node) (e : LinkEnd) : option LinkEnd :=
  match e with
  | EndObj i => Some (EndObj i)
  | EndId s => option_map EndObj (findLastIndex s ns 0)
  end.

(** One link as [renderGraph] leaves it: ends resolved, [stroke-opacity]
    at 0 for branch and reference links. *)
Definition renderLink (S : Style) (ns : list Node) (l : Link) : option Link :=
  match resolveEnd ns (link_source l), resolveEnd ns (link_target l) with
  | Some s, Some t =>
      Some (mkLink s t (link_type l)
                   (match link_type l with
                    | branch | reference => 0%Q
                    | spine => spineRest S
                    end))
  | _, _ => None
  end.

Fixpoint renderLinks (S : Style) (ns : list Node) (ls : list Link)
  : option (list Link) :=
  match ls with
  | [] => Some []
  | l :: r =>
      match renderLink S ns l, renderLinks S ns r with
      | Some l', Some r' => Some (l' :: r')
      | _, _ => None
      end
  end.

(** [renderGraph], on the state in which [graphData] was just assigned.
    The link force throws when an end names no node. *)
Definition renderGraph (S : Style) (st : State) : State * Completion :=
  match graphData st with
  | None => (st, Returned)
  | Some g =>
      match renderLinks S (nodes g) (links g) with
      | None => (st, Thrown)
      | Some ls =>
          (mkState (st_container st) (Some (mkGraphData (nodes g) ls)) true
                   (activeSubgraph st) (currentTransform st), Returned)
      end
  end.

Definition emptyState (doc : Document) : State :=
  mkState (container doc) None false ANull (mkTransform 0 0 1).

(** [initGraph]: nothing is built when the container is missing. *)
Definition initGraph (V : Variant) (S : Style) (doc : Document) (orc : Oracle)
  : State * Completion :=
  match container doc with
  | None => (emptyState doc, Returned)
  | Some _ =>
      let r := buildGraphData V doc orc in
      renderGraph S
        (mkState (container doc) (Some (graph r)) false ANull
                 (mkTransform 0 0 1))
  end.

(* ----------------------------------------------------------------- *)
(** *** Events and runs *)

Inductive Event : Type :=
| ClickNode (offset : nat -> Q * Q) (i : nat)
| ClickBackground
| MouseOver (i : nat)
| MouseOut (i : nat)
| DragStart (i : nat)
| DragMove (i : nat) (ex ey : Q)
| DragEnd (i : nat)
| Tick (pos : nat -> Q * Q)
| Resize (newWidth newHeight : Q)
| TimerRecenter        (* set by a click on a category node *)
| TimerZoomToVisible   (* set by a click on an item node *)
| TimerZoomToFit.      (* set by [reshuffleGraph] *)

Definition handle (S : Style) (e : Event) (st : State) : State * Completion :=
  match e with
  | ClickNode offset i => clickNode S offset i st
  | ClickBackground => clickBackground st
  | MouseOver i => (mouseover S i st, Returned)
  | MouseOut i => (mouseout S i st, Returned)
  | DragStart i => (dragStart i st, Returned)
  | DragMove i ex ey => (dragMove i ex ey st, Returned)
  | DragEnd i => (dragEnd i st, Returned)
  | Tick pos => (simulationTick pos st, Returned)
  | Resize w h => (onResize w h st, Returned)
  | TimerRecenter => timerRecenter st
  | TimerZoomToVisible => zoomToVisibleNodes st
  | TimerZoomToFit => zoomToFit st
  end.

(** The event loop: an exception ends a handler, not the page. *)
Definition run (S : Style) (es : list Event) (st : State) : State :=
  fold_left (fun s e => fst (handle S e s)) es st.

Definition isItemClick (st : State) (e : Event) : bool :=
  match e, graphData st with
  | ClickNode _ i, Some g =>
      match nth_error (nodes g) i with
      | Some d => isType item d
      | None => false
      end
  | _, _ => false
  end.

(** Handler constants of the two revisions. *)
Definition Auto_style : Style :=
  mkStyle (3 # 10) (1 # 2) (1 # 2) (3 # 10) (7 # 10)
          (fun link => negb (LinkType_eqb (link_type link) reference)).

Definition Manual_style : Style :=
  mkStyle (4 # 10) (4 # 10) (1 # 2) (4 # 10) (8 # 10)
          (fun link => negb (Qle_bool (link_strokeOpacity link) 0)).

(* ================================================================= *)
(** ** Vocabulary of the properties *)

(** The item nodes one category block contributes, in order. *)
Definition itemNode (V : Variant) (orc : Oracle) (catKey : string) (x y : Q)
  (itemIdx : nat) (itemEl : ItemEl) : Node :=
  let r := random2 orc catKey itemIdx in
  placeItem (collectItemData V catKey itemEl itemIdx)
            (x + (fst r - (1 # 2)) * 60)%Q (y + (snd r - (1 # 2)) * 60)%Q.

Definition itemNodes (V : Variant) (orc : Oracle) (catKey : string) (x y : Q)
  (items : list ItemEl) (itemIdx : nat) : list Node :=
  mapi (itemNode V orc catKey x y) itemIdx items.

Definition branchLinkTo (catKey : string) (n : Node) : Link :=
  newLink ("cat-" +:+ catKey) (node_id n) branch.

(** Position seed of the category with index [idx]. *)
Definition seedX (orc : Oracle) (centerX : Q) (idx : nat) : Q :=
  (centerX + cosAngle orc idx * CATEGORY_RADIUS)%Q.
Definition seedY (orc : Oracle) (centerY : Q) (idx : nat) : Q :=
  (centerY + sinAngle orc idx * CATEGORY_RADIUS)%Q.

Definition blockLabel (catKey : string) (block : SectionBlock) : string :=
  JS.orElse (option_map JS.trim (sectionTitle block)) catKey.

(** Nodes and links of the categories, read off the page as it was before
    the build. *)
Fixpoint categoryNodes (V : Variant) (orc : Oracle) (centerX centerY : Q)
  (categories : list (string * Config)) (idx : nat) (doc : Document)
  : list Node :=
  match categories with
  | [] => []
  | (catKey, config) :: rest =>
      match querySection doc catKey with
      | None => categoryNodes V orc centerX centerY rest (S idx) doc
      | Some block =>
          categoryNode catKey (blockLabel catKey block) (shape config)
                       (seedX orc centerX idx) (seedY orc centerY idx)
          :: itemNodes V orc catKey (seedX orc centerX idx)
                       (seedY orc centerY idx) (blockItems block) 0
          ++ categoryNodes V orc centerX centerY rest (S idx) doc
      end
  end.

Fixpoint categoryLinks (V : Variant) (orc : Oracle) (centerX centerY : Q)
  (categories : list (string * Config)) (idx : nat) (doc : Document)
  : list Link :=
  match categories with
  | [] => []
  | (catKey, config) :: rest =>
      match querySection doc catKey with
      | None => categoryLinks V orc centerX centerY rest (S idx) doc
      | Some block =>
          newLink "center" ("cat-" +:+ catKey) spine
          :: map (branchLinkTo catKey)
                 (itemNodes V orc catKey (seedX orc centerX idx)
                            (seedY orc centerY idx) (blockItems block) 0)
          ++ categoryLinks V orc centerX centerY rest (S idx) doc
      end
  end.

(** The page after a build: every collected block carries its identity. *)
Definition stampItems (catKey : string) (items : list ItemEl) : list ItemEl :=
  mapi (fun i e => setGraphId e (itemId catKey e i)) 0 items.

Definition stampBlock (catKey : string) (b : SectionBlock) : SectionBlock :=
  mkSectionBlock (sectionTitle b) (stampItems catKey (blockItems b)).

Definition isItem (n : Node) : Prop := node_type n = item.

Definition nodeIds (g : GraphData) : list string := map node_id (nodes g).

(** A link as the triple (source identity, target identity, kind). *)
Definition linkTriple (l : Link) : LinkEnd * LinkEnd * LinkType :=
  (link_source l, link_target l, link_type l).

(** Forgetting what the layout owns: position, pin and visibility. *)
Definition unplaced (n : Node) : Node :=
  mkNode (node_id n) (node_label n) (node_subtitle n) (node_type n)
         (node_category n) (node_shape n) (node_size n)
         (node_referenceId n) (node_fullText n) (node_linksTo n)
         0 0 None None false.

Definition mapValues {V W} (f : V -> W) (m : JS.Map V) : JS.Map W :=
  map (fun kv => (fst kv, f (snd kv))) m.

(** What the generic part of the build relies on in a revision. *)
Record VariantOk (V : Variant) : Prop := mkVariantOk {
  config_keys_distinct : NoDup (map fst (sectionConfig V));
  collect_type : forall k e i, node_type (collectItemData V k e i) = item;
  collect_category :
    forall k e i, node_category (collectItemData V k e i) = Some k;
  collect_id : forall k e i, node_id (collectItemData V k e i) = itemId k e i;
  collect_label :
    forall k e i, node_label (collectItemData V k e i) = itemLabel e;
  collect_stamped :
    forall k e i,
      collectItemData V k (setGraphId e (itemId k e i)) i
      = collectItemData V k e i;
  index_values :
    forall m n v, In v (JS.values (indexNode V m n)) ->
                  v = n \/ In v (JS.values m);
  index_unplaced :
    forall m n, mapValues unplaced (indexNode V m n)
                = indexNode V (mapValues unplaced m) (unplaced n);
  refs_unplaced :
    forall ns m, referenceLinks V (map unplaced ns) (mapValues unplaced m)
                 = referenceLinks V ns m;
  refs_ends :
    forall ns m l, In l (referenceLinks V ns m) ->
      link_type l = reference /\
      exists a b, In a ns /\ In b (JS.values m) /\
                  link_source l = EndId (node_id a) /\
                  link_target l = EndId (node_id b)
}.

(** The structural invariant of a built graph. *)
Definition hasNodeId (g : GraphData) (e : LinkEnd) : Prop :=
  exists n, In n (nodes g) /\ e = EndId (node_id n).

Definition graphInvariant (g : GraphData) : Prop :=
  List.length (filter (isType center) (nodes g)) = 1 /\
  (forall n, In n (nodes g) -> node_type n = item ->
     exists c, In c (nodes g) /\ node_type c = category /\
               node_category c = node_category n) /\
  (forall l, In l (links g) ->
     hasNodeId g (link_source l) /\ hasNodeId g (link_target l)).

(** Same node identities, and same (source, target, kind) triples. *)
Definition sameIdentities (g1 g2 : GraphData) : Prop :=
  nodeIds g1 = nodeIds g2 /\
  map linkTriple (links g1) = map linkTriple (links g2).

(** The identity of an item: the explicit one when the block supplies a
    non-empty [data-graph-id], else category key, slug of the label and
    position. *)
Definition identityRule (k : string) (e : ItemEl) (label : string) (j : nat)
  : string :=
  match graphId e with
  | Some s => if JS.truthy s then s else derivedId k label j
  | None => derivedId k label j
  end.

(** Where each identity of a graph built from [doc] comes from. *)
Definition identitiesDerived (doc : Document) (g : GraphData) : Prop :=
  forall n, In n (nodes g) ->
    match node_type n with
    | center => node_id n = "center"
    | category =>
        exists k, node_category n = Some k /\ node_id n = "cat-" +:+ k
    | item =>
        exists k block j e,
          querySection doc k = Some block /\
          nth_error (blockItems block) j = Some e /\
          node_category n = Some k /\
          node_label n = itemLabel e /\
          node_id n = identityRule k e (node_label n) j
    end.




(** *** Reference links, as rules *)

(** Last character of [s], or [prev] when [s] is empty. *)
Fixpoint lastCharOr (prev : option ascii) (s : string) : option ascii :=
  match s with
  | EmptyString => prev
  | String c r => lastCharOr (Some c) r
  end.

(** [tok] occurs in [text] as a whole word, letter case ignored: the
    occurrence [mid] sits between a word boundary on its left and one on
    its right, a boundary being a change between word characters
    ([A-Za-z0-9_]) and anything else, or an end of the text. *)
Definition wholeWordIn (tok text : string) : Prop :=
  exists pre mid post,
    text = pre +:+ mid +:+ post /\
    JS.toLowerCase mid = JS.toLowerCase tok /\
    JS.boundary (lastCharOr None pre) (JS.head (mid +:+ post)) = true /\
    JS.boundary (lastCharOr (lastCharOr None pre) mid) (JS.head post) = true.

Definition hasReferenceLink (g : GraphData) (a b : string) : Prop :=
  In (EndId a, EndId b, reference) (map linkTriple (links g)).

(** The node entered last under the token [tok]. *)
Fixpoint lastWithToken (ns : list Node) (tok : string) : option Node :=
  match ns with
  | [] => None
  | n :: r =>
      match lastWithToken r tok with
      | Some m => Some m
      | None =>
          if optString_eqb (node_referenceId n) (Some tok) then Some n
          else None
      end
  end.

(** The automatic mechanism as the specification words it: the token of
    [B] (three characters or more) is a whole word of the text of [A],
    and [A] and [B] are distinct items of different categories. *)
Definition autoRuleAsStated (g : GraphData) (a b : string) : Prop :=
  exists A B tok text,
    In A (nodes g) /\ In B (nodes g) /\ isItem A /\ isItem B /\
    node_id A = a /\ node_id B = b /\
    node_referenceId B = Some tok /\ 3 <= String.length tok /\
    node_fullText A = Some text /\
    wholeWordIn tok (JS.toLowerCase text) /\
    a <> b /\ node_category A <> node_category B.

(** The automatic mechanism of the script: as above, and [B] is the item
    the reference index holds for its token, the last one collected
    with it. *)
Definition autoRule (g : GraphData) (a b : string) : Prop :=
  exists A B tok text,
    In A (nodes g) /\ In B (nodes g) /\ isItem A /\ isItem B /\
    node_id A = a /\ node_id B = b /\
    node_referenceId B = Some tok /\ 3 <= String.length tok /\
    lastWithToken (nodes g) tok = Some B /\
    node_fullText A = Some text /\
    wholeWordIn tok (JS.toLowerCase text) /\
    a <> b /\ node_category A <> node_category B.

(** The explicit mechanism: the identity of [B] is listed by [A], and
    [B] is an item other than [A]. *)
Definition manualRule (g : GraphData) (a b : string) : Prop :=
  exists A B targets,
    In A (nodes g) /\ In B (nodes g) /\ isItem A /\ isItem B /\
    node_id A = a /\ node_id B = b /\
    node_linksTo A = Some targets /\ In b targets /\
    a <> b.

(** Every reference token of the build is free of regular-expression
    metacharacters, so that [JS.wordRegexTest] is the expression the
    script builds from it. *)
Definition literalTokens (r : BuildResult) : Prop :=
  forall tok, In tok (JS.keys (nodeIndex r)) -> JS.literalToken tok = true.

(** *** A sample page

    Three sections; the work item and the open-source item share the
    label "Kafka", the talk mentions it. *)

Definition plainItem (text : string) : ItemEl :=
  mkItemEl None None None None None None None text.

Definition doc_kafka : Document :=
  mkDocument (Some (600, 400)%Q)
    [ ("work", mkSectionBlock (Some "Work") [plainItem "Kafka"]);
      ("opensource", mkSectionBlock None [plainItem "Kafka"]);
      ("talks", mkSectionBlock None [plainItem "Kafka deep dive"]) ].

Definition orc_zero : Oracle :=
  mkOracle (fun _ => 0%Q) (fun _ => 0%Q) (fun _ _ => (0%Q, 0%Q)).

(** A page of the revision with author-listed references whose
    identities hold a dot: the work item lists the project. *)
Definition doc_dotted : Document :=
  mkDocument (Some (600, 400)%Q)
    [ ("work",
       mkSectionBlock None
         [mkItemEl (Some "node.js") None None None (Some "vue.js") None None
                   "Node"]);
      ("projects",
       mkSectionBlock None
         [mkItemEl (Some "vue.js") None None None None None None "Vue"]) ].

Definition nodeAt (g : GraphData) (i : nat) : Node :=
  nth i (nodes g) (centerNode Auto.variant 0 0).

(** The graph the first revision builds from the sample page. *)
Definition g_kafka : GraphData :=
  graph (Auto.buildGraphData doc_kafka orc_zero).

(** *** Runtime properties *)

Definition nodesOf (st : State) : list Node :=
  match graphData st with Some g => nodes g | None => [] end.

Definition linksOf (st : State) : list Link :=
  match graphData st with Some g => links g | None => [] end.

(** What no handler changes in a node, and what visibility adds to it. *)
Definition skey (n : Node) : string * NodeType * option string :=
  (node_id n, node_type n, node_category n).
Definition vkey (n : Node) : string * NodeType * option string * bool :=
  (skey n, node_hidden n).

Definition allItemsHidden (st : State) : Prop :=
  forall n, In n (nodesOf st) -> isItem n -> node_hidden n = true.

(** All the items shown belong to one category. *)
Definition atMostOneCategory (st : State) : Prop :=
  forall n m, In n (nodesOf st) -> In m (nodesOf st) ->
    isItem n -> isItem m ->
    node_hidden n = false -> node_hidden m = false ->
    node_category n = node_category m.

(** No event of the run is a click on an item node. *)
Fixpoint noItemClick (S : Style) (es : list Event) (st : State) : Prop :=
  match es with
  | [] => True
  | e :: r =>
      isItemClick st e = false /\ noItemClick S r (fst (handle S e st))
  end.




(** The sample page once rendered, in the two revisions. *)
Definition st_kafka_auto : State :=
  fst (initGraph Auto.variant Auto_style doc_kafka orc_zero).
Definition st_kafka_manual : State :=
  fst (initGraph Manual.variant Manual_style doc_kafka orc_zero).

Definition noOffset : nat -> Q * Q := fun _ => (0%Q, 0%Q).


(** The closed state: nothing open, every item hidden. *)
Definition closedState (st : State) : Prop :=
  activeSubgraph st = ANull /\ allItemsHidden st.

(** Node [i] is the category node of key [k]. *)
Definition categoryNodeAt (st : State) (i : nat) (k : string) : Prop :=
  exists d, nth_error (nodesOf st) i = Some d /\
            node_type d = category /\ node_id d = "cat-" +:+ k.

(** *** Pins *)


Definition isPinnedAt (n : Node) (p : Q * Q) : Prop :=
  match node_fx n, node_fy n with
  | Some fx, Some fy => (fx == fst p)%Q /\ (fy == snd p)%Q
  | _, _ => False
  end.


(** Every node of type center is pinned at the center of the container
    (or at the default (300, 300) without one). *)
Definition centerAtViewportCenter (st : State) : Prop :=
  forall n, In n (nodesOf st) -> node_type n = center ->
            isPinnedAt n (centerOf (st_container st)).


(** *** Reframing *)




(** The rendered sample page once [#graph-container] is no longer in
    the document. *)
Definition st_detached : State :=
  mkState None (graphData st_kafka_manual) true ANull (mkTransform 0 0 1).

(** *** Link visibility *)

Definition visible (l : Link) : Prop := (0 < link_strokeOpacity l)%Q.

(** The end resolves to a node whose [hidden] flag is not set. *)
Definition unhidden (ns : list Node) (e : LinkEnd) : Prop :=
  shown (endNode ns e) = true.

Definition isItemEnd (ns : list Node) (e : LinkEnd) : Prop :=
  exists n, endNode ns e = Some n /\ isItem n.

(** A branch link is visible exactly when its target is unhidden, a
    reference link exactly when both its ends are. *)
Definition visibilityInvariant (st : State) : Prop :=
  forall l, In l (linksOf st) ->
    match link_type l with
    | branch => visible l <-> unhidden (nodesOf st) (link_target l)
    | reference =>
        visible l <->
        unhidden (nodesOf st) (link_source l) /\
        unhidden (nodesOf st) (link_target l)
    | spine => True
    end.

(** Branch links lead to items and reference links join items. *)
Definition endsAreItems (st : State) : Prop :=
  forall l, In l (linksOf st) ->
    match link_type l with
    | branch => isItemEnd (nodesOf st) (link_target l)
    | reference =>
        isItemEnd (nodesOf st) (link_source l) /\
        isItemEnd (nodesOf st) (link_target l)
    | spine => True
    end.

(** The opacities a style shows links with are positive, and its hover
    highlight picks only links already visible. *)
Definition positiveStyle (S : Style) : Prop :=
  (0 < branchShown S)%Q /\ (0 < referenceShown S)%Q /\
  (0 < referenceRest S)%Q /\ (0 < hoverOpacity S)%Q.

Definition hoverKeepsHidden (S : Style) : Prop :=
  forall l, hoverSelects S l = true -> visible l.

(** A branch link drawn while its target item is hidden. *)
Definition revealsHiddenBranch (st : State) : Prop :=
  exists l target,
    In l (linksOf st) /\ link_type l = branch /\ visible l /\
    endNode (nodesOf st) (link_target l) = Some target /\
    isItem target /\ node_hidden target = true.

(** *** Auxiliary notions of the proofs *)

(** Two pages agree on the categories still to be visited. *)
Definition agreeOn (keys : list string) (d1 d2 : Document) : Prop :=
  forall k, In k keys -> querySection d1 k = querySection d2 k.

(** Events that leave every node's identity, kind, category and
    visibility as they are. *)
Definition movesOnly (e : Event) : bool :=
  match e with
  | DragStart _ | DragMove _ _ _ | DragEnd _ | Tick _ | Resize _ _
  | TimerRecenter | TimerZoomToVisible | TimerZoomToFit
  | MouseOver _ | MouseOut _ => true
  | ClickNode _ _ | ClickBackground => false
  end.


(** *** Shape of a slug *)

(** Every character is a lower-case letter, a digit or a dash. *)
Fixpoint slugChars (s : string) : bool :=
  match s with
  | EmptyString => true
  | String c r => (isSlugChar c || (c =? "-")%char) && slugChars r
  end.

(** No dash follows a dash; [prevDash] tells whether one precedes [s]. *)
Fixpoint singleDashes (s : string) (prevDash : bool) : bool :=
  match s with
  | EmptyString => true
  | String c r =>
      if (c =? "-")%char then negb prevDash && singleDashes r true
      else singleDashes r false
  end.

Definition startsWithDash (s : string) : bool :=
  match s with String c _ => (c =? "-")%char | EmptyString => false end.

Fixpoint endsWithDash (s : string) : bool :=
  match s with
  | EmptyString => false
  | String c EmptyString => (c =? "-")%char
  | String _ r => endsWithDash r
  end.

(** A slug: not empty, lower-case letters and digits in groups joined by
    single dashes. *)
Definition isSlug (s : string) : Prop :=
  s <> "" /\ slugChars s = true /\ singleDashes s false = true /\
  startsWithDash s = false /\ endsWithDash s = false.

(** *** Shape of a built graph *)

(** The link that hangs a node in the hierarchy: a branch link from its
    category's node for an item, a spine link from the center
    otherwise. *)
Definition hierarchyLink (n : Node) : Link :=
  match node_type n, node_category n with
  | item, Some k => newLink ("cat-" +:+ k) (node_id n) branch
  | _, _ => newLink "center" (node_id n) spine
  end.

Definition isReference (l : Link) : bool := LinkType_eqb (link_type l) reference.

(** A center node first, no other one, and the spine and branch links
    being, in node order, the hierarchy links of the other nodes. *)
Definition treeShaped (g : GraphData) : Prop :=
  exists c rest,
    nodes g = c :: rest /\ node_type c = center /\
    (forall n, In n rest -> node_type n <> center) /\
    filter (fun l => negb (isReference l)) (links g) = map hierarchyLink rest.

(** The nodes of category [k]. *)
Definition inCategory (k : string) (n : Node) : bool :=
  optString_eqb (node_category n) (Some k).

(** The number of nodes a page gives category [k] under the configured
    keys [keys]: its node and one node per content block when the key
    is configured and its section block exists, none otherwise. *)
Definition population (keys : list string) (doc : Document) (k : string) : nat :=
  if JS.includes keys k then
    match querySection doc k with
    | Some block => S (List.length (blockItems block))
    | None => 0
    end
  else 0.

(** *** The index of content blocks *)

(** The identity a content block carries in [data-graph-id]. *)
Definition idOf (e : ItemEl) : string :=
  match graphId e with Some s => s | None => "" end.

(** The content blocks the build visits, as it leaves them, in order. *)
Fixpoint visitedItems (cats : list (string * Config)) (doc : Document)
  : list ItemEl :=
  match cats with
  | [] => []
  | (catKey, _) :: rest =>
      match querySection doc catKey with
      | None => visitedItems rest doc
      | Some block =>
          stampItems catKey (blockItems block) ++ visitedItems rest doc
      end
  end.

(** [domIndex] serves its readers: every item node's identity is a key
    of it, and every entry leads from an identity to a content block of
    the page that carries this identity in [data-graph-id] and from
    which an item node of this identity was built. *)
Definition domIndexFaithful (r : BuildResult) : Prop :=
  (forall n, In n (nodes (graph r)) -> node_type n = item ->
     exists e, JS.get (domIndex r) (node_id n) = Some e) /\
  (forall id e, JS.get (domIndex r) id = Some e ->
     graphId e = Some id /\
     (exists n, In n (nodes (graph r)) /\ node_type n = item /\
                node_id n = id) /\
     (exists k block, querySection (document' r) k = Some block /\
                      In e (blockItems block))).

(** *** What rendering leaves *)

(** The end [e] is a node object of [ns] whose identity is [id]. *)
Definition resolvedTo (ns : list Node) (e : LinkEnd) (id : string) : Prop :=
  exists i n, e = EndObj i /\ nth_error ns i = Some n /\ node_id n = id.

(** [l'] is the link [l] of the build once rendered: same kind, each
    end replaced by a node object of the identity that was written
    there, drawn at rest (spine) or invisible (branch, reference). *)
Definition renderedFrom (S : Style) (ns : list Node) (l l' : Link) : Prop :=
  link_type l' = link_type l /\
  (exists a, link_source l = EndId a /\ resolvedTo ns (link_source l') a) /\
  (exists b, link_target l = EndId b /\ resolvedTo ns (link_target l') b) /\
  link_strokeOpacity l'
  = match link_type l with spine => spineRest S | _ => 0%Q end.

(** [initGraph] returns; without a container nothing is built; with one
    the state holds the built nodes, every link rendered, the layout
    running, nothing open and every item hidden. *)
Definition initCompletes (V : Variant) (S : Style) (doc : Document)
  (orc : Oracle) : Prop :=
  let st := fst (initGraph V S doc orc) in
  let g := graph (buildGraphData V doc orc) in
  snd (initGraph V S doc orc) = Returned /\
  (container doc = None -> st = emptyState doc) /\
  (container doc <> None ->
     simulation st = true /\ closedState st /\
     st_container st = container doc /\
     nodesOf st = nodes g /\
     Forall2 (renderedFrom S (nodes g)) (links g) (linksOf st)).

(** *** Where a reframe puts the nodes *)


(** The state a page is in after [initGraph] and a run of events. *)
Definition reached (V : Variant) (S : Style) (doc : Document) (orc : Oracle)
  (es : list Event) : State :=
  run S es (fst (initGraph V S doc orc)).

(** The sample page with its center dragged to (10, 10) and dropped. *)
Definition dragCenterAway : list Event := [DragStart 0; DragMove 0 10 10; DragEnd 0].

(* ================================================================= *)
(** ** The accordion: [toggleSection] and its callers

    Lines 323-362 and 1143-1147 (first revision), 2657-2748 and
    3740-3744 (last revision).  The last revision adds the URL fragment:
    [toggleSection] takes [updateHash], and two listeners read the
    fragment.  The first revision is the same code without them, that
    is, with [updateHash] false and no fragment listener. *)

Module Accordion.

(** A [.section-block]: its [data-section] attribute, whether its class
    list holds [active], and its [.section-header] when it has one,
    given by the header's [aria-expanded] attribute. *)
Record Block : Type := mkBlock {
  dataSection : option string;
  active : bool;
  header : option (option string)
}.

(** [sectionBlocks] is the list the script takes once, when it loads;
    [hash] is [window.location.hash.slice(1)]. *)
Record Page : Type := mkPage {
  sectionBlocks : list Block;
  activeCategory : option string;
  svg : bool;                              (* [svg] is set *)
  currentHighlightedCategory : option string;
  hash : string
}.

(** [document.querySelector('.section-block[data-section="id"]')]: the
    index of the first block with this attribute value.  The selector
    is built by interpolation; the model is the selector's meaning for
    an identifier that needs no escaping in a CSS string and no
    encoding in a URL fragment ([plainId]). *)
Fixpoint querySectionBlock (bs : list Block) (sectionId : string) : option nat :=
  match bs with
  | [] => None
  | b :: r =>
      if optString_eqb (dataSection b) (Some sectionId) then Some 0
      else option_map S (querySectionBlock r sectionId)
  end.

Definition isPlainChar (c : ascii) : bool :=
  JS.isWordChar c || (c =? "-")%char.

Fixpoint plainId (s : string) : bool :=
  match s with
  | EmptyString => true
  | String c r => isPlainChar c && plainId r
  end.

(** [sectionBlocks.forEach(b => { b.classList.remove('active');
    b.querySelector('.section-header').setAttribute('aria-expanded',
    'false'); })]: stops at the first block without a header. *)
Fixpoint closeAll (bs : list Block) : list Block * Completion :=
  match bs with
  | [] => ([], Returned)
  | b :: r =>
      match header b with
      | None => (mkBlock (dataSection b) false None :: r, Thrown)
      | Some _ =>
          let '(r', c) := closeAll r in
          (mkBlock (dataSection b) false (Some (Some "false")) :: r', c)
      end
  end.

(** [block.classList.add('active'); header.setAttribute('aria-expanded',
    'true')] *)
Definition openBlock (b : Block) : Block * Completion :=
  match header b with
  | Some _ => (mkBlock (dataSection b) true (Some (Some "true")), Returned)
  | None => (mkBlock (dataSection b) true None, Thrown)
  end.

Definition withBlocks (p : Page) (bs : list Block) : Page :=
  mkPage bs (activeCategory p) (svg p) (currentHighlightedCategory p) (hash p).

(** [if (svg) highlightCategory(k)] *)
Definition highlightCategory (p : Page) (k : option string) : option string :=
  if svg p then k else currentHighlightedCategory p.

(** [toggleSection(sectionId, forceOpen, updateHash)]: the page it
    leaves, how it ends, and the value it returns.  [forceOpen] is
    [None] for [null]. *)
Definition toggleSection (sectionId : string) (forceOpen : option bool)
  (updateHash : bool) (p : Page) : Page * Completion * bool :=
  match querySectionBlock (sectionBlocks p) sectionId with
  | None => (p, Returned, false)
  | Some i =>
      let isCurrentlyOpen :=
        match nth_error (sectionBlocks p) i with
        | Some block => active block
        | None => false
        end in
      let shouldOpen :=
        match forceOpen with Some f => f | None => negb isCurrentlyOpen end in
      match closeAll (sectionBlocks p) with
      | (bs, Thrown) => (withBlocks p bs, Thrown, false)
      | (bs, Returned) =>
          if shouldOpen then
            match nth_error bs i with
            | None => (withBlocks p bs, Thrown, false)
            | Some block =>
                match openBlock block with
                | (block', Thrown) =>
                    (withBlocks p (updateAt i (fun _ => block') bs), Thrown, false)
                | (block', Returned) =>
                    (mkPage (updateAt i (fun _ => block') bs) (Some sectionId)
                            (svg p) (highlightCategory p (Some sectionId))
                            (if updateHash then sectionId else hash p),
                     Returned, true)
                end
            end
          else
            (mkPage bs None (svg p) (highlightCategory p None)
                    (if updateHash then "" else hash p),
             Returned, false)
      end
  end.

(** The loop that installs the header listeners when the script loads
    (lines 358-362, 2701-2722): it throws, and the script stops, at a
    block without a header. *)
Definition installHeaderListeners (bs : list Block) : Completion :=
  if forallb (fun b => match header b with Some _ => true | None => false end) bs
  then Returned else Thrown.

(** [`${block.dataset.section}`] *)
Definition sectionIdOf (b : Block) : string :=
  match dataSection b with Some s => s | None => "undefined" end.

Inductive PageEvent : Type :=
| HeaderClick (i : nat)           (* click on the header of block [i] *)
| KeyDown (key : string)
| HashChange (newHash : string)   (* the fragment becomes [newHash] *)
| DomContentLoaded.

(** The listeners; [hashes] tells the revision: [false] for lines
    323-362 and 1143-1147, [true] for lines 2657-2748 and 3740-3744. *)
Definition handlePage (hashes : bool) (e : PageEvent) (p : Page)
  : Page * Completion :=
  match e with
  | HeaderClick i =>
      match nth_error (sectionBlocks p) i with
      | Some block => fst (toggleSection (sectionIdOf block) None hashes p)
      | None => (p, Returned)
      end
  | KeyDown key =>
      match activeCategory p with
      | Some k =>
          if (key =? "Escape") && JS.truthy k
          then fst (toggleSection k (Some false) hashes p)
          else (p, Returned)
      | None => (p, Returned)
      end
  | HashChange newHash =>
      let p1 := mkPage (sectionBlocks p) (activeCategory p) (svg p)
                       (currentHighlightedCategory p) newHash in
      if hashes then
        if JS.truthy newHash
        then fst (toggleSection newHash (Some true) false p1)
        else
          match closeAll (sectionBlocks p1) with
          | (bs, Thrown) => (withBlocks p1 bs, Thrown)
          | (bs, Returned) =>
              (mkPage bs None (svg p1) (currentHighlightedCategory p1) (hash p1),
               Returned)
          end
      else (p1, Returned)
  | DomContentLoaded =>
      if hashes && JS.truthy (hash p) then
        match querySectionBlock (sectionBlocks p) (hash p) with
        | Some _ => fst (toggleSection (hash p) (Some true) false p)
        | None => (p, Returned)
        end
      else (p, Returned)
  end.


End Accordion.

(* ----------------------------------------------------------------- *)
(** *** Clicks on the graph, with the accordion

    The [click] handlers of [renderGraph]: lines 633-728 and
    3065-3174.  The timers they set are the timer events of [handle].
    In the last revision the node handler returns at once when the
    click ends a drag ([wasDragged]); the model is the handler for a
    click that does not.  The sounds it plays are those of [Audio]. *)

Record Site : Type := mkSite {
  graphState : State;
  page : Accordion.Page
}.

(** [`${d.category}`] *)
Definition categoryId (d : Node) : string :=
  match node_category d with Some k => k | None => "null" end.

(** [toggleSection(k, true)] for each [k], in order, until one throws. *)
Fixpoint openSections (hashes : bool) (ks : list string) (p : Accordion.Page)
  : Accordion.Page * Completion :=
  match ks with
  | [] => (p, Returned)
  | k :: r =>
      match Accordion.toggleSection k (Some true) hashes p with
      | (p1, Thrown, _) => (p1, Thrown)
      | (p1, Returned, _) => openSections hashes r p1
      end
  end.

Definition clickNodeSite (hashes : bool) (S : Style) (offset : nat -> Q * Q)
  (i : nat) (s : Site) : Site * Completion :=
  let st := graphState s in
  match graphData st with
  | None => (s, Returned)
  | Some g =>
      match nth_error (nodes g) i with
      | None => (s, Returned)
      | Some d =>
          match node_type d with
          | category =>
              let catKey := JS.replaceFirst "cat-" "" (node_id d) in
              match toggleSubgraph S (Some catKey) st with
              | (st1, Thrown) => (mkSite st1 (page s), Thrown)
              | (st1, Returned) =>
                  let '(p1, c, _) :=
                    Accordion.toggleSection catKey (Some true) hashes (page s) in
                  (mkSite st1 p1, c)
              end
          | item =>
              let relatedCategories := getRelatedCategories st d in
              match openSections hashes (categoryId d :: relatedCategories)
                                 (page s) with
              | (p1, Thrown) => (mkSite st p1, Thrown)
              | (p1, Returned) =>
                  let '(st1, c) :=
                    showMultipleSubgraphs S
                      (node_category d :: map Some relatedCategories) st in
                  (mkSite st1 p1, c)
              end
          | center =>
              let '(p1, c0) :=
                if hashes
                then fst (Accordion.toggleSection "intro" (Some true) true (page s))
                else (page s, Returned) in
              match c0 with
              | Thrown => (mkSite st p1, Thrown)
              | Returned =>
                  let st1 := reshuffleGraph offset st in
                  if activeTruthy (activeSubgraph st1)
                  then let '(st2, c) := toggleSubgraph S None st1 in
                       (mkSite st2 p1, c)
                  else (mkSite st1 p1, Returned)
              end
          end
      end
  end.

(** The [click] handler of the background: the graph first, then
    "close all sections". *)
Definition clickBackgroundSite (s : Site) : Site * Completion :=
  match clickBackground (graphState s) with
  | (st1, Thrown) => (mkSite st1 (page s), Thrown)
  | (st1, Returned) =>
      let p := page s in
      if truthyOpt (Accordion.activeCategory p) then
        match Accordion.closeAll (Accordion.sectionBlocks p) with
        | (bs, Thrown) => (mkSite st1 (Accordion.withBlocks p bs), Thrown)
        | (bs, Returned) =>
            (mkSite st1
               (Accordion.mkPage bs None (Accordion.svg p)
                  (Accordion.currentHighlightedCategory p) (Accordion.hash p)),
             Returned)
        end
      else (mkSite st1 p, Returned)
  end.

(** *** Vocabulary of the accordion *)

(** Exactly the block with index [o] is open; none when [o] is [None]. *)
Definition onlyOpen (bs : list Accordion.Block) (o : option nat) : Prop :=
  forall j b, nth_error bs j = Some b ->
              (Accordion.active b = true <-> o = Some j).

(** [aria-expanded] of every header says whether its block is open. *)
Definition ariaAgrees (bs : list Accordion.Block) : Prop :=
  forall b, In b bs ->
    Accordion.header b
    = Some (Some (if Accordion.active b then "true" else "false")).

(** The block [activeCategory] names. *)
Definition namedBlock (p : Accordion.Page) : option nat :=
  match Accordion.activeCategory p with
  | Some k => Accordion.querySectionBlock (Accordion.sectionBlocks p) k
  | None => None
  end.

(** The accordion is settled: [activeCategory] names a block whenever
    it is set, that block is the only open one (none is open when it is
    [null]), and the headers agree. *)
Definition settled (p : Accordion.Page) : Prop :=
  (Accordion.activeCategory p <> None -> namedBlock p <> None) /\
  onlyOpen (Accordion.sectionBlocks p) (namedBlock p) /\
  ariaAgrees (Accordion.sectionBlocks p).

(** The script loaded: every block has a header. *)
Definition loaded (p : Accordion.Page) : Prop :=
  Accordion.installHeaderListeners (Accordion.sectionBlocks p) = Returned.

(** Section keys and fragments within the scope of [querySectionBlock]:
    every [data-section] value of the page and its URL fragment are
    plain, and so is the fragment an event brings. *)
Definition plainPage (p : Accordion.Page) : Prop :=
  Accordion.plainId (Accordion.hash p) = true /\
  forall b k, In b (Accordion.sectionBlocks p) ->
              Accordion.dataSection b = Some k -> Accordion.plainId k = true.


(** The last of the keys [ks] that names a block, with the block. *)
Definition lastSection (bs : list Accordion.Block) (ks : list string)
  : option (string * nat) :=
  fold_left
    (fun acc k =>
       match Accordion.querySectionBlock bs k with
       | Some j => Some (k, j)
       | None => acc
       end) ks None.

(** The accordion of the sample page, everything closed. *)
Definition closedBlock (k : string) : Accordion.Block :=
  Accordion.mkBlock (Some k) false (Some (Some "false")).

Definition page_kafka : Accordion.Page :=
  Accordion.mkPage [closedBlock "work"; closedBlock "opensource"; closedBlock "talks"]
                   None true None "".

(** A block as the closing loop leaves it, and as opening leaves it. *)
Definition closeBlock (b : Accordion.Block) : Accordion.Block :=
  Accordion.mkBlock (Accordion.dataSection b) false (Some (Some "false")).

Definition openedBlock (b : Accordion.Block) : Accordion.Block :=
  Accordion.mkBlock (Accordion.dataSection b) true (Some (Some "true")).

(** What [toggleSection] decides for the block with index [i]. *)
Definition shouldOpen (forceOpen : option bool) (bs : list Accordion.Block)
  (i : nat) : bool :=
  match forceOpen with
  | Some f => f
  | None =>
      negb (match nth_error bs i with
            | Some b => Accordion.active b
            | None => false
            end)
  end.

(** The same markup: the same [data-section] attributes, in order. *)
Definition sameMarkup (p q : Accordion.Page) : Prop :=
  map Accordion.dataSection (Accordion.sectionBlocks q)
  = map Accordion.dataSection (Accordion.sectionBlocks p).

(** The sample page: its rendered graph (first revision) and its
    accordion. *)
Definition site_kafka : Site := mkSite st_kafka_auto page_kafka.

Definition g_kafka_rendered : GraphData :=
  mkGraphData (nodesOf st_kafka_auto) (linksOf st_kafka_auto).

(* ================================================================= *)
(** ** Sound: the class [AudioFeedback] (lines 1974-2290)

    A sound is an oscillator connected through a gain node of its own
    to the master gain.  What the methods schedule on the two audio
    parameters and on the oscillator is recorded in call order.  The
    clock [context.currentTime], whether the browser can create an
    audio context and whether the context is suspended are given by the
    environment of each call; the clock is read as one value during a
    call. *)

Module Audio.

(** Calls on an [AudioParam]. *)
Inductive ParamCall : Type :=
| SetValue (v : Q)                          (* [param.value = v] *)
| SetValueAtTime (v t : Q)
| LinearRampToValueAtTime (v t : Q)
| ExponentialRampToValueAtTime (v t : Q)
| CancelScheduledValues (t : Q)
| HoldValueAtTime (t : Q).                  (* [setValueAtTime(param.value, t)] *)

Record Voice : Type := mkVoice {
  frequency : list ParamCall;     (* [oscillator.frequency] *)
  oscType : string;               (* [oscillator.type] *)
  gain : list ParamCall;          (* [gain] of its gain node *)
  startAt : option Q;             (* [oscillator.start(t)] *)
  stopAt : option Q               (* [oscillator.stop(t)] *)
}.

(** The audio context: the master gain value, how often [resume] was
    called, and the oscillators created, oldest first. *)
Record Context : Type := mkContext {
  masterGain : Q;
  resumeCalls : nat;
  voices : list Voice
}.

Record Env : Type := mkEnv {
  currentTime : Q;
  contextAvailable : bool;   (* [new AudioContext()] does not throw *)
  contextSuspended : bool    (* [context.state === 'suspended'] *)
}.

(** [localStorage]: [None] when access to it throws. *)
Definition Storage : Type := option (JS.Map string).

(** The object: [dragOscillator] and [dragOscillator2] are indices into
    [voices]; [dragGainNode] and [dragGainNode2] are the gain nodes of
    these two voices, set and cleared with them. *)
Record AudioFeedback : Type := mkAudioFeedback {
  context : option Context;
  enabled : bool;
  muted : bool;
  masterVolume : Q;
  dragOscillator : option nat;
  dragOscillator2 : option nat;
  dragBaseFreq : option Q;
  dragBaseFreq2 : option Q
}.

(** [saved === 'true'] after [localStorage.getItem('soundMuted')], with
    [muted] kept when nothing is saved. *)
Definition savedMuted (items : JS.Map string) (muted : bool) : bool :=
  match JS.get items "soundMuted" with
  | Some saved => saved =? "true"
  | None => muted
  end.

(** [new AudioFeedback()]: the constructor and [init]. *)
Definition newAudioFeedback (storage : Storage) : AudioFeedback :=
  match storage with
  | Some items =>
      mkAudioFeedback None true (savedMuted items false) (15 # 100)
                      None None None None
  | None =>
      mkAudioFeedback None false false (15 # 100) None None None None
  end.

Definition withContext (a : AudioFeedback) (c : Context) : AudioFeedback :=
  mkAudioFeedback (Some c) (enabled a) (muted a) (masterVolume a)
                  (dragOscillator a) (dragOscillator2 a)
                  (dragBaseFreq a) (dragBaseFreq2 a).

(** [ensureContext()]: the object it leaves and the value it returns. *)
Definition ensureContext (env : Env) (a : AudioFeedback) : AudioFeedback * bool :=
  if negb (enabled a) || muted a then (a, false)
  else
    match context a with
    | None =>
        if contextAvailable env then
          (withContext a
             (mkContext (masterVolume a)
                        (if contextSuspended env then 1 else 0) []), true)
        else
          (mkAudioFeedback None false (muted a) (masterVolume a)
                           (dragOscillator a) (dragOscillator2 a)
                           (dragBaseFreq a) (dragBaseFreq2 a), false)
    | Some c =>
        (if contextSuspended env
         then withContext a (mkContext (masterGain c) (S (resumeCalls c)) (voices c))
         else a, true)
    end.

(** Adds oscillators to the context of [a], when it has one. *)
Definition addVoices (a : AudioFeedback) (vs : list Voice) : AudioFeedback :=
  match context a with
  | Some c => withContext a (mkContext (masterGain c) (resumeCalls c) (voices c ++ vs))
  | None => a
  end.

(** A method that starts with [if (!this.ensureContext()) return;] and
    then creates the oscillators [vs]. *)
Definition play (env : Env) (vs : list Voice) (a : AudioFeedback) : AudioFeedback :=
  match ensureContext env a with
  | (a1, true) => addVoices a1 vs
  | (a1, false) => a1
  end.

(** An oscillator whose frequency sweeps from [f0] to [f1] in [sweep]
    seconds, under a gain that rises to [peak] in [attack] seconds and
    decays until [stop]: [playHover], [playExpand], [playCollapse],
    [playCardHover]. *)
Definition sweepVoice (t f0 f1 sweep peak attack stop : Q) : Voice :=
  mkVoice [SetValueAtTime f0 t; LinearRampToValueAtTime f1 (t + sweep)]
          "sine"
          [SetValueAtTime 0 t; LinearRampToValueAtTime peak (t + attack);
           ExponentialRampToValueAtTime (1 # 100) (t + stop)]
          (Some t) (Some (t + stop)%Q).

(** An oscillator of fixed frequency [f] from [start], under the same
    kind of gain: the notes of [playClick] and [playBye]. *)
Definition noteVoice (start f peak attack stop : Q) : Voice :=
  mkVoice [SetValue f] "sine"
          [SetValueAtTime 0 start; LinearRampToValueAtTime peak (start + attack);
           ExponentialRampToValueAtTime (1 # 100) (start + stop)]
          (Some start) (Some (start + stop)%Q).

Definition playHover (env : Env) : AudioFeedback -> AudioFeedback :=
  let t := currentTime env in
  play env [sweepVoice t 700 850 (5 # 100) (25 # 100) (1 # 100) (1 # 10)].

Definition playClick (env : Env) : AudioFeedback -> AudioFeedback :=
  let t := currentTime env in
  play env
    [ noteVoice t 550 (3 # 10) (1 # 100) (4 # 100);
      mkVoice [SetValue 700] "sine"
              [SetValueAtTime 0 (t + (3 # 100));
               LinearRampToValueAtTime (25 # 100) (t + (35 # 1000));
               ExponentialRampToValueAtTime (1 # 100) (t + (8 # 100))]
              (Some (t + (3 # 100))%Q) (Some (t + (8 # 100))%Q) ].

Definition playExpand (env : Env) : AudioFeedback -> AudioFeedback :=
  let t := currentTime env in
  play env [sweepVoice t 400 600 (1 # 10) (25 # 100) (2 # 100) (12 # 100)].

Definition playCollapse (env : Env) : AudioFeedback -> AudioFeedback :=
  let t := currentTime env in
  play env [sweepVoice t 600 400 (8 # 100) (2 # 10) (1 # 100) (1 # 10)].

Definition playCardHover (env : Env) : AudioFeedback -> AudioFeedback :=
  let t := currentTime env in
  play env [sweepVoice t 500 620 (6 # 100) (2 # 10) (15 # 1000) (12 # 100)].

Definition playBye (env : Env) : AudioFeedback -> AudioFeedback :=
  let t := currentTime env in
  play env
    (map (fun '(freq, startTime) =>
            noteVoice (t + startTime) freq (15 # 100) (2 # 100) (12 # 100))
         [(600, 0); (500, 8 # 100); (400, 16 # 100)]%Q).

(** The fade-out and [stop] that [stopDrag] applies to one voice. *)
Definition fadeOut (now : Q) (v : Voice) : Voice :=
  mkVoice (frequency v) (oscType v)
          (gain v ++ [CancelScheduledValues now; HoldValueAtTime now;
                      LinearRampToValueAtTime (1 # 100) (now + (8 # 100))])
          (startAt v) (Some (now + (1 # 10))%Q).

Definition updateVoice (a : AudioFeedback) (i : option nat) (f : Voice -> Voice)
  : AudioFeedback :=
  match context a, i with
  | Some c, Some j =>
      withContext a (mkContext (masterGain c) (resumeCalls c)
                               (updateAt j f (voices c)))
  | _, _ => a
  end.

Definition stopDrag (env : Env) (a : AudioFeedback) : AudioFeedback :=
  match dragOscillator a with
  | None => a
  | Some _ =>
      let now := currentTime env in
      let a1 := updateVoice a (dragOscillator a) (fadeOut now) in
      let a2 := updateVoice a1 (dragOscillator2 a) (fadeOut now) in
      mkAudioFeedback (context a2) (enabled a2) (muted a2) (masterVolume a2)
                      None None (dragBaseFreq a2) (dragBaseFreq2 a2)
  end.

(** One of the two oscillators of the drag tone. *)
Definition dragVoice (t f peak : Q) : Voice :=
  mkVoice [SetValue f] "sine"
          [SetValueAtTime 0 t; LinearRampToValueAtTime peak (t + (5 # 100))]
          (Some t) None.

Definition startDrag (env : Env) (a : AudioFeedback) : AudioFeedback :=
  match ensureContext env a with
  | (a1, false) => a1
  | (a1, true) =>
      let a2 := stopDrag env a1 in
      let t := currentTime env in
      match context a2 with
      | None => a2
      | Some c =>
          let n := List.length (voices c) in
          mkAudioFeedback
            (Some (mkContext (masterGain c) (resumeCalls c)
                     (voices c ++ [dragVoice t 220 (12 # 100);
                                   dragVoice t 330 (6 # 100)])))
            (enabled a2) (muted a2) (masterVolume a2)
            (Some n) (Some (S n)) (Some 220%Q) (Some 330%Q)
      end
  end.

(** The three calls [updateDrag] makes on a frequency. *)
Definition glideTo (now target : Q) (v : Voice) : Voice :=
  mkVoice (frequency v ++ [CancelScheduledValues now; HoldValueAtTime now;
                           LinearRampToValueAtTime target (now + (8 # 100))])
          (oscType v) (gain v) (startAt v) (stopAt v).

Definition baseOr0 (f : option Q) : Q := match f with Some q => q | None => 0%Q end.

Definition updateDrag (env : Env) (velocity : Q) (a : AudioFeedback)
  : AudioFeedback :=
  match dragOscillator a with
  | None => a
  | Some _ =>
      match ensureContext env a with
      | (a1, false) => a1
      | (a1, true) =>
          let modulationAmount := Qmin (velocity * 3) 100 in
          let targetFreq := (baseOr0 (dragBaseFreq a1) + modulationAmount)%Q in
          let targetFreq2 :=
            (baseOr0 (dragBaseFreq2 a1) + modulationAmount * (15 # 10))%Q in
          let now := currentTime env in
          let a2 := updateVoice a1 (dragOscillator a1) (glideTo now targetFreq) in
          updateVoice a2 (dragOscillator2 a1) (glideTo now targetFreq2)
      end
  end.

(** [toggleMute()]: the object, the storage, how it ends and the value
    returned.  The flag is flipped before the storage is written. *)
Definition toggleMute (a : AudioFeedback) (storage : Storage)
  : AudioFeedback * Storage * Completion * bool :=
  let a1 := mkAudioFeedback (context a) (enabled a) (negb (muted a))
                            (masterVolume a) (dragOscillator a)
                            (dragOscillator2 a) (dragBaseFreq a)
                            (dragBaseFreq2 a) in
  match storage with
  | Some items =>
      (a1, Some (JS.set items "soundMuted" (if muted a1 then "true" else "false")),
       Returned, muted a1)
  | None => (a1, None, Thrown, muted a1)
  end.

(** The calls the page makes on [audioFeedback]. *)
Inductive Call : Type :=
| PlayHover | PlayClick | PlayExpand | PlayCollapse | PlayCardHover | PlayBye
| StartDrag | UpdateDrag (velocity : Q) | StopDrag | ToggleMute.

Definition perform (env : Env) (c : Call) (s : AudioFeedback * Storage)
  : AudioFeedback * Storage :=
  let '(a, storage) := s in
  match c with
  | PlayHover => (playHover env a, storage)
  | PlayClick => (playClick env a, storage)
  | PlayExpand => (playExpand env a, storage)
  | PlayCollapse => (playCollapse env a, storage)
  | PlayCardHover => (playCardHover env a, storage)
  | PlayBye => (playBye env a, storage)
  | StartDrag => (startDrag env a, storage)
  | UpdateDrag velocity => (updateDrag env velocity a, storage)
  | StopDrag => (stopDrag env a, storage)
  | ToggleMute => fst (fst (toggleMute a storage))
  end.

(** A session: the object is created when the script loads, then
    called. *)
Definition session (storage : Storage) (calls : list (Env * Call))
  : AudioFeedback * Storage :=
  fold_left (fun s ec => perform (fst ec) (snd ec) s) calls
            (newAudioFeedback storage, storage).

End Audio.

(** *** Vocabulary of the sound properties *)

Definition voicesOf (a : Audio.AudioFeedback) : list Audio.Voice :=
  match Audio.context a with Some c => Audio.voices c | None => [] end.

(** The call makes no sound and changes nothing. *)
Definition silent (f : Audio.AudioFeedback -> Audio.AudioFeedback)
  (a : Audio.AudioFeedback) : Prop := f a = a.

(** Every oscillator that was started and not scheduled to stop is one
    of the two the object holds as the drag tone; these two are
    different oscillators of the context, and the second is held only
    with the first. *)
Definition noStrayTone (a : Audio.AudioFeedback) : Prop :=
  (forall i v, nth_error (voicesOf a) i = Some v -> Audio.stopAt v = None ->
     Audio.dragOscillator a = Some i \/ Audio.dragOscillator2 a = Some i) /\
  (forall i, Audio.dragOscillator a = Some i -> i < List.length (voicesOf a)) /\
  (forall i, Audio.dragOscillator2 a = Some i ->
     i < List.length (voicesOf a) /\ Audio.dragOscillator a <> None /\
     Audio.dragOscillator a <> Some i).

(** Every oscillator of the context is scheduled to stop. *)
Definition allStop (a : Audio.AudioFeedback) : Prop :=
  forall v, In v (voicesOf a) -> Audio.stopAt v <> None.

(** Every frequency ramp of the voice with index [i] ends at a value
    that satisfies [ok]. *)
Definition glidesSatisfy (a : Audio.AudioFeedback) (i : option nat)
  (ok : Q -> Prop) : Prop :=
  forall j v target t,
    i = Some j -> nth_error (voicesOf a) j = Some v ->
    In (Audio.LinearRampToValueAtTime target t) (Audio.frequency v) ->
    ok target.

(** The frequency ramps of the voice with index [i] end between [lo]
    and [hi]. *)
Definition glidesWithin (a : Audio.AudioFeedback) (i : option nat) (lo hi : Q)
  : Prop :=
  glidesSatisfy a i (fun target => (lo <= target)%Q /\ (target <= hi)%Q).

(** No [updateDrag] of the calls is given a negative velocity. *)
Definition forwardVelocity (ec : Audio.Env * Audio.Call) : Prop :=
  match snd ec with
  | Audio.UpdateDrag velocity => (0 <= velocity)%Q
  | _ => True
  end.

Definition env0 : Audio.Env := Audio.mkEnv 0 true false.

(** While a drag tone is held, its two base frequencies are those
    [startDrag] set. *)
Definition basesSet (a : Audio.AudioFeedback) : Prop :=
  Audio.dragOscillator a <> None ->
  Audio.dragBaseFreq a = Some 220%Q /\ Audio.dragBaseFreq2 a = Some 330%Q.

(** What every call keeps: no stray tone, the base frequencies, and
    ramp targets of the two drag oscillators that satisfy [ok1] and
    [ok2]. *)
Definition wellKept (ok1 ok2 : Q -> Prop) (a : Audio.AudioFeedback) : Prop :=
  noStrayTone a /\ basesSet a /\
  glidesSatisfy a (Audio.dragOscillator a) ok1 /\
  glidesSatisfy a (Audio.dragOscillator2 a) ok2.

(** The two ramp targets [updateDrag] computes from a velocity. *)
Definition targetsOk (ok1 ok2 : Q -> Prop) (ec : Audio.Env * Audio.Call) : Prop :=
  match snd ec with
  | Audio.UpdateDrag velocity =>
      ok1 (220 + Qmin (velocity * 3) 100)%Q /\
      ok2 (330 + Qmin (velocity * 3) 100 * (15 # 10))%Q
  | _ => True
  end.

(** The part of the object the drag tone depends on. *)
Definition tone (a : Audio.AudioFeedback)
  : list Audio.Voice * option nat * option nat * option Q * option Q :=
  (voicesOf a, Audio.dragOscillator a, Audio.dragOscillator2 a,
   Audio.dragBaseFreq a, Audio.dragBaseFreq2 a).

Definition stops (v : Audio.Voice) : Prop := Audio.stopAt v <> None.

(* ================================================================= *)
(** ** The theme toggle (lines 2337-2363, 3514-3524, 3750-3897) *)

Module Theme.

(** One entry of [COLORS]. *)
Record Palette : Type := mkPalette {
  p_node : string;
  p_nodeHover : string;
  p_center : string;
  p_link : string;
  p_linkHover : string;
  p_bg : string
}.

Definition dark : Palette :=
  mkPalette "#A3AAA7" "#E7E9E8" "#1D7A84" "#3a3f3d" "#5a605d" "#0F1211".

Definition light : Palette :=
  mkPalette "#5E6461" "#1C1E1D" "#0F4D56" "#c5c8c6" "#9a9d9b" "#F7F7F5".

(** [COLORS[theme]], [None] for [undefined].  Only the two keys the
    object declares are looked up here; a name it inherits from
    [Object.prototype] is outside this model, and the properties below
    are stated for themes the page itself writes. *)
Definition COLORS (theme : string) : option Palette :=
  if theme =? "dark" then Some dark
  else if theme =? "light" then Some light
  else None.

(** [sectionConfig[key].color] of this revision (lines 2330-2335). *)
Definition configColor (key : string) : option string :=
  JS.get [ ("work", "#3D5FA8"); ("projects", "#347A5C");
           ("media", "#B35F2E"); ("contact", "#7D529A") ] key.

(** The markup of the [theme-icon] element: what the page came with,
    the moon or the sun [updateThemeToggle] writes. *)
Inductive Icon : Type := InitialIcon | Moon | Sun.

Record TooltipStyle : Type := mkTooltipStyle {
  background : string;
  borderColor : string;
  color : string
}.

(** The part of the page the theme code reads and writes.  The
    re-rendered shapes and the strokes of the links belong to the
    rendering and are not held here. *)
Record Page : Type := mkPage {
  dataTheme : option string;          (* [data-theme] of the root element *)
  storage : Audio.Storage;            (* [localStorage] *)
  prefersLight : bool;                (* [matchMedia] exists and matches *)
  globals : Palette;                  (* [NODE_COLOR] ... [GRAPH_BG] *)
  svgBackground : option string;      (* [None] while [svg] is unset *)
  tooltipStyle : TooltipStyle;
  themeIcon : option Icon;            (* [None]: no such element *)
  themeLabel : option string;         (* [None]: no such element *)
  painted : option (list (Node * option string))
                                      (* [graphData.nodes], each with its
                                         [color]; [None] for [null] *)
}.

(** [getTheme()]; [None] when reading [localStorage] throws. *)
Definition getTheme (p : Page) : option string :=
  match storage p with
  | None => None
  | Some items =>
      match JS.get items "theme" with
      | Some stored =>
          if JS.truthy stored then Some stored
          else if prefersLight p then Some "light" else Some "dark"
      | None => if prefersLight p then Some "light" else Some "dark"
      end
  end.

Definition updateTooltipTheme (theme : string) : TooltipStyle :=
  if theme =? "light"
  then mkTooltipStyle "rgba(247, 247, 245, 0.95)" "rgba(225, 228, 226, 0.8)"
                      "#5E6461"
  else mkTooltipStyle "rgba(15, 18, 17, 0.95)" "rgba(34, 39, 38, 0.8)"
                      "#A3AAA7".

(** [updateThemeToggle(theme)]: writing to a missing element throws,
    the icon first. *)
Definition updateThemeToggle (theme : string) (p : Page) : Page * Completion :=
  match themeIcon p with
  | None => (p, Thrown)
  | Some _ =>
      let icon := if theme =? "light" then Moon else Sun in
      let p1 := mkPage (dataTheme p) (storage p) (prefersLight p) (globals p)
                       (svgBackground p) (tooltipStyle p) (Some icon)
                       (themeLabel p) (painted p) in
      match themeLabel p with
      | None => (p1, Thrown)
      | Some _ =>
          (mkPage (dataTheme p1) (storage p1) (prefersLight p1) (globals p1)
                  (svgBackground p1) (tooltipStyle p1) (themeIcon p1)
                  (Some (if theme =? "light" then "Dark" else "Light"))
                  (painted p1), Returned)
      end
  end.

(** [graphData.nodes.find(n => n.id === 'center')], then the colour of
    the node found is set. *)
Fixpoint colorCenter (c : string) (ns : list (Node * option string))
  : list (Node * option string) :=
  match ns with
  | [] => []
  | (n, col) :: rest =>
      if node_id n =? "center" then (n, Some c) :: rest
      else (n, col) :: colorCenter c rest
  end.

(** The [forEach] over the nodes that sets the colour of the items. *)
Definition colorItems (c : string) (ns : list (Node * option string))
  : list (Node * option string) :=
  map (fun nc => if NodeType_eqb (node_type (fst nc)) item
                 then (fst nc, Some c) else nc) ns.

(** [setTheme(theme)]. *)
Definition setTheme (theme : string) (p : Page) : Page * Completion :=
  match storage p with
  | None =>
      (mkPage (Some theme) None (prefersLight p) (globals p) (svgBackground p)
              (tooltipStyle p) (themeIcon p) (themeLabel p) (painted p), Thrown)
  | Some items =>
      let stored := Some (JS.set items "theme" theme) in
      match COLORS theme with
      | None =>
          (mkPage (Some theme) stored (prefersLight p) (globals p)
                  (svgBackground p) (tooltipStyle p) (themeIcon p)
                  (themeLabel p) (painted p), Thrown)
      | Some colors =>
          let p1 :=
            mkPage (Some theme) stored (prefersLight p) colors
                   (option_map (fun _ => p_bg colors) (svgBackground p))
                   (updateTooltipTheme theme) (themeIcon p) (themeLabel p)
                   (painted p) in
          match updateThemeToggle theme p1 with
          | (p2, Thrown) => (p2, Thrown)
          | (p2, Returned) =>
              (mkPage (dataTheme p2) (storage p2) (prefersLight p2) (globals p2)
                      (svgBackground p2) (tooltipStyle p2) (themeIcon p2)
                      (themeLabel p2)
                      (option_map
                         (fun ns => colorItems (p_node colors)
                                      (colorCenter (p_center colors) ns))
                         (painted p2)), Returned)
          end
      end
  end.

(** The colour a node is given when the graph is built (lines 2421,
    2548 and 2580). *)
Definition builtColor (g : Palette) (n : Node) : option string :=
  match node_type n with
  | center => Some (p_center g)
  | category =>
      match node_category n with
      | Some key => configColor key
      | None => None
      end
  | item => Some (p_node g)
  end.

(** What [initGraph] leaves of interest to the theme: the background of
    the new [svg] and the colours of the nodes built. *)
Definition initGraph (doc : Document) (orc : Oracle) (p : Page) : Page :=
  match container doc with
  | None => p
  | Some _ =>
      let ns := nodes (graph (Manual.buildGraphData doc orc)) in
      mkPage (dataTheme p) (storage p) (prefersLight p) (globals p)
             (Some (p_bg (globals p))) (tooltipStyle p) (themeIcon p)
             (themeLabel p)
             (Some (map (fun n => (n, builtColor (globals p) n)) ns))
  end.

(** The page when the script starts: the colours are those of the dark
    theme, no graph yet. *)
Definition scriptStart (attr : option string) (items : Audio.Storage)
  (prefers : bool) (icon : bool) (label : option string) : Page :=
  mkPage attr items prefers dark None
         (mkTooltipStyle "rgba(15, 18, 17, 0.95)" "rgba(34, 39, 38, 0.8)"
                         "#A3AAA7")
         (if icon then Some InitialIcon else None) label None.

(** [setTheme(getTheme())] at the end of the script. *)
Definition load (p : Page) : Page * Completion :=
  match getTheme p with
  | None => (p, Thrown)
  | Some initialTheme => setTheme initialTheme p
  end.

(** The click listener of the [theme-toggle] element (its sound is
    that of [Audio.playClick]). *)
Definition clickToggle (p : Page) : Page * Completion :=
  let currentTheme := JS.orElse (dataTheme p) "dark" in
  let newTheme := if currentTheme =? "dark" then "light" else "dark" in
  setTheme newTheme p.

Inductive ThemeEvent : Type :=
| ToggleClick
| InitGraph (doc : Document) (orc : Oracle).

(** [listening]: the click listener was installed. *)
Definition handleTheme (listening : bool) (e : ThemeEvent) (p : Page) : Page :=
  match e with
  | ToggleClick => if listening then fst (clickToggle p) else p
  | InitGraph doc orc => initGraph doc orc p
  end.

(** The script from its start: the theme is applied, and unless that
    throws the click listener is installed when the page has a
    [theme-toggle] element.  The listener that builds the graph is
    installed before the theme is applied. *)
Definition session (p0 : Page) (toggle : bool) (events : list ThemeEvent)
  : Page :=
  let '(p, k) := load p0 in
  let listening := match k with Returned => toggle | Thrown => false end in
  fold_left (fun q e => handleTheme listening e q) events p.

End Theme.

(** *** Vocabulary of the theme properties *)

(** The value saved under [theme]. *)
Definition storedTheme (items : Audio.Storage) : option string :=
  match items with Some m => JS.get m "theme" | None => None end.

(** The storage is readable and holds nothing, or a theme the page
    writes. *)
Definition pageWritten (items : Audio.Storage) : Prop :=
  items <> None /\
  (storedTheme items = None \/ storedTheme items = Some "dark" \/
   storedTheme items = Some "light").

Definition otherTheme (theme : string) : string :=
  if theme =? "dark" then "light" else "dark".

(** Everything the page shows of the theme agrees with [theme]. *)
Definition themed (theme : string) (p : Theme.Page) : Prop :=
  Theme.dataTheme p = Some theme /\
  storedTheme (Theme.storage p) = Some theme /\
  Theme.COLORS theme = Some (Theme.globals p) /\
  Theme.tooltipStyle p = Theme.updateTooltipTheme theme /\
  Theme.themeIcon p = Some (if theme =? "light" then Theme.Moon else Theme.Sun) /\
  Theme.themeLabel p = Some (if theme =? "light" then "Dark" else "Light") /\
  (forall bg, Theme.svgBackground p = Some bg -> bg = Theme.p_bg (Theme.globals p)) /\
  (forall ns n col, Theme.painted p = Some ns -> In (n, col) ns ->
     col = Theme.builtColor (Theme.globals p) n).

(** The painted nodes start with the centre node, the only one of its
    type, and every node has the colour it is built with under [g]. *)
Definition wellPainted (g : Theme.Palette) (ns : list (Node * option string))
  : Prop :=
  (exists c rest, map fst ns = c :: rest /\ node_id c = "center" /\
     node_type c = center /\ filter (isType center) rest = []) /\
  Forall (fun nc => snd nc = Theme.builtColor g (fst nc)) ns.

(** What the theme code keeps once the theme was applied. *)
Definition themeKept (p : Theme.Page) : Prop :=
  exists theme, (theme = "dark" \/ theme = "light") /\ themed theme p /\
    (forall ns, Theme.painted p = Some ns -> wellPainted (Theme.globals p) ns).

Definition startPage : Theme.Page :=
  Theme.scriptStart None (Some []) true true (Some "Theme").

(* ================================================================= *)
(** * Properties *)

(* ----------------------------------------------------------------- *)
(** ** Lists, maps and strings *)

Lemma mapi_map {A B C} (g : B -> C) (f : nat -> A -> B) l : forall i,
  map g (mapi f i l) = mapi (fun j a => g (f j a)) i l.
Proof. induction l; simpl; intros; [reflexivity | now rewrite IHl]. Qed.

Lemma mapi_ext {A B} (f g : nat -> A -> B) l :
  (forall j a, f j a = g j a) -> forall i, mapi f i l = mapi g i l.
Proof.
  intros H; induction l; simpl; intros; [reflexivity|].
  now rewrite H, IHl.
Qed.

Lemma mapi_mapi {A B C} (g : nat -> B -> C) (f : nat -> A -> B) l : forall i,
  mapi g i (mapi f i l) = mapi (fun j a => g j (f j a)) i l.
Proof. induction l; simpl; intros; [reflexivity | now rewrite IHl]. Qed.

Lemma mapi_const {A B} (f : A -> B) l : forall i,
  mapi (fun _ a => f a) i l = map f l.
Proof. induction l; simpl; intros; [reflexivity | now rewrite IHl]. Qed.

Lemma in_mapi {A B} (f : nat -> A -> B) l b : forall i,
  In b (mapi f i l) ->
  exists j a, nth_error l j = Some a /\ b = f (i + j) a.
Proof.
  induction l as [|a l IH]; simpl; intros i H; [contradiction|].
  destruct H as [H|H].
  - exists 0, a. split; [reflexivity|]. now rewrite Nat.add_0_r.
  - destruct (IH _ H) as (j & a' & Hn & Hb).
    exists (S j), a'. split; [exact Hn|].
    now rewrite Nat.add_succ_r.
Qed.

Lemma get_set_same {V} (m : JS.Map V) k v : JS.get (JS.set m k v) k = Some v.
Proof.
  induction m as [|[k' v'] m IH]; simpl.
  - now rewrite String.eqb_refl.
  - destruct (k' =? k) eqn:E; simpl.
    + now rewrite String.eqb_refl.
    + now rewrite E.
Qed.

Lemma get_set_other {V} (m : JS.Map V) k k' v :
  k <> k' -> JS.get (JS.set m k v) k' = JS.get m k'.
Proof.
  intros Hne. induction m as [|[k0 v0] m IH]; simpl.
  - apply String.eqb_neq in Hne. now rewrite Hne.
  - destruct (k0 =? k) eqn:E; simpl.
    + apply String.eqb_eq in E; subst k0.
      apply String.eqb_neq in Hne. now rewrite Hne.
    + now rewrite IH.
Qed.

Lemma values_set {V} (m : JS.Map V) k v w :
  In w (JS.values (JS.set m k v)) -> w = v \/ In w (JS.values m).
Proof.
  unfold JS.values. induction m as [|[k' v'] m IH]; simpl.
  - intros [H|[]]; now left.
  - destruct (k' =? k); simpl; intros [H|H].
    + now left.
    + right; now right.
    + right; now left.
    + destruct (IH H); [now left | right; now right].
Qed.

Lemma get_in_values {V} (m : JS.Map V) k v :
  JS.get m k = Some v -> In v (JS.values m).
Proof.
  unfold JS.values. induction m as [|[k' v'] m IH]; simpl; [discriminate|].
  destruct (k' =? k); intros H.
  - inversion H; now left.
  - right; now apply IH.
Qed.

Lemma get_in_keys {V} (m : JS.Map V) k :
  In k (JS.keys m) <-> exists v, JS.get m k = Some v.
Proof.
  unfold JS.keys. induction m as [|[k' v'] m IH]; simpl.
  - split; [contradiction | intros [v H]; discriminate].
  - destruct (k' =? k) eqn:E.
    + apply String.eqb_eq in E. split; [eauto | now left].
    + apply String.eqb_neq in E. rewrite <- IH. split; [|tauto].
      intros [H|H]; [contradiction | exact H].
Qed.

Lemma mapValues_set {V W} (f : V -> W) (m : JS.Map V) k v :
  mapValues f (JS.set m k v) = JS.set (mapValues f m) k (f v).
Proof.
  induction m as [|[k' v'] m IH]; simpl; [reflexivity|].
  destruct (k' =? k); simpl; [reflexivity | now rewrite IH].
Qed.

Lemma mapValues_get {V W} (f : V -> W) (m : JS.Map V) k :
  JS.get (mapValues f m) k = option_map f (JS.get m k).
Proof.
  induction m as [|[k' v'] m IH]; simpl; [reflexivity|].
  destruct (k' =? k); simpl; [reflexivity | exact IH].
Qed.

Lemma mapValues_keys {V W} (f : V -> W) (m : JS.Map V) :
  JS.keys (mapValues f m) = JS.keys m.
Proof. unfold JS.keys, mapValues. rewrite map_map. reflexivity. Qed.

Lemma truthy_true s : JS.truthy s = true <-> s <> "".
Proof.
  unfold JS.truthy. rewrite negb_true_iff. apply String.eqb_neq.
Qed.

Lemma orElse_truthy a b :
  JS.truthy b = true -> JS.truthy (JS.orElse a b) = true.
Proof.
  intros Hb. destruct a as [s|]; simpl; [|exact Hb].
  destruct (JS.truthy s) eqn:E; [exact E | exact Hb].
Qed.

Lemma orElse_some_truthy s b : JS.truthy s = true -> JS.orElse (Some s) b = s.
Proof. intros H. simpl. now rewrite H. Qed.

Lemma append_truthy_r a b : JS.truthy b = true -> JS.truthy (a +:+ b) = true.
Proof. destruct a; simpl; [tauto | reflexivity]. Qed.

Lemma derivedId_truthy k l i : JS.truthy (derivedId k l i) = true.
Proof. unfold derivedId. now apply append_truthy_r. Qed.

Lemma itemId_truthy k e i : JS.truthy (itemId k e i) = true.
Proof. apply orElse_truthy, derivedId_truthy. Qed.

Lemma itemId_stamped k e i :
  itemId k (setGraphId e (itemId k e i)) i = itemId k e i.
Proof.
  unfold itemId at 1. simpl graphId. apply orElse_some_truthy, itemId_truthy.
Qed.

(* ----------------------------------------------------------------- *)
(** ** Closed form of the build *)

Lemma forEachItem_spec V orc k x y items : forall i acc,
  let r := forEachItem V orc k x y items i acc in
  b_nodes (fst r) = b_nodes acc ++ itemNodes V orc k x y items i /\
  b_links (fst r)
  = b_links acc ++ map (branchLinkTo k) (itemNodes V orc k x y items i) /\
  b_nodeIndex (fst r)
  = fold_left (indexNode V) (itemNodes V orc k x y items i) (b_nodeIndex acc) /\
  snd r
  = mapi (fun j e => setGraphId e (node_id (collectItemData V k e j))) i items.
Proof.
  unfold itemNodes.
  induction items as [|e items IH]; intros i acc; simpl.
  - now rewrite !app_nil_r.
  - match goal with
    | |- context [forEachItem V orc k x y items (S i) ?a] =>
        specialize (IH (S i) a); destruct (forEachItem V orc k x y items (S i) a)
          as [acc2 rest'] eqn:E
    end.
    simpl in IH |- *. destruct IH as (Hn & Hl & Hi & Hs).
    rewrite Hn, Hl, Hi, Hs. rewrite <- !app_assoc. simpl.
    repeat split; reflexivity.
Qed.

Lemma get_replaceSection_other secs k k' b :
  k <> k' -> JS.get (replaceSection secs k b) k' = JS.get secs k'.
Proof.
  intros Hne. induction secs as [|[k0 b0] secs IH]; simpl; [reflexivity|].
  destruct (k0 =? k) eqn:E; simpl.
  - apply String.eqb_eq in E; subst k0.
    apply String.eqb_neq in Hne. now rewrite Hne.
  - now rewrite IH.
Qed.

Lemma get_replaceSection_same secs k b b0 :
  JS.get secs k = Some b0 -> JS.get (replaceSection secs k b) k = Some b.
Proof.
  induction secs as [|[k0 b1] secs IH]; simpl; [discriminate|].
  destruct (k0 =? k) eqn:E; simpl; rewrite E; [reflexivity | exact IH].
Qed.

Lemma categoryNodes_agree V orc cx cy cats : forall idx d1 d2,
  agreeOn (map fst cats) d1 d2 ->
  categoryNodes V orc cx cy cats idx d1 = categoryNodes V orc cx cy cats idx d2.
Proof.
  induction cats as [|[k c] cats IH]; intros idx d1 d2 H; simpl; [reflexivity|].
  rewrite (H k) by now left.
  rewrite (IH (S idx) d1 d2) by (intros k' Hk'; apply H; now right).
  reflexivity.
Qed.

Lemma categoryLinks_agree V orc cx cy cats : forall idx d1 d2,
  agreeOn (map fst cats) d1 d2 ->
  categoryLinks V orc cx cy cats idx d1 = categoryLinks V orc cx cy cats idx d2.
Proof.
  induction cats as [|[k c] cats IH]; intros idx d1 d2 H; simpl; [reflexivity|].
  rewrite (H k) by now left.
  rewrite (IH (S idx) d1 d2) by (intros k' Hk'; apply H; now right).
  reflexivity.
Qed.

Lemma filter_item_itemNodes V orc k x y items i :
  (forall k e i, node_type (collectItemData V k e i) = item) ->
  filter (isType item) (itemNodes V orc k x y items i)
  = itemNodes V orc k x y items i.
Proof.
  intros Ht. unfold itemNodes. revert i.
  induction items as [|e items IH]; intros i; simpl; [reflexivity|].
  unfold isType at 1. simpl. rewrite Ht. simpl. now rewrite IH.
Qed.

Lemma forEachCategory_spec V orc cx cy cats :
  VariantOk V -> NoDup (map fst cats) ->
  forall idx doc acc,
  let r := forEachCategory V orc cx cy cats idx doc acc in
  b_nodes (fst r) = b_nodes acc ++ categoryNodes V orc cx cy cats idx doc /\
  b_links (fst r) = b_links acc ++ categoryLinks V orc cx cy cats idx doc /\
  b_nodeIndex (fst r)
  = fold_left (indexNode V)
      (filter (isType item) (categoryNodes V orc cx cy cats idx doc))
      (b_nodeIndex acc) /\
  container (snd r) = container doc /\
  (forall k, In k (map fst cats) ->
     querySection (snd r) k = option_map (stampBlock k) (querySection doc k)) /\
  (forall k, ~ In k (map fst cats) ->
     querySection (snd r) k = querySection doc k).
Proof.
  intros Hok. induction cats as [|[k c] cats IH]; intros Hnd idx doc acc; simpl.
  - rewrite !app_nil_r. repeat split; try reflexivity. intros k [].
  - inversion Hnd as [|? ? Hnotin Hnd']; subst.
    destruct (querySection doc k) as [block|] eqn:Hq.
    + pose proof (forEachItem_spec V orc k
                    (cx + cosAngle orc idx * CATEGORY_RADIUS)%Q
                    (cy + sinAngle orc idx * CATEGORY_RADIUS)%Q
                    (blockItems block) 0) as Hitems.
      match goal with
      | |- context [forEachItem V orc k ?x ?y (blockItems block) 0 ?a] =>
          specialize (Hitems a);
          destruct (forEachItem V orc k x y (blockItems block) 0 a)
            as [acc2 items'] eqn:E
      end.
      simpl in Hitems. destruct Hitems as (Hn & Hl & Hi & Hs).
      match goal with
      | |- context [forEachCategory V orc cx cy cats (S idx) ?d acc2] =>
          specialize (IH Hnd' (S idx) d acc2); set (doc' := d) in *
      end.
      simpl in IH. destruct IH as (IHn & IHl & IHi & IHc & IHin & IHout).
      assert (Hagree : agreeOn (map fst cats) doc' doc).
      { intros k' Hk'. unfold querySection, doc'. simpl.
        apply get_replaceSection_other. intros ->. contradiction. }
      rewrite IHn, IHl, IHi, IHc, Hn, Hl, Hi.
      rewrite (categoryNodes_agree V orc cx cy cats (S idx) doc' doc Hagree).
      rewrite (categoryLinks_agree V orc cx cy cats (S idx) doc' doc Hagree).
      unfold seedX, seedY. cbn [filter isType categoryNode node_type NodeType_eqb].
      rewrite filter_app, filter_item_itemNodes by apply (collect_type V Hok).
      rewrite fold_left_app. rewrite <- !app_assoc. simpl.
      repeat split; try reflexivity.
      * intros k' [<-|Hk'].
        -- rewrite IHout by exact Hnotin.
           unfold querySection, doc'; simpl.
           unfold querySection in Hq.
           rewrite (get_replaceSection_same _ _ _ _ Hq). rewrite Hq. simpl.
           unfold stampBlock, stampItems. rewrite Hs. f_equal. f_equal.
           apply mapi_ext. intros. now rewrite (collect_id V Hok).
        -- rewrite IHin by exact Hk'. now rewrite (Hagree k' Hk').
      * intros k' Hk'. rewrite IHout by tauto.
        unfold querySection, doc'; simpl. apply get_replaceSection_other.
        intros ->. apply Hk'. now left.
    + specialize (IH Hnd' (S idx) doc acc). simpl in IH.
      destruct IH as (IHn & IHl & IHi & IHc & IHin & IHout).
      repeat split; try assumption.
      * intros k' [<-|Hk'].
        -- rewrite IHout by exact Hnotin. now rewrite Hq.
        -- now apply IHin.
      * intros k' Hk'. apply IHout. tauto.
Qed.

Lemma buildGraphData_spec V doc orc :
  VariantOk V ->
  let r := buildGraphData V doc orc in
  let cx := fst (centerOf (container doc)) in
  let cy := snd (centerOf (container doc)) in
  let cats := categoryNodes V orc cx cy (sectionConfig V) 0 doc in
  nodes (graph r) = centerNode V cx cy :: cats /\
  links (graph r)
  = categoryLinks V orc cx cy (sectionConfig V) 0 doc
    ++ referenceLinks V (nodes (graph r)) (nodeIndex r) /\
  nodeIndex r = fold_left (indexNode V) (filter (isType item) cats) [] /\
  container (document' r) = container doc /\
  (forall k, In k (map fst (sectionConfig V)) ->
     querySection (document' r) k
     = option_map (stampBlock k) (querySection doc k)) /\
  (forall k, ~ In k (map fst (sectionConfig V)) ->
     querySection (document' r) k = querySection doc k).
Proof.
  intros Hok. unfold buildGraphData.
  destruct (centerOf (container doc)) as [cx cy] eqn:Hc. simpl fst; simpl snd.
  pose proof (forEachCategory_spec V orc cx cy (sectionConfig V) Hok
                (config_keys_distinct V Hok) 0 doc
                (mkBuild [centerNode V cx cy] [] [] [])) as H.
  destruct (forEachCategory V orc cx cy (sectionConfig V) 0 doc
              (mkBuild [centerNode V cx cy] [] [] [])) as [acc doc'].
  simpl in H |- *. destruct H as (Hn & Hl & Hi & Hcont & Hin & Hout).
  rewrite Hn, Hl, Hi. repeat split; assumption.
Qed.

Lemma in_categoryNodes V orc cx cy cats n : forall idx doc,
  In n (categoryNodes V orc cx cy cats idx doc) ->
  exists k c block j,
    In (k, c) cats /\ querySection doc k = Some block /\
    (n = categoryNode k (blockLabel k block) (shape c)
                      (seedX orc cx j) (seedY orc cy j)
     \/ In n (itemNodes V orc k (seedX orc cx j) (seedY orc cy j)
                        (blockItems block) 0)) /\
    In (categoryNode k (blockLabel k block) (shape c)
                     (seedX orc cx j) (seedY orc cy j))
       (categoryNodes V orc cx cy cats idx doc).
Proof.
  induction cats as [|[k c] cats IH]; intros idx doc H; simpl in H;
    [contradiction|].
  simpl. destruct (querySection doc k) as [block|] eqn:Hq.
  - destruct H as [H|H]; [|apply in_app_or in H; destruct H as [H|H]].
    + exists k, c, block, idx. repeat split; auto; now left.
    + exists k, c, block, idx. repeat split; auto; now left.
    + destruct (IH _ _ H) as (k' & c' & b' & j & Hin & Hq' & Hcase & Hcat).
      exists k', c', b', j. repeat split; auto.
      right. apply in_or_app. now right.
  - destruct (IH _ _ H) as (k' & c' & b' & j & Hin & Hq' & Hcase & Hcat).
    exists k', c', b', j. repeat split; auto.
Qed.

Lemma in_itemNodes V orc k x y items n : forall i,
  In n (itemNodes V orc k x y items i) ->
  exists j e, nth_error items j = Some e /\
              n = itemNode V orc k x y (i + j) e.
Proof. intros i. apply in_mapi. Qed.

Lemma itemNode_type V orc k x y i e :
  VariantOk V -> node_type (itemNode V orc k x y i e) = item.
Proof. intros Hok. unfold itemNode; simpl. apply (collect_type V Hok). Qed.

Lemma itemNode_category V orc k x y i e :
  VariantOk V -> node_category (itemNode V orc k x y i e) = Some k.
Proof. intros Hok. unfold itemNode; simpl. apply (collect_category V Hok). Qed.

Lemma itemNode_id V orc k x y i e :
  VariantOk V -> node_id (itemNode V orc k x y i e) = itemId k e i.
Proof. intros Hok. unfold itemNode; simpl. apply (collect_id V Hok). Qed.

Lemma categoryNodes_not_center V orc cx cy cats idx doc :
  VariantOk V ->
  filter (isType center) (categoryNodes V orc cx cy cats idx doc) = [].
Proof.
  intros Hok.
  assert (H : forall n, In n (categoryNodes V orc cx cy cats idx doc) ->
                        isType center n = false).
  { intros n Hn.
    destruct (in_categoryNodes _ _ _ _ _ _ _ _ Hn)
      as (k & c & b & j & _ & _ & [->|Hi] & _); [reflexivity|].
    destruct (in_itemNodes _ _ _ _ _ _ _ _ Hi) as (j' & e & _ & ->).
    unfold isType. now rewrite itemNode_type. }
  induction (categoryNodes V orc cx cy cats idx doc) as [|n l IH];
    simpl; [reflexivity|].
  rewrite (H n) by now left. apply IH. intros m Hm. apply H. now right.
Qed.

Lemma in_categoryLinks V orc cx cy cats l : forall idx doc,
  In l (categoryLinks V orc cx cy cats idx doc) ->
  exists k c block j,
    In (k, c) cats /\ querySection doc k = Some block /\
    In (categoryNode k (blockLabel k block) (shape c)
                     (seedX orc cx j) (seedY orc cy j))
       (categoryNodes V orc cx cy cats idx doc) /\
    (l = newLink "center" ("cat-" +:+ k) spine \/
     exists n, In n (categoryNodes V orc cx cy cats idx doc) /\
               In n (itemNodes V orc k (seedX orc cx j) (seedY orc cy j)
                               (blockItems block) 0) /\
               l = branchLinkTo k n).
Proof.
  induction cats as [|[k c] cats IH]; intros idx doc H; simpl in H;
    [contradiction|].
  simpl. destruct (querySection doc k) as [block|] eqn:Hq.
  - destruct H as [H|H]; [|apply in_app_or in H; destruct H as [H|H]].
    + exists k, c, block, idx. repeat split; auto; now left.
    + apply in_map_iff in H. destruct H as (n & <- & Hn).
      exists k, c, block, idx. repeat split; auto; [now left|].
      right. exists n. repeat split; auto.
      right. apply in_or_app. now left.
    + destruct (IH _ _ H) as (k' & c' & b' & j & Hin & Hq' & Hcat & Hcase).
      exists k', c', b', j. repeat split; auto.
      * right. apply in_or_app. now right.
      * destruct Hcase as [->|(n & Hn & Hn' & ->)]; [now left|].
        right. exists n. repeat split; auto.
        right. apply in_or_app. now right.
  - destruct (IH _ _ H) as (k' & c' & b' & j & Hin & Hq' & Hcat & Hcase).
    exists k', c', b', j. repeat split; auto.
Qed.

Lemma fold_indexNode_values V (Hok : VariantOk V) l : forall m v,
  In v (JS.values (fold_left (indexNode V) l m)) ->
  In v l \/ In v (JS.values m).
Proof.
  induction l as [|n l IH]; intros m v H; simpl in *; [now right|].
  destruct (IH _ _ H) as [Hl|Hm]; [left; now right|].
  destruct (index_values V Hok _ _ _ Hm) as [->|Hm']; [left; now left|].
  now right.
Qed.

(** Well-formedness of every graph the builder returns. *)
Lemma built_graphInvariant V doc orc :
  VariantOk V -> graphInvariant (graph (buildGraphData V doc orc)).
Proof.
  intros Hok.
  destruct (buildGraphData_spec V doc orc Hok)
    as (Hn & Hl & Hi & _).
  set (r := buildGraphData V doc orc) in *.
  set (cx := fst (centerOf (container doc))) in *.
  set (cy := snd (centerOf (container doc))) in *.
  set (cats := categoryNodes V orc cx cy (sectionConfig V) 0 doc) in *.
  unfold graphInvariant, hasNodeId. rewrite Hn.
  split; [|split].
  - simpl. unfold cats. now rewrite categoryNodes_not_center.
  - intros n [<-|Hin] Hty; [discriminate|].
    destruct (in_categoryNodes _ _ _ _ _ _ _ _ Hin)
      as (k & c & b & j & _ & _ & [->|Hitem] & Hcat); [discriminate|].
    destruct (in_itemNodes _ _ _ _ _ _ _ _ Hitem) as (j' & e & _ & ->).
    eexists. split; [right; exact Hcat|]. split; [reflexivity|].
    now rewrite itemNode_category.
  - intros l H. rewrite Hl in H. apply in_app_or in H. destruct H as [H|H].
    + destruct (in_categoryLinks _ _ _ _ _ _ _ _ H)
        as (k & c & b & j & _ & _ & Hcat & [->|(n & Hn' & _ & ->)]).
      * split.
        -- exists (centerNode V cx cy). split; [now left | reflexivity].
        -- eexists. split; [right; exact Hcat | reflexivity].
      * split.
        -- eexists. split; [right; exact Hcat | reflexivity].
        -- exists n. split; [right; exact Hn' | reflexivity].
    + destruct (refs_ends V Hok _ _ _ H) as (_ & a & b & Ha & Hb & -> & ->).
      rewrite Hn in Ha. rewrite Hi in Hb.
      destruct (fold_indexNode_values V Hok _ _ _ Hb) as [Hb'|[]].
      apply filter_In in Hb'. split.
      * exists a. split; [exact Ha | reflexivity].
      * exists b. split; [right; tauto | reflexivity].
Qed.

(* ----------------------------------------------------------------- *)
(** ** Both revisions fit the generic build *)

Lemma flat_map_ext_in {A B} (f g : A -> list B) l :
  (forall a, In a l -> f a = g a) -> flat_map f l = flat_map g l.
Proof.
  induction l as [|a l IH]; simpl; intros H; [reflexivity|].
  rewrite (H a) by now left. rewrite IH; [reflexivity|].
  intros; apply H; now right.
Qed.

Lemma flat_map_map {A B C} (f : A -> B) (g : B -> list C) l :
  flat_map g (map f l) = flat_map (fun a => g (f a)) l.
Proof. induction l; simpl; [reflexivity | now rewrite IHl]. Qed.

Lemma Auto_linksOfNode_unplaced m ks n :
  Auto.linksOfNode (mapValues unplaced m) ks (unplaced n)
  = Auto.linksOfNode m ks n.
Proof.
  unfold Auto.linksOfNode. simpl.
  destruct (node_type n); try reflexivity.
  destruct (node_fullText n) as [t|]; [|reflexivity].
  destruct (JS.truthy t); [|reflexivity].
  apply flat_map_ext_in. intros r _. rewrite mapValues_get.
  destruct (JS.get m r) as [tn|]; reflexivity.
Qed.

Lemma Auto_linksOfNode_ends m ks n l :
  In l (Auto.linksOfNode m ks n) ->
  link_type l = reference /\
  exists b, In b (JS.values m) /\
            link_source l = EndId (node_id n) /\
            link_target l = EndId (node_id b).
Proof.
  unfold Auto.linksOfNode.
  destruct (node_type n); try contradiction.
  destruct (node_fullText n) as [t|]; [|contradiction].
  destruct (JS.truthy t); [|contradiction].
  intros H. apply in_flat_map in H. destruct H as (r & _ & H).
  destruct (JS.get m r) as [tn|] eqn:G; [|contradiction].
  destruct (negb (node_id tn =? node_id n)
            && negb (optString_eqb (node_category tn) (node_category n)));
    [|contradiction].
  destruct H as [<-|[]]. split; [reflexivity|].
  exists tn. split; [now apply get_in_values with r | split; reflexivity].
Qed.

Lemma Auto_ok : VariantOk Auto.variant.
Proof.
  constructor; simpl.
  - repeat constructor; simpl; intuition discriminate.
  - reflexivity.
  - reflexivity.
  - reflexivity.
  - reflexivity.
  - intros k e i. unfold Auto.collectItemData.
    rewrite itemId_stamped. reflexivity.
  - intros m n v. unfold Auto.indexNode.
    destruct (node_referenceId n) as [r|]; [|now right].
    destruct (JS.truthy r); [apply values_set | now right].
  - intros m n. unfold Auto.indexNode. simpl.
    destruct (node_referenceId n) as [r|]; [|reflexivity].
    destruct (JS.truthy r); [apply mapValues_set | reflexivity].
  - intros ns m. unfold Auto.referenceLinks.
    rewrite mapValues_keys, flat_map_map.
    apply flat_map_ext_in. intros n _. apply Auto_linksOfNode_unplaced.
  - intros ns m l H. unfold Auto.referenceLinks in H.
    apply in_flat_map in H. destruct H as (n & Hn & H).
    destruct (Auto_linksOfNode_ends _ _ _ _ H) as (Ht & b & Hb & Hs & Htg).
    split; [exact Ht|]. exists n, b. auto.
Qed.

Lemma Manual_linksOfNode_unplaced m n :
  Manual.linksOfNode (mapValues unplaced m) (unplaced n)
  = Manual.linksOfNode m n.
Proof.
  unfold Manual.linksOfNode. simpl.
  destruct (node_type n); try reflexivity.
  destruct (node_linksTo n) as [t|]; [|reflexivity].
  apply flat_map_ext_in. intros r _. rewrite mapValues_get.
  destruct (JS.get m r) as [tn|]; reflexivity.
Qed.

Lemma Manual_linksOfNode_ends m n l :
  In l (Manual.linksOfNode m n) ->
  link_type l = reference /\
  exists b, In b (JS.values m) /\
            link_source l = EndId (node_id n) /\
            link_target l = EndId (node_id b).
Proof.
  unfold Manual.linksOfNode.
  destruct (node_type n); try contradiction.
  destruct (node_linksTo n) as [t|]; [|contradiction].
  intros H. apply in_flat_map in H. destruct H as (r & _ & H).
  destruct (JS.get m r) as [tn|] eqn:G; [|contradiction].
  destruct (negb (node_id tn =? node_id n)); [|contradiction].
  destruct H as [<-|[]]. split; [reflexivity|].
  exists tn. split; [now apply get_in_values with r | split; reflexivity].
Qed.

Lemma Manual_ok : VariantOk Manual.variant.
Proof.
  constructor; simpl.
  - repeat constructor; simpl; intuition discriminate.
  - reflexivity.
  - reflexivity.
  - reflexivity.
  - reflexivity.
  - intros k e i. unfold Manual.collectItemData.
    rewrite itemId_stamped. reflexivity.
  - intros m n v. unfold Manual.indexNode. apply values_set.
  - intros m n. unfold Manual.indexNode. simpl. apply mapValues_set.
  - intros ns m. unfold Manual.referenceLinks.
    rewrite flat_map_map.
    apply flat_map_ext_in. intros n _. apply Manual_linksOfNode_unplaced.
  - intros ns m l H. unfold Manual.referenceLinks in H.
    apply in_flat_map in H. destruct H as (n & Hn & H).
    destruct (Manual_linksOfNode_ends _ _ _ H) as (Ht & b & Hb & Hs & Htg).
    split; [exact Ht|]. exists n, b. auto.
Qed.

(** C1. Every graph [buildGraphData] returns, in either revision, has
    exactly one node of type center; for each item node a category node
    with the item's category key; and both ends of every link (spine,
    branch or reference) are identities of nodes of the graph. *)
Theorem C1_built_graph_well_formed :
  forall (doc : Document) (orc : Oracle),
    graphInvariant (graph (Auto.buildGraphData doc orc)) /\
    graphInvariant (graph (Manual.buildGraphData doc orc)).
Proof.
  intros doc orc. split.
  - apply built_graphInvariant, Auto_ok.
  - apply built_graphInvariant, Manual_ok.
Qed.

(* ----------------------------------------------------------------- *)
(** ** Rebuilding from the page a build leaves behind *)

Lemma unplaced_itemNode_stamped V orc1 orc2 k x1 y1 x2 y2 i e :
  VariantOk V ->
  unplaced (itemNode V orc2 k x2 y2 i (setGraphId e (itemId k e i)))
  = unplaced (itemNode V orc1 k x1 y1 i e).
Proof.
  intros Hok. unfold itemNode, unplaced, placeItem; simpl.
  now rewrite (collect_stamped V Hok).
Qed.

Lemma unplaced_itemNodes_stamped V orc1 orc2 k x1 y1 x2 y2 items :
  VariantOk V ->
  map unplaced (itemNodes V orc2 k x2 y2 (stampItems k items) 0)
  = map unplaced (itemNodes V orc1 k x1 y1 items 0).
Proof.
  intros Hok. unfold itemNodes, stampItems.
  rewrite mapi_mapi, !mapi_map. apply mapi_ext. intros j e.
  now apply unplaced_itemNode_stamped.
Qed.

Lemma branchLinkTo_unplaced k l :
  map (branchLinkTo k) l = map (branchLinkTo k) (map unplaced l).
Proof. rewrite map_map. reflexivity. Qed.

Lemma categoryNodes_stamped V orc1 orc2 cx cy cats (Hok : VariantOk V) :
  forall idx doc doc',
  (forall k, In k (map fst cats) ->
     querySection doc' k = option_map (stampBlock k) (querySection doc k)) ->
  map unplaced (categoryNodes V orc2 cx cy cats idx doc')
  = map unplaced (categoryNodes V orc1 cx cy cats idx doc) /\
  categoryLinks V orc2 cx cy cats idx doc'
  = categoryLinks V orc1 cx cy cats idx doc.
Proof.
  induction cats as [|[k c] cats IH]; intros idx doc doc' H; simpl;
    [split; reflexivity|].
  rewrite (H k) by now left.
  destruct (IH (S idx) doc doc') as (IHn & IHl);
    [intros k' Hk'; apply H; now right|].
  destruct (querySection doc k) as [block|]; simpl; [|now split].
  rewrite !map_app, IHn, IHl.
  rewrite (unplaced_itemNodes_stamped V orc1 orc2 k
             (seedX orc1 cx idx) (seedY orc1 cy idx)
             (seedX orc2 cx idx) (seedY orc2 cy idx) _ Hok).
  split; [reflexivity|].
  rewrite (branchLinkTo_unplaced k (itemNodes V orc2 _ _ _ _ _)).
  rewrite (unplaced_itemNodes_stamped V orc1 orc2 k
             (seedX orc1 cx idx) (seedY orc1 cy idx)
             (seedX orc2 cx idx) (seedY orc2 cy idx) _ Hok).
  rewrite <- branchLinkTo_unplaced. reflexivity.
Qed.

Lemma filter_item_unplaced l :
  map unplaced (filter (isType item) l) = filter (isType item) (map unplaced l).
Proof.
  induction l as [|n l IH]; simpl; [reflexivity|].
  change (isType item (unplaced n)) with (isType item n).
  destruct (isType item n); simpl; now rewrite IH.
Qed.

Lemma fold_indexNode_unplaced V (Hok : VariantOk V) l : forall m,
  mapValues unplaced (fold_left (indexNode V) l m)
  = fold_left (indexNode V) (map unplaced l) (mapValues unplaced m).
Proof.
  induction l as [|n l IH]; intros m; simpl; [reflexivity|].
  now rewrite IH, (index_unplaced V Hok).
Qed.

(** Two builds, the second over the page the first one left (identities
    written back), with seeds of their own: same nodes up to position,
    same links. *)
Lemma rebuild_same V doc orc1 orc2 :
  VariantOk V ->
  let r1 := buildGraphData V doc orc1 in
  let r2 := buildGraphData V (document' r1) orc2 in
  map unplaced (nodes (graph r2)) = map unplaced (nodes (graph r1)) /\
  links (graph r2) = links (graph r1).
Proof.
  intros Hok r1 r2.
  destruct (buildGraphData_spec V doc orc1 Hok)
    as (Hn1 & Hl1 & Hi1 & Hc1 & Hin1 & _).
  destruct (buildGraphData_spec V (document' r1) orc2 Hok)
    as (Hn2 & Hl2 & Hi2 & _).
  fold r1 in Hn1, Hl1, Hi1, Hc1, Hin1. fold r2 in Hn2, Hl2, Hi2.
  rewrite Hc1 in Hn2, Hl2, Hi2.
  set (cx := fst (centerOf (container doc))) in *.
  set (cy := snd (centerOf (container doc))) in *.
  destruct (categoryNodes_stamped V orc1 orc2 cx cy (sectionConfig V) Hok
              0 doc (document' r1) Hin1) as (Hcn & Hcl).
  assert (Hnodes : map unplaced (nodes (graph r2))
                   = map unplaced (nodes (graph r1))).
  { rewrite Hn1, Hn2. simpl. now rewrite Hcn. }
  split; [exact Hnodes|].
  rewrite Hl1, Hl2, Hcl. f_equal.
  rewrite <- (refs_unplaced V Hok (nodes (graph r2))).
  rewrite <- (refs_unplaced V Hok (nodes (graph r1))).
  rewrite Hnodes. f_equal.
  rewrite Hi1, Hi2.
  rewrite (fold_indexNode_unplaced V Hok
             (filter (isType item)
                (categoryNodes V orc2 cx cy (sectionConfig V) 0 (document' r1)))).
  rewrite (fold_indexNode_unplaced V Hok
             (filter (isType item)
                (categoryNodes V orc1 cx cy (sectionConfig V) 0 doc))).
  rewrite !filter_item_unplaced. now rewrite Hcn.
Qed.

Lemma categoryNodes_seeds V orc1 orc2 cx cy cats : forall idx doc,
  map unplaced (categoryNodes V orc2 cx cy cats idx doc)
  = map unplaced (categoryNodes V orc1 cx cy cats idx doc) /\
  categoryLinks V orc2 cx cy cats idx doc
  = categoryLinks V orc1 cx cy cats idx doc.
Proof.
  induction cats as [|[k c] cats IH]; intros idx doc; simpl;
    [split; reflexivity|].
  destruct (IH (S idx) doc) as (IHn & IHl).
  destruct (querySection doc k) as [block|]; simpl; [|now split].
  assert (Hitems :
    map unplaced (itemNodes V orc2 k (seedX orc2 cx idx) (seedY orc2 cy idx)
                            (blockItems block) 0)
    = map unplaced (itemNodes V orc1 k (seedX orc1 cx idx) (seedY orc1 cy idx)
                              (blockItems block) 0)).
  { unfold itemNodes. rewrite !mapi_map. apply mapi_ext. reflexivity. }
  rewrite !map_app, IHn, IHl, Hitems. split; [reflexivity|].
  rewrite (branchLinkTo_unplaced k (itemNodes V orc2 _ _ _ _ _)), Hitems.
  rewrite <- branchLinkTo_unplaced. reflexivity.
Qed.

(** Two builds over the same page with seeds of their own. *)
Lemma build_seed_independent V doc orc1 orc2 :
  VariantOk V ->
  let r1 := buildGraphData V doc orc1 in
  let r2 := buildGraphData V doc orc2 in
  map unplaced (nodes (graph r2)) = map unplaced (nodes (graph r1)) /\
  links (graph r2) = links (graph r1).
Proof.
  intros Hok r1 r2.
  destruct (buildGraphData_spec V doc orc1 Hok) as (Hn1 & Hl1 & Hi1 & _).
  destruct (buildGraphData_spec V doc orc2 Hok) as (Hn2 & Hl2 & Hi2 & _).
  fold r1 in Hn1, Hl1, Hi1. fold r2 in Hn2, Hl2, Hi2.
  set (cx := fst (centerOf (container doc))) in *.
  set (cy := snd (centerOf (container doc))) in *.
  destruct (categoryNodes_seeds V orc1 orc2 cx cy (sectionConfig V) 0 doc)
    as (Hcn & Hcl).
  assert (Hnodes : map unplaced (nodes (graph r2))
                   = map unplaced (nodes (graph r1))).
  { rewrite Hn1, Hn2. simpl. now rewrite Hcn. }
  split; [exact Hnodes|].
  rewrite Hl1, Hl2, Hcl. f_equal.
  rewrite <- (refs_unplaced V Hok (nodes (graph r2))).
  rewrite <- (refs_unplaced V Hok (nodes (graph r1))).
  rewrite Hnodes. f_equal.
  rewrite Hi1, Hi2.
  rewrite (fold_indexNode_unplaced V Hok
             (filter (isType item)
                (categoryNodes V orc2 cx cy (sectionConfig V) 0 doc))).
  rewrite (fold_indexNode_unplaced V Hok
             (filter (isType item)
                (categoryNodes V orc1 cx cy (sectionConfig V) 0 doc))).
  rewrite !filter_item_unplaced. now rewrite Hcn.
Qed.

Lemma unplaced_sameIdentities g1 g2 :
  map unplaced (nodes g2) = map unplaced (nodes g1) ->
  links g2 = links g1 ->
  sameIdentities g1 g2.
Proof.
  intros Hn Hl. unfold sameIdentities, nodeIds. rewrite Hl. split; [|reflexivity].
  assert (H : forall l, map node_id l = map node_id (map unplaced l))
    by (intros l; rewrite map_map; reflexivity).
  rewrite (H (nodes g1)), (H (nodes g2)), Hn. reflexivity.
Qed.

Lemma built_identitiesDerived V doc orc :
  VariantOk V -> identitiesDerived doc (graph (buildGraphData V doc orc)).
Proof.
  intros Hok n Hin.
  destruct (buildGraphData_spec V doc orc Hok) as (Hn & _).
  rewrite Hn in Hin. destruct Hin as [<-|Hin]; [reflexivity|].
  destruct (in_categoryNodes _ _ _ _ _ _ _ _ Hin)
    as (k & c & b & j & _ & Hq & [->|Hitem] & _).
  - simpl. exists k. split; reflexivity.
  - destruct (in_itemNodes _ _ _ _ _ _ _ _ Hitem) as (j' & e & Hnth & ->).
    rewrite itemNode_type by exact Hok.
    exists k, b, j', e. simpl in *.
    rewrite (collect_category V Hok), (collect_label V Hok), (collect_id V Hok).
    repeat split; try assumption.
Qed.

(** C6. Rebuilding the graph from unchanged page content gives the same
    node identities and the same (source, target, kind) link triples:
    whether the second build reads the page as the first build left it
    (identities written back into [data-graph-id]) or the page as it
    was, and whatever the random seeds.  Each item identity is the
    explicit [data-graph-id] when the block supplies a non-empty one, and
    otherwise is computed from category key, slug of the label and
    positional index; center and category identities are fixed by the
    kind and the category key. *)
Theorem C6_rebuild_same_identities :
  forall (doc : Document) (orc1 orc2 : Oracle),
    (let r1 := Auto.buildGraphData doc orc1 in
     sameIdentities (graph r1)
                    (graph (Auto.buildGraphData (document' r1) orc2)) /\
     sameIdentities (graph r1) (graph (Auto.buildGraphData doc orc2)) /\
     identitiesDerived doc (graph r1)) /\
    (let r1 := Manual.buildGraphData doc orc1 in
     sameIdentities (graph r1)
                    (graph (Manual.buildGraphData (document' r1) orc2)) /\
     sameIdentities (graph r1) (graph (Manual.buildGraphData doc orc2)) /\
     identitiesDerived doc (graph r1)).
Proof.
  intros doc orc1 orc2. split; intros r1; (split; [|split]).
  - apply unplaced_sameIdentities; apply (rebuild_same _ doc orc1 orc2 Auto_ok).
  - apply unplaced_sameIdentities;
      apply (build_seed_independent _ doc orc1 orc2 Auto_ok).
  - apply built_identitiesDerived, Auto_ok.
  - apply unplaced_sameIdentities;
      apply (rebuild_same _ doc orc1 orc2 Manual_ok).
  - apply unplaced_sameIdentities;
      apply (build_seed_independent _ doc orc1 orc2 Manual_ok).
  - apply built_identitiesDerived, Manual_ok.
Qed.

(* ----------------------------------------------------------------- *)
(** ** Distinct identities *)

















(* ----------------------------------------------------------------- *)
(** ** The word-boundary test finds whole words *)

Lemma toLowerCase_append a b :
  JS.toLowerCase (a +:+ b) = JS.toLowerCase a +:+ JS.toLowerCase b.
Proof. induction a; simpl; [reflexivity | now rewrite IHa]. Qed.

Lemma lastCharOr_append prev a b :
  lastCharOr prev (a +:+ b) = lastCharOr (lastCharOr prev a) b.
Proof. revert prev; induction a; simpl; intros; [reflexivity | apply IHa]. Qed.

Lemma matchHere_spec tok : forall text prev last rest,
  JS.matchHere tok text prev = Some (last, rest) <->
  exists mid, text = mid +:+ rest /\
              JS.toLowerCase mid = JS.toLowerCase tok /\
              last = lastCharOr prev mid.
Proof.
  induction tok as [|t tok IH]; intros text prev last rest; simpl.
  - split.
    + intros H. inversion H; subst. exists "". auto.
    + intros ([|c mid] & -> & Hl & ->); [reflexivity | discriminate].
  - destruct text as [|c text].
    + split; [discriminate|].
      intros ([|c mid] & Ht & Hl & _); discriminate.
    + destruct (Ascii.eqb_spec (JS.toLowerChar t) (JS.toLowerChar c)) as [E|E].
      * rewrite IH. split.
        -- intros (mid & -> & Hl & ->). exists (String c mid).
           simpl. rewrite Hl, E. auto.
        -- intros ([|c' mid] & Ht & Hl & ->); [discriminate|].
           simpl in Ht, Hl. inversion Ht; inversion Hl; subst.
           exists mid. auto.
      * split; [discriminate|].
        intros ([|c' mid] & Ht & Hl & _); [discriminate|].
        simpl in Ht, Hl. inversion Ht; inversion Hl; subst. congruence.
Qed.

Lemma scanFrom_spec tok text : forall prev,
  JS.scanFrom tok text prev = true <->
  exists pre mid post,
    text = pre +:+ mid +:+ post /\
    JS.toLowerCase mid = JS.toLowerCase tok /\
    JS.boundary (lastCharOr prev pre) (JS.head (mid +:+ post)) = true /\
    JS.boundary (lastCharOr (lastCharOr prev pre) mid) (JS.head post) = true.
Proof.
  assert (Hat : forall text prev,
    JS.matchAt tok text prev = true <->
    exists mid post,
      text = mid +:+ post /\
      JS.toLowerCase mid = JS.toLowerCase tok /\
      JS.boundary prev (JS.head (mid +:+ post)) = true /\
      JS.boundary (lastCharOr prev mid) (JS.head post) = true).
  { intros tx prev. unfold JS.matchAt. rewrite andb_true_iff. split.
    - intros [Hb H].
      destruct (JS.matchHere tok tx prev) as [[last rest]|] eqn:E;
        [|discriminate].
      apply matchHere_spec in E. destruct E as (mid & -> & Hl & ->).
      exists mid, rest. auto.
    - intros (mid & post & -> & Hl & Hb1 & Hb2). split; [exact Hb1|].
      assert (E : JS.matchHere tok (mid +:+ post) prev
                  = Some (lastCharOr prev mid, post))
        by (apply matchHere_spec; exists mid; auto).
      now rewrite E. }
  induction text as [|c text IH]; intros prev; simpl; rewrite orb_true_iff.
  - rewrite Hat. split.
    + intros [(mid & post & Ht & Hl & Hb1 & Hb2)|H]; [|discriminate].
      exists "", mid, post. auto.
    + intros ([|c pre] & mid & post & Ht & Hl & Hb1 & Hb2); [|discriminate].
      left. exists mid, post. auto.
  - rewrite Hat, IH. split.
    + intros [(mid & post & Ht & Hl & Hb1 & Hb2)|
              (pre & mid & post & -> & Hl & Hb1 & Hb2)].
      * exists "", mid, post. auto.
      * exists (String c pre), mid, post. auto.
    + intros ([|c' pre] & mid & post & Ht & Hl & Hb1 & Hb2).
      * left. exists mid, post. auto.
      * simpl in Ht. inversion Ht; subst. right.
        exists pre, mid, post. auto.
Qed.

Lemma wordRegexTest_wholeWord tok text :
  JS.wordRegexTest tok text = true <-> wholeWordIn tok text.
Proof. unfold JS.wordRegexTest, wholeWordIn. apply scanFrom_spec. Qed.

(* ----------------------------------------------------------------- *)
(** ** Reference links of the two revisions *)

Lemma includes_In arr k : JS.includes arr k = true <-> In k arr.
Proof.
  unfold JS.includes. rewrite existsb_exists. split.
  - intros (x & Hx & E). apply String.eqb_eq in E. now subst.
  - intros H. exists k. split; [exact H | apply String.eqb_refl].
Qed.

Lemma setFrom_In xs x : In x (JS.setFrom xs) <-> In x xs.
Proof.
  unfold JS.setFrom.
  assert (H : forall acc,
    In x (fold_left (fun acc x => if JS.includes acc x then acc else acc ++ [x])
                    xs acc) <-> In x acc \/ In x xs).
  { induction xs as [|y xs IH]; intros acc; simpl; [tauto|].
    rewrite IH. destruct (JS.includes acc y) eqn:E.
    - apply includes_In in E. split; [tauto|].
      intros [H|[->|H]]; tauto.
    - rewrite in_app_iff. simpl. tauto. }
  rewrite H. simpl. tauto.
Qed.

Lemma findReferences_In text ks r :
  In r (Auto.findReferences text ks) <->
  In r ks /\ 3 <= String.length r /\
  JS.wordRegexTest r (JS.toLowerCase text) = true.
Proof.
  unfold Auto.findReferences. rewrite setFrom_In, filter_In.
  rewrite andb_true_iff, negb_true_iff, Nat.ltb_ge. tauto.
Qed.

Lemma optString_eqb_eq a b : optString_eqb a b = true <-> a = b.
Proof.
  destruct a, b; simpl; try (split; congruence).
  rewrite String.eqb_eq. split; congruence.
Qed.

Lemma optString_eqb_neq a b : optString_eqb a b = false <-> a <> b.
Proof.
  rewrite <- optString_eqb_eq. destruct (optString_eqb a b); split;
    congruence.
Qed.

Lemma long_truthy s : 3 <= String.length s -> JS.truthy s = true.
Proof. destruct s; simpl; [lia | reflexivity]. Qed.

Lemma Auto_indexNode_get m n tok :
  JS.truthy tok = true ->
  JS.get (Auto.indexNode m n) tok
  = if optString_eqb (node_referenceId n) (Some tok) then Some n
    else JS.get m tok.
Proof.
  intros Ht. unfold Auto.indexNode.
  destruct (node_referenceId n) as [r|]; simpl; [|reflexivity].
  destruct (String.eqb_spec r tok) as [->|Hne].
  - rewrite Ht. apply get_set_same.
  - destruct (JS.truthy r); [now apply get_set_other | reflexivity].
Qed.

Lemma Auto_index_get l : forall m tok,
  JS.truthy tok = true ->
  JS.get (fold_left Auto.indexNode l m) tok
  = match lastWithToken l tok with
    | Some B => Some B
    | None => JS.get m tok
    end.
Proof.
  induction l as [|n l IH]; intros m tok Ht; simpl; [reflexivity|].
  rewrite IH by exact Ht.
  destruct (lastWithToken l tok); [reflexivity|].
  rewrite Auto_indexNode_get by exact Ht.
  destruct (optString_eqb (node_referenceId n) (Some tok)); reflexivity.
Qed.

Lemma lastWithToken_In l tok B :
  lastWithToken l tok = Some B ->
  In B l /\ node_referenceId B = Some tok.
Proof.
  induction l as [|n l IH]; simpl; [discriminate|].
  destruct (lastWithToken l tok) as [m|].
  - intros H. destruct (IH H). auto.
  - destruct (optString_eqb (node_referenceId n) (Some tok)) eqn:E;
      [|discriminate].
    intros H; inversion H; subst. apply optString_eqb_eq in E. auto.
Qed.

Lemma lastWithToken_filter l tok :
  (forall n, In n l -> isType item n = false -> node_referenceId n = None) ->
  lastWithToken (filter (isType item) l) tok = lastWithToken l tok.
Proof.
  induction l as [|n l IH]; intros H; simpl; [reflexivity|].
  assert (IH' := IH (fun n Hn => H n (or_intror Hn))).
  destruct (isType item n) eqn:E; simpl; rewrite IH'; [reflexivity|].
  rewrite (H n (or_introl eq_refl) E). simpl.
  destruct (lastWithToken l tok); reflexivity.
Qed.

Lemma linkTriple_newLink s t ty :
  linkTriple (newLink s t ty) = (EndId s, EndId t, ty).
Proof. reflexivity. Qed.

(** A reference triple is never among the spine and branch links. *)
Lemma categoryLinks_not_reference V orc cx cy cats idx doc a b :
  ~ In (EndId a, EndId b, reference)
       (map linkTriple (categoryLinks V orc cx cy cats idx doc)).
Proof.
  intros H. apply in_map_iff in H. destruct H as (l & Hl & Hin).
  destruct (in_categoryLinks _ _ _ _ _ _ _ _ Hin)
    as (k & c & blk & j & _ & _ & _ & [->|(n & _ & _ & ->)]); discriminate.
Qed.

Lemma built_nonitems V doc orc n :
  VariantOk V ->
  In n (nodes (graph (buildGraphData V doc orc))) ->
  isType item n = false ->
  node_referenceId n = None /\ node_linksTo n = None.
Proof.
  intros Hok Hin Hty. destruct (buildGraphData_spec V doc orc Hok) as (Hn & _).
  rewrite Hn in Hin. destruct Hin as [<-|Hin]; [split; reflexivity|].
  destruct (in_categoryNodes _ _ _ _ _ _ _ _ Hin)
    as (k & c & b & j & _ & _ & [->|Hitem] & _); [split; reflexivity|].
  destruct (in_itemNodes _ _ _ _ _ _ _ _ Hitem) as (j' & e & _ & ->).
  unfold isType in Hty. rewrite itemNode_type in Hty by exact Hok.
  discriminate.
Qed.

Lemma isType_item n : isType item n = true <-> isItem n.
Proof. unfold isType, isItem. destruct (node_type n); simpl; split; congruence. Qed.

Lemma Auto_built_fullText doc orc A text :
  In A (nodes (graph (Auto.buildGraphData doc orc))) ->
  node_fullText A = Some text -> JS.truthy text = true.
Proof.
  intros Hin Hft.
  destruct (buildGraphData_spec Auto.variant doc orc Auto_ok) as (Hn & _).
  unfold Auto.buildGraphData in Hin. rewrite Hn in Hin.
  destruct Hin as [<-|Hin]; [discriminate|].
  destruct (in_categoryNodes _ _ _ _ _ _ _ _ Hin)
    as (k & c & b & j & _ & _ & [->|Hitem] & _); [discriminate|].
  destruct (in_itemNodes _ _ _ _ _ _ _ _ Hitem) as (j' & e & _ & ->).
  simpl in Hft. inversion Hft; subst.
  destruct (itemLabel e); reflexivity.
Qed.

(** The reference index of the automatic revision, by token. *)
Lemma Auto_nodeIndex_get doc orc tok :
  JS.truthy tok = true ->
  let r := Auto.buildGraphData doc orc in
  JS.get (nodeIndex r) tok = lastWithToken (nodes (graph r)) tok.
Proof.
  intros Ht r.
  destruct (buildGraphData_spec Auto.variant doc orc Auto_ok)
    as (Hn & _ & Hi & _).
  fold (Auto.buildGraphData doc orc) in Hn, Hi. fold r in Hn, Hi.
  rewrite Hi. simpl indexNode. rewrite Auto_index_get by exact Ht.
  rewrite <- (lastWithToken_filter (nodes (graph r))).
  - rewrite Hn. simpl.
    destruct (lastWithToken _ tok); reflexivity.
  - intros n Hin Hty.
    now destruct (built_nonitems Auto.variant doc orc n Auto_ok Hin Hty).
Qed.

Lemma Auto_reference_links doc orc a b :
  let g := graph (Auto.buildGraphData doc orc) in
  hasReferenceLink g a b <-> autoRule g a b.
Proof.
  intros g.
  destruct (buildGraphData_spec Auto.variant doc orc Auto_ok)
    as (Hn & Hl & _).
  fold (Auto.buildGraphData doc orc) in Hn, Hl.
  set (r := Auto.buildGraphData doc orc) in *.
  unfold hasReferenceLink. fold g in Hn, Hl. rewrite Hl at 1.
  rewrite map_app, in_app_iff. simpl referenceLinks.
  split.
  - intros [H|H]; [now apply categoryLinks_not_reference in H|].
    apply in_map_iff in H. destruct H as (l & Ht & H).
    unfold Auto.referenceLinks in H. apply in_flat_map in H.
    destruct H as (A & HA & H). unfold Auto.linksOfNode in H.
    destruct (node_type A) eqn:TyA; try contradiction.
    destruct (node_fullText A) as [text|] eqn:FT; [|contradiction].
    destruct (JS.truthy text); [|contradiction].
    apply in_flat_map in H. destruct H as (tok & Hfind & H).
    apply findReferences_In in Hfind. destruct Hfind as (Hkey & Hlen & Hre).
    destruct (JS.get (nodeIndex r) tok) as [B|] eqn:G; [|contradiction].
    destruct (negb (node_id B =? node_id A)
              && negb (optString_eqb (node_category B) (node_category A)))
      eqn:Hc; [|contradiction].
    destruct H as [<-|[]]. rewrite linkTriple_newLink in Ht.
    inversion Ht; subst a b.
    apply andb_true_iff in Hc. destruct Hc as (Hid & Hcat).
    apply negb_true_iff in Hid, Hcat.
    apply String.eqb_neq in Hid. apply optString_eqb_neq in Hcat.
    unfold r in G. rewrite Auto_nodeIndex_get in G by now apply long_truthy.
    fold r in G. fold g in G.
    destruct (lastWithToken_In _ _ _ G) as (HB & HrefB).
    assert (TyB : isItem B).
    { apply isType_item. destruct (isType item B) eqn:E; [reflexivity|].
      destruct (built_nonitems Auto.variant doc orc B Auto_ok HB E).
      congruence. }
    exists A, B, tok, text. repeat split; auto.
    now apply wordRegexTest_wholeWord.
  - intros (A & B & tok & text & HA & HB & TyA & TyB & <- & <- & HrefB & Hlen
            & Hlast & FT & Hword & Hid & Hcat).
    right. apply in_map_iff.
    exists (newLink (node_id A) (node_id B) reference).
    split; [reflexivity|].
    unfold Auto.referenceLinks. apply in_flat_map. exists A. split; [exact HA|].
    unfold Auto.linksOfNode. rewrite TyA, FT.
    rewrite (Auto_built_fullText doc orc A text HA FT).
    apply in_flat_map. exists tok.
    assert (G : JS.get (nodeIndex r) tok = Some B).
    { unfold r. rewrite Auto_nodeIndex_get by now apply long_truthy.
      exact Hlast. }
    split.
    + apply findReferences_In. repeat split; auto.
      * apply get_in_keys. eauto.
      * now apply wordRegexTest_wholeWord.
    + rewrite G.
      assert (E1 : (node_id B =? node_id A) = false)
        by (apply String.eqb_neq; congruence).
      assert (E2 : optString_eqb (node_category B) (node_category A) = false)
        by (apply optString_eqb_neq; congruence).
      rewrite E1, E2. now left.
Qed.

Lemma Manual_index_get l : forall m t B,
  JS.get (fold_left Manual.indexNode l m) t = Some B ->
  (In B l /\ node_id B = t) \/ JS.get m t = Some B.
Proof.
  induction l as [|n l IH]; intros m t B H; simpl in H; [now right|].
  destruct (IH _ _ _ H) as [(Hin & Hid)|Hm]; [left; split; [now right|exact Hid]|].
  unfold Manual.indexNode in Hm.
  destruct (String.eqb_spec (node_id n) t) as [E|E].
  - subst t. rewrite get_set_same in Hm. inversion Hm; subst.
    left. split; [now left | reflexivity].
  - rewrite get_set_other in Hm by exact E. now right.
Qed.

Lemma Manual_index_keeps l : forall m t,
  (exists B, JS.get m t = Some B) ->
  exists B, JS.get (fold_left Manual.indexNode l m) t = Some B.
Proof.
  induction l as [|n l IH]; intros m t H; simpl; [exact H|].
  apply IH. unfold Manual.indexNode.
  destruct (String.eqb_spec (node_id n) t) as [E|E].
  - subst t. rewrite get_set_same. eauto.
  - rewrite get_set_other by exact E. exact H.
Qed.

Lemma Manual_index_has l : forall m n,
  In n l -> exists B, JS.get (fold_left Manual.indexNode l m) (node_id n) = Some B.
Proof.
  induction l as [|n0 l IH]; intros m n Hin; [contradiction|].
  destruct Hin as [<-|Hin]; simpl.
  - apply Manual_index_keeps. unfold Manual.indexNode.
    rewrite get_set_same. eauto.
  - now apply IH.
Qed.

Lemma Manual_reference_links doc orc a b :
  let g := graph (Manual.buildGraphData doc orc) in
  hasReferenceLink g a b <-> manualRule g a b.
Proof.
  intros g.
  destruct (buildGraphData_spec Manual.variant doc orc Manual_ok)
    as (Hn & Hl & Hi & _).
  fold (Manual.buildGraphData doc orc) in Hn, Hl, Hi.
  set (r := Manual.buildGraphData doc orc) in *.
  unfold hasReferenceLink. fold g in Hn, Hl. rewrite Hl at 1.
  rewrite map_app, in_app_iff. simpl referenceLinks. simpl indexNode in Hi.
  split.
  - intros [H|H]; [now apply categoryLinks_not_reference in H|].
    apply in_map_iff in H. destruct H as (l & Ht & H).
    unfold Manual.referenceLinks in H. apply in_flat_map in H.
    destruct H as (A & HA & H). unfold Manual.linksOfNode in H.
    destruct (node_type A) eqn:TyA; try contradiction.
    destruct (node_linksTo A) as [targets|] eqn:LT; [|contradiction].
    apply in_flat_map in H. destruct H as (t & Ht' & H).
    destruct (JS.get (nodeIndex r) t) as [B|] eqn:G; [|contradiction].
    destruct (negb (node_id B =? node_id A)) eqn:Hc; [|contradiction].
    destruct H as [<-|[]]. rewrite linkTriple_newLink in Ht.
    inversion Ht; subst a b.
    apply negb_true_iff, String.eqb_neq in Hc.
    rewrite Hi in G. apply Manual_index_get in G.
    destruct G as [(HB & HidB)|G]; [|discriminate].
    apply filter_In in HB. destruct HB as (HB & TyB).
    exists A, B, targets. rewrite Hn.
    repeat split; auto; try congruence.
    + right; exact HB.
    + now apply isType_item.
  - intros (A & B & targets & HA & HB & TyA & TyB & <- & <- & LT & Hin & Hid).
    right. apply in_map_iff.
    exists (newLink (node_id A) (node_id B) reference).
    split; [reflexivity|].
    unfold Manual.referenceLinks. apply in_flat_map. exists A.
    split; [exact HA|].
    unfold Manual.linksOfNode. rewrite TyA, LT.
    apply in_flat_map. exists (node_id B). split; [exact Hin|].
    assert (HB' : In B (filter (isType item)
                          (categoryNodes Manual.variant orc
                             (fst (centerOf (container doc)))
                             (snd (centerOf (container doc)))
                             (sectionConfig Manual.variant) 0 doc))).
    { apply filter_In. split; [|now apply isType_item].
      rewrite Hn in HB. destruct HB as [<-|HB]; [discriminate | exact HB]. }
    destruct (Manual_index_has _ [] _ HB') as (B' & G).
    rewrite <- Hi in G. rewrite G.
    assert (HidB' : node_id B' = node_id B).
    { rewrite Hi in G. apply Manual_index_get in G.
      destruct G as [(_ & E)|G]; [exact E | discriminate]. }
    rewrite HidB'.
    assert (E1 : (node_id B =? node_id A) = false)
      by (apply String.eqb_neq; congruence).
    rewrite E1. now left.
Qed.

(** C5, as stated, fails for the automatic mechanism: on the sample page
    the token [kafka] of the work item is a whole word of the talk's
    text, the two are distinct items of different categories, and yet
    no reference link joins them (the index keeps the open-source item
    for that token). *)
Lemma C5_counterexample_shared_token :
  autoRuleAsStated g_kafka "talks-kafka-deep-dive-0" "work-kafka-0" /\
  ~ hasReferenceLink g_kafka "talks-kafka-deep-dive-0" "work-kafka-0".
Proof.
  split.
  - exists (nodeAt g_kafka 6), (nodeAt g_kafka 2), "kafka",
           "kafka deep dive  kafka deep dive".
    repeat split.
    + vm_compute. tauto.
    + vm_compute. tauto.
    + simpl. lia.
    + apply wordRegexTest_wholeWord. vm_compute. reflexivity.
    + discriminate.
    + vm_compute. discriminate.
  - unfold hasReferenceLink. vm_compute.
    intros H. repeat (destruct H as [H|H]; [discriminate|]). exact H.
Qed.

(** C5, amended. Automatic mechanism, for tokens free of
    regular-expression metacharacters: a reference link joins item [A]
    to item [B] exactly when the token of [B], three characters or
    more, is a whole word (case ignored) of the text of [A], the two are
    distinct items of different categories, and [B] is the item the
    reference index holds for that token, the last one collected with
    it.  Explicit mechanism: a reference link joins [A] to [B] exactly
    when the identity of [B] is in the target list of [A] and [B] is an
    item other than [A]; a listed identity no item carries gives no
    link. *)
Theorem C5_reference_links :
  forall (doc : Document) (orc : Oracle),
    (literalTokens (Auto.buildGraphData doc orc) ->
     forall a b,
       hasReferenceLink (graph (Auto.buildGraphData doc orc)) a b
       <-> autoRule (graph (Auto.buildGraphData doc orc)) a b) /\
    (forall a b,
       hasReferenceLink (graph (Manual.buildGraphData doc orc)) a b
       <-> manualRule (graph (Manual.buildGraphData doc orc)) a b) /\
    (forall a t,
       (forall n, In n (nodes (graph (Manual.buildGraphData doc orc))) ->
                  isItem n -> node_id n <> t) ->
       ~ hasReferenceLink (graph (Manual.buildGraphData doc orc)) a t).
Proof.
  intros doc orc. split; [|split].
  - intros _ a b. apply Auto_reference_links.
  - intros a b. apply Manual_reference_links.
  - intros a t Hnone H. apply Manual_reference_links in H.
    destruct H as (A & B & targets & _ & HB & _ & TyB & _ & Hid & _).
    exact (Hnone B HB TyB Hid).
Qed.

Lemma doc_kafka_literalTokens :
  literalTokens (Auto.buildGraphData doc_kafka orc_zero).
Proof.
  intros tok Hin. vm_compute in Hin.
  destruct Hin as [<-|[<-|[]]]; reflexivity.
Qed.

Lemma doc_dotted_not_literal :
  ~ literalTokens (Auto.buildGraphData doc_dotted orc_zero).
Proof.
  intros H. specialize (H "node.js"). vm_compute in H.
  assert (E : false = true) by (apply H; now left). discriminate.
Qed.

Lemma doc_dotted_manualRule :
  manualRule (graph (Manual.buildGraphData doc_dotted orc_zero))
             "node.js" "vue.js".
Proof.
  exists (nth 2 (nodes (graph (Manual.buildGraphData doc_dotted orc_zero)))
              (centerNode Manual.variant 0 0)),
         (nth 4 (nodes (graph (Manual.buildGraphData doc_dotted orc_zero)))
              (centerNode Manual.variant 0 0)),
         ["vue.js"].
  vm_compute.
  repeat split; first [tauto | reflexivity | discriminate].
Qed.

Lemma C5_witness :
  literalTokens (Auto.buildGraphData doc_kafka orc_zero) /\
  (forall a b,
     hasReferenceLink (graph (Auto.buildGraphData doc_kafka orc_zero)) a b
     <-> autoRule (graph (Auto.buildGraphData doc_kafka orc_zero)) a b) /\
  ~ literalTokens (Auto.buildGraphData doc_dotted orc_zero) /\
  hasReferenceLink (graph (Manual.buildGraphData doc_dotted orc_zero))
                   "node.js" "vue.js".
Proof.
  split; [exact doc_kafka_literalTokens|].
  split; [exact (proj1 (C5_reference_links doc_kafka orc_zero)
                   doc_kafka_literalTokens)|].
  split; [exact doc_dotted_not_literal|].
  exact (proj2 (proj1 (proj2 (C5_reference_links doc_dotted orc_zero))
                  "node.js" "vue.js") doc_dotted_manualRule).
Defined.



(* ----------------------------------------------------------------- *)
(** ** Visibility transitions *)

Lemma zoomToFit_graph st :
  graphData (fst (zoomToFit st)) = graphData st /\
  activeSubgraph (fst (zoomToFit st)) = activeSubgraph st /\
  st_container (fst (zoomToFit st)) = st_container st /\
  simulation (fst (zoomToFit st)) = simulation st.
Proof.
  unfold zoomToFit. destruct (st_container st) as [[w h]|] eqn:C;
    [|simpl; auto].
  destruct (graphData st) as [g|] eqn:G; [|simpl; rewrite G, C; auto].
  destruct (boundingBox _); simpl; auto.
Qed.

Lemma zoomToVisibleNodes_graph st :
  graphData (fst (zoomToVisibleNodes st)) = graphData st /\
  activeSubgraph (fst (zoomToVisibleNodes st)) = activeSubgraph st /\
  st_container (fst (zoomToVisibleNodes st)) = st_container st /\
  simulation (fst (zoomToVisibleNodes st)) = simulation st.
Proof.
  unfold zoomToVisibleNodes. destruct (graphData st) as [g|] eqn:G;
    [|simpl; rewrite G; auto].
  destruct (st_container st) as [[w h]|] eqn:C; [|simpl; rewrite G, C; auto].
  destruct (boundingBox _); simpl; rewrite ?G, ?C; auto.
Qed.

Lemma timerRecenter_graph st :
  graphData (fst (timerRecenter st)) = graphData st /\
  activeSubgraph (fst (timerRecenter st)) = activeSubgraph st /\
  st_container (fst (timerRecenter st)) = st_container st /\
  simulation (fst (timerRecenter st)) = simulation st.
Proof.
  unfold timerRecenter. destruct (activeTruthy _);
    [apply zoomToVisibleNodes_graph | apply zoomToFit_graph].
Qed.

(** What [toggleSubgraph] leaves, when the graph and the simulation
    exist: the key kept, the nodes and the links. *)
Lemma toggleSubgraph_spec S categoryKey st g :
  graphData st = Some g -> simulation st = true ->
  let key := if sameActive (activeSubgraph st) categoryKey then None
             else categoryKey in
  let ns := hideItems
              (fun node =>
                 if truthyOpt key
                 then negb (optString_eqb (node_category node) key)
                 else true) (nodes g) in
  let st' := fst (toggleSubgraph S categoryKey st) in
  graphData st' = Some (mkGraphData ns (map (restyleLink S ns) (links g))) /\
  activeSubgraph st' = activeOfKey key /\
  st_container st' = st_container st /\ simulation st' = true.
Proof.
  intros G Sim. unfold toggleSubgraph. rewrite G, Sim. cbv zeta.
  destruct (if sameActive (activeSubgraph st) categoryKey then None
            else categoryKey) as [k|];
    [destruct (JS.truthy k)|];
    unfold zoomToCategory;
    match goal with
    | |- context [zoomToFit ?s] =>
        destruct (zoomToFit_graph s) as (-> & -> & -> & ->)
    | |- context [zoomToVisibleNodes ?s] =>
        destruct (zoomToVisibleNodes_graph s) as (-> & -> & -> & ->)
    end; simpl; rewrite Sim; auto.
Qed.

Lemma showMultipleSubgraphs_spec S categories st g :
  graphData st = Some g -> simulation st = true ->
  let ns := hideItems
              (fun node => negb (includesCat categories (node_category node)))
              (nodes g) in
  let st' := fst (showMultipleSubgraphs S categories st) in
  graphData st' = Some (mkGraphData ns (map (restyleLink S ns) (links g))) /\
  activeSubgraph st'
  = match categories with [] => ANull | _ :: _ => AKeys categories end /\
  st_container st' = st_container st /\ simulation st' = true.
Proof.
  intros G Sim. unfold showMultipleSubgraphs. rewrite G, Sim. simpl.
  rewrite Sim. auto.
Qed.

Lemma in_hideItems h ns n' :
  In n' (hideItems h ns) ->
  exists n, In n ns /\ skey n' = skey n /\
            (isItem n -> n' = setHidden n (h n)) /\
            (~ isItem n -> n' = n).
Proof.
  unfold hideItems. intros H. apply in_map_iff in H.
  destruct H as (n & <- & Hn). exists n. split; [exact Hn|].
  destruct (isType item n) eqn:E.
  - apply isType_item in E. split; [reflexivity|]. split; [reflexivity|].
    intros Hn'. contradiction.
  - split; [reflexivity|]. split; [|reflexivity].
    intros Hi. apply isType_item in Hi. congruence.
Qed.

Lemma hideItems_item h ns n' :
  In n' (hideItems h ns) -> isItem n' ->
  exists n, In n ns /\ isItem n /\ n' = setHidden n (h n).
Proof.
  intros H Hi. destruct (in_hideItems _ _ _ H) as (n & Hn & Hk & Hy & _).
  assert (Hin : isItem n) by (unfold isItem, skey in *; congruence).
  exists n. auto.
Qed.




(* ----------------------------------------------------------------- *)
(** ** What handlers preserve *)

Section Keys.
Context {X : Type} (K : Node -> X).

Lemma map_key_mapi (f : nat -> Node -> Node) l :
  (forall i n, K (f i n) = K n) ->
  forall i, map K (mapi f i l) = map K l.
Proof.
  intros H. induction l as [|n l IH]; intros i; simpl; [reflexivity|].
  now rewrite H, IH.
Qed.

Lemma map_key_updateAt (f : Node -> Node) l :
  (forall n, K (f n) = K n) ->
  forall i, map K (updateAt i f l) = map K l.
Proof.
  intros H. induction l as [|n l IH]; intros [|i]; simpl; try reflexivity.
  - now rewrite H.
  - now rewrite IH.
Qed.

Lemma map_key_pinFirstCenter cx cy l :
  (forall n fx fy, K (setPin n fx fy) = K n) ->
  map K (pinFirstCenter cx cy l) = map K l.
Proof.
  intros H. induction l as [|n l IH]; simpl; [reflexivity|].
  destruct (node_id n =? "center"); simpl; [now rewrite H | now rewrite IH].
Qed.

Lemma map_key_hideItems h l :
  (forall n b, K (setHidden n b) = K n) ->
  map K (hideItems h l) = map K l.
Proof.
  intros H. unfold hideItems. rewrite map_map. apply map_ext.
  intros n. destruct (isType item n); [apply H | reflexivity].
Qed.

Lemma in_same_keys (l l' : list Node) n :
  map K l' = map K l -> In n l' -> exists m, In m l /\ K m = K n.
Proof.
  intros H Hin. apply (in_map K) in Hin. rewrite H in Hin.
  apply in_map_iff in Hin. destruct Hin as (m & E & Hm). eauto.
Qed.

End Keys.

Lemma nodesOf_withNodes st f :
  f [] = [] -> nodesOf (withNodes st f) = f (nodesOf st).
Proof.
  intros Hf. unfold withNodes, nodesOf.
  destruct (graphData st) as [g|] eqn:G; simpl; [reflexivity|].
  rewrite G. now rewrite Hf.
Qed.

Lemma linksOf_withNodes st f : linksOf (withNodes st f) = linksOf st.
Proof.
  unfold withNodes, linksOf.
  destruct (graphData st) as [g|] eqn:G; simpl; [reflexivity|].
  now rewrite G.
Qed.

Lemma nodesOf_withLinks st f : nodesOf (withLinks st f) = nodesOf st.
Proof.
  unfold withLinks, nodesOf.
  destruct (graphData st) as [g|] eqn:G; simpl; [reflexivity|].
  now rewrite G.
Qed.

Lemma nodesOf_reshuffle offset st :
  exists f, (forall i n, skey (f i n) = skey n
                         /\ node_hidden (f i n) = node_hidden n) /\
            nodesOf (reshuffleGraph offset st) = mapi f 0 (nodesOf st) /\
            linksOf (reshuffleGraph offset st) = linksOf st /\
            activeSubgraph (reshuffleGraph offset st) = activeSubgraph st /\
            simulation (reshuffleGraph offset st) = simulation st /\
            st_container (reshuffleGraph offset st) = st_container st.
Proof.
  unfold reshuffleGraph.
  destruct (graphData st) as [g|] eqn:G.
  - destruct (simulation st) eqn:Sim.
    + destruct (centerOf (st_container st)) as [cx cy].
      eexists. split; [|split; [apply nodesOf_withNodes; reflexivity|]].
      * intros i n. cbv beta. destruct (node_type n); split; reflexivity.
      * rewrite linksOf_withNodes. unfold withNodes. rewrite G. simpl. auto.
    + exists (fun _ n => n). split; [split; reflexivity|].
      unfold nodesOf. rewrite G.
      rewrite mapi_const, map_id. auto.
  - exists (fun _ n => n). split; [split; reflexivity|].
    unfold nodesOf. rewrite G. simpl. auto.
Qed.

Lemma nodesOf_same_graph st st' :
  graphData st' = graphData st -> nodesOf st' = nodesOf st.
Proof. unfold nodesOf. now intros ->. Qed.

Lemma movesOnly_vkey S e st :
  movesOnly e = true ->
  map vkey (nodesOf (fst (handle S e st))) = map vkey (nodesOf st).
Proof.
  destruct e; try discriminate; intros _; simpl.
  - unfold mouseover. destruct (graphData st) as [g|] eqn:G; [|reflexivity].
    destruct (nth_error (nodes g) i); [|reflexivity].
    destruct (node_hidden n); [reflexivity|]. now rewrite nodesOf_withLinks.
  - unfold mouseout. now rewrite nodesOf_withLinks.
  - unfold dragStart. rewrite nodesOf_withNodes by (destruct i; reflexivity).
    apply map_key_updateAt. reflexivity.
  - unfold dragMove. rewrite nodesOf_withNodes by (destruct i; reflexivity).
    apply map_key_updateAt. reflexivity.
  - unfold dragEnd. rewrite nodesOf_withNodes by (destruct i; reflexivity).
    apply map_key_updateAt. intros n. destruct (isType center n); reflexivity.
  - unfold simulationTick. rewrite nodesOf_withNodes by reflexivity.
    apply map_key_mapi. reflexivity.
  - unfold onResize. destruct (simulation st).
    + rewrite nodesOf_withNodes by reflexivity.
      rewrite map_key_pinFirstCenter by reflexivity. reflexivity.
    + reflexivity.
  - f_equal. apply nodesOf_same_graph, timerRecenter_graph.
  - f_equal. apply nodesOf_same_graph, zoomToVisibleNodes_graph.
  - f_equal. apply nodesOf_same_graph, zoomToFit_graph.
Qed.

(* ----------------------------------------------------------------- *)
(** ** One category at a time *)

Lemma atMostOne_vkey st st' :
  map vkey (nodesOf st') = map vkey (nodesOf st) ->
  atMostOneCategory st -> atMostOneCategory st'.
Proof.
  intros H Hone n m Hn Hm Tn Tm Vn Vm.
  destruct (in_same_keys vkey _ _ n H Hn) as (n0 & Hn0 & En).
  destruct (in_same_keys vkey _ _ m H Hm) as (m0 & Hm0 & Em).
  unfold vkey, skey, isItem in *.
  inversion En; inversion Em.
  assert (E : node_category n0 = node_category m0)
    by (apply Hone; unfold isItem; congruence).
  congruence.
Qed.

Lemma allHidden_atMostOne st : allItemsHidden st -> atMostOneCategory st.
Proof.
  intros H n m Hn _ Tn _ Vn _. rewrite (H n Hn Tn) in Vn. discriminate.
Qed.

Lemma hideItems_all_hidden ns n :
  In n (hideItems (fun _ => true) ns) -> isItem n -> node_hidden n = true.
Proof.
  intros Hn Hi. destruct (hideItems_item _ _ _ Hn Hi) as (n0 & _ & _ & ->).
  reflexivity.
Qed.

(** After [toggleSubgraph] the items shown are those of the key kept. *)
Lemma toggleSubgraph_one S categoryKey st :
  atMostOneCategory st ->
  atMostOneCategory (fst (toggleSubgraph S categoryKey st)).
Proof.
  intros Hone.
  destruct (graphData st) as [g|] eqn:G;
    [|unfold toggleSubgraph; rewrite G; exact Hone].
  destruct (simulation st) eqn:Sim;
    [|unfold toggleSubgraph; rewrite G, Sim; exact Hone].
  destruct (toggleSubgraph_spec S categoryKey st g G Sim) as (Hg & _).
  intros n m Hn Hm Tn Tm Vn Vm. unfold nodesOf in Hn, Hm.
  rewrite Hg in Hn, Hm. simpl in Hn, Hm.
  destruct (hideItems_item _ _ _ Hn Tn) as (n0 & _ & _ & ->).
  destruct (hideItems_item _ _ _ Hm Tm) as (m0 & _ & _ & ->).
  cbn [setHidden node_hidden node_category] in *.
  destruct (truthyOpt _); [|discriminate].
  apply negb_false_iff, optString_eqb_eq in Vn, Vm. congruence.
Qed.

Lemma handle_atMostOne S e st :
  atMostOneCategory st -> isItemClick st e = false ->
  atMostOneCategory (fst (handle S e st)).
Proof.
  intros Hone Hno.
  destruct (movesOnly e) eqn:Hm.
  { eapply atMostOne_vkey; [apply movesOnly_vkey; exact Hm | exact Hone]. }
  destruct e; try discriminate; simpl.
  - (* click on a node *)
    unfold clickNode. unfold isItemClick in Hno.
    destruct (graphData st) as [g|] eqn:G; [|exact Hone].
    destruct (nth_error (nodes g) i) as [d|]; [|exact Hone].
    unfold isType in Hno.
    destruct (node_type d); [| |discriminate].
    + destruct (nodesOf_reshuffle offset st) as (f & Hf & Hns & _).
      assert (Hone1 : atMostOneCategory (reshuffleGraph offset st)).
      { eapply atMostOne_vkey; [|exact Hone]. rewrite Hns.
        apply map_key_mapi. intros j n. destruct (Hf j n) as (E1 & E2).
        unfold vkey. now rewrite E1, E2. }
      destruct (activeTruthy _); [now apply toggleSubgraph_one | exact Hone1].
    + now apply toggleSubgraph_one.
  - (* click on the background *)
    unfold clickBackground. destruct (activeTruthy _); [|exact Hone].
    destruct (graphData st) as [g|] eqn:G.
    + apply allHidden_atMostOne. intros n Hn Hi.
      rewrite (nodesOf_same_graph _ _ (proj1 (zoomToFit_graph _))) in Hn.
      now apply hideItems_all_hidden in Hn.
    + intros n m [].
Qed.

Lemma run_atMostOne S es : forall st,
  atMostOneCategory st -> noItemClick S es st ->
  atMostOneCategory (run S es st).
Proof.
  unfold run. induction es as [|e es IH]; intros st Hone Hno; simpl;
    [exact Hone|].
  destruct Hno as (He & Hrest). apply IH; [|exact Hrest].
  now apply handle_atMostOne.
Qed.

Lemma replaceFirst_cat k : JS.replaceFirst "cat-" "" ("cat-" +:+ k) = k.
Proof. destruct k; reflexivity. Qed.

Lemma click_open_category_closes S offset i st k :
  simulation st = true -> categoryNodeAt st i k ->
  activeSubgraph st = AKey k ->
  closedState (fst (clickNode S offset i st)).
Proof.
  intros Sim (d & Hd & Ty & Hid) Ha. unfold nodesOf in Hd.
  destruct (graphData st) as [g|] eqn:G; [|destruct i; discriminate].
  unfold clickNode. rewrite G, Hd, Ty, Hid, replaceFirst_cat.
  destruct (toggleSubgraph_spec S (Some k) st g G Sim) as (Hg & Hact & _).
  rewrite Ha in Hg, Hact. simpl sameActive in Hg, Hact.
  rewrite String.eqb_refl in Hg, Hact. split; [exact Hact|].
  intros n Hn Hi. unfold nodesOf in Hn. rewrite Hg in Hn.
  now apply hideItems_all_hidden in Hn.
Qed.

Lemma built_items_hidden V doc orc n :
  VariantOk V ->
  In n (nodes (graph (buildGraphData V doc orc))) -> isItem n ->
  node_hidden n = true.
Proof.
  intros Hok Hin Ty. destruct (buildGraphData_spec V doc orc Hok) as (Hn & _).
  rewrite Hn in Hin. destruct Hin as [<-|Hin]; [discriminate|].
  destruct (in_categoryNodes _ _ _ _ _ _ _ _ Hin)
    as (k & c & b & j & _ & _ & [->|Hitem] & _); [discriminate|].
  destruct (in_itemNodes _ _ _ _ _ _ _ _ Hitem) as (j' & e & _ & ->).
  reflexivity.
Qed.

Lemma click_category_one S offset i st k :
  simulation st = true -> categoryNodeAt st i k ->
  atMostOneCategory (fst (clickNode S offset i st)).
Proof.
  intros Sim (d & Hd & Ty & Hid). unfold nodesOf in Hd.
  destruct (graphData st) as [g|] eqn:G; [|destruct i; discriminate].
  unfold clickNode. rewrite G, Hd, Ty.
  destruct (toggleSubgraph_spec S
              (Some (JS.replaceFirst "cat-" "" (node_id d))) st g G Sim)
    as (Hg & _).
  intros n m Hn Hm Tn Tm Vn Vm. unfold nodesOf in Hn, Hm.
  rewrite Hg in Hn, Hm. simpl in Hn, Hm.
  destruct (hideItems_item _ _ _ Hn Tn) as (n0 & _ & _ & ->).
  destruct (hideItems_item _ _ _ Hm Tm) as (m0 & _ & _ & ->).
  cbn [setHidden node_hidden node_category] in *.
  destruct (truthyOpt _); [|discriminate].
  apply negb_false_iff, optString_eqb_eq in Vn, Vm. congruence.
Qed.

Lemma init_allItemsHidden V S doc orc :
  VariantOk V -> allItemsHidden (fst (initGraph V S doc orc)).
Proof.
  intros Hok n Hn Hi. unfold initGraph in Hn.
  destruct (container doc) as [c|]; [|contradiction].
  unfold renderGraph in Hn. cbn [graphData] in Hn.
  assert (Hn' : In n (nodes (graph (buildGraphData V doc orc))))
    by (destruct (renderLinks S _ _); exact Hn).
  now apply (built_items_hidden V doc orc).
Qed.

(** C3. Along any run of events without a click on an item node, from a
    state showing the items of at most one category (such as the state
    after rendering, where every item is hidden), the items shown belong
    to at most one category.  In any state, with the simulation
    running, a click on a category node leaves the items of at most one
    category shown, and a click on the category node whose key is
    [activeSubgraph] leads to the closed state, with every item
    hidden. *)
Theorem C3_single_open_category :
  forall (S : Style) (es : list Event) (st : State),
    atMostOneCategory st ->
    noItemClick S es st ->
    atMostOneCategory (run S es st) /\
    (forall offset i k st2,
       simulation st2 = true -> categoryNodeAt st2 i k ->
       atMostOneCategory (fst (clickNode S offset i st2)) /\
       (activeSubgraph st2 = AKey k ->
        closedState (fst (clickNode S offset i st2)))).
Proof.
  intros S es st Hone Hno. split.
  - now apply run_atMostOne.
  - intros offset i k st2 Sim Hcat. split.
    + now apply click_category_one with k.
    + now apply click_open_category_closes.
Qed.

(* ----------------------------------------------------------------- *)
(** ** Pins *)




















Lemma reshuffle_centerAtViewportCenter offset st :
  simulation st = true ->
  centerAtViewportCenter (reshuffleGraph offset st).
Proof.
  intros Sim n' Hn' Ty.
  destruct (nodesOf_reshuffle offset st) as (_ & _ & _ & _ & _ & _ & ->).
  revert Hn'. unfold reshuffleGraph.
  destruct (graphData st) as [g|] eqn:G;
    [|unfold nodesOf; rewrite G; contradiction].
  rewrite Sim. destruct (centerOf (st_container st)) as [cx cy].
  rewrite nodesOf_withNodes by reflexivity. intros Hn'.
  apply in_mapi in Hn'. destruct Hn' as (j & n & _ & ->).
  destruct (node_type n) eqn:E; simpl in Ty; rewrite E in Ty;
    try discriminate.
  unfold isPinnedAt; simpl. split; reflexivity.
Qed.

Lemma nodesOf_nth_graph st i d :
  nth_error (nodesOf st) i = Some d ->
  exists g, graphData st = Some g /\ nth_error (nodes g) i = Some d.
Proof.
  unfold nodesOf. destruct (graphData st) as [g|]; [eauto|].
  destruct i; discriminate.
Qed.




(* ----------------------------------------------------------------- *)
(** ** Reframing *)









(* ----------------------------------------------------------------- *)
(** ** Missing container *)

(** Without a container the build places the center at the default
    (300, 300). *)
Lemma build_without_container V doc orc :
  VariantOk V -> container doc = None ->
  exists rest,
    nodes (graph (buildGraphData V doc orc)) = centerNode V 300 300 :: rest.
Proof.
  intros Hok Hc. destruct (buildGraphData_spec V doc orc Hok) as (Hn & _).
  rewrite Hc in Hn. simpl in Hn. eauto.
Qed.

(** A configured category whose section block is missing contributes no
    node: the build goes on to the next category. *)
Lemma missing_category_skipped V doc orc k n :
  VariantOk V -> querySection doc k = None ->
  In n (nodes (graph (buildGraphData V doc orc))) ->
  node_category n <> Some k.
Proof.
  intros Hok Hq Hin Hcat.
  destruct (buildGraphData_spec V doc orc Hok) as (Hn & _).
  rewrite Hn in Hin. destruct Hin as [<-|Hin]; [discriminate|].
  destruct (in_categoryNodes _ _ _ _ _ _ _ _ Hin)
    as (k' & c & b & j & _ & Hq' & [->|Hitem] & _).
  - simpl in Hcat. congruence.
  - destruct (in_itemNodes _ _ _ _ _ _ _ _ Hitem) as (j' & e & _ & ->).
    rewrite itemNode_category in Hcat by exact Hok. congruence.
Qed.

(** C9 fails on the code.  With the graph rendered and
    [#graph-container] no longer in the document, [reshuffleGraph] falls
    back to the default center (300, 300), as [buildGraphData] and
    [renderGraph] do, but [zoomToFit] and [zoomToVisibleNodes] read
    [container.offsetWidth] unguarded and throw: the reframe
    [reshuffleGraph] schedules, and a click on a category node. *)
Theorem C9_reframe_throws_without_container :
  centerAtViewportCenter (reshuffleGraph noOffset st_detached) /\
  centerOf (st_container (reshuffleGraph noOffset st_detached))
  = (300, 300)%Q /\
  snd (handle Manual_style TimerZoomToFit
              (reshuffleGraph noOffset st_detached)) = Thrown /\
  snd (zoomToVisibleNodes st_detached) = Thrown /\
  snd (handle Manual_style (ClickNode noOffset 1) st_detached) = Thrown.
Proof.
  split; [apply reshuffle_centerAtViewportCenter; reflexivity|].
  repeat split; vm_compute; reflexivity.
Qed.

(* ----------------------------------------------------------------- *)
(** ** Link visibility under hover *)

Lemma st_kafka_auto_hidden : allItemsHidden st_kafka_auto.
Proof.
  intros n Hn Hi. vm_compute in Hn.
  repeat (destruct Hn as [<-|Hn]; [try reflexivity; discriminate|]).
  contradiction.
Qed.

(** C2 fails on the revision of lines 1-1150.  On the rendered sample
    page, with every item hidden, hovering the category node [cat-work]
    (node 1) sets the opacity of its branch link to 0.7 although the
    target item is hidden. *)
Theorem C2_auto_hover_reveals_hidden_branch :
  allItemsHidden st_kafka_auto /\
  revealsHiddenBranch (mouseover Auto_style 1 st_kafka_auto) /\
  ~ visibilityInvariant (mouseover Auto_style 1 st_kafka_auto).
Proof.
  assert (Hrev : revealsHiddenBranch (mouseover Auto_style 1 st_kafka_auto)).
  { vm_compute. do 2 eexists.
    split; [right; left; reflexivity|].
    repeat split; reflexivity. }
  split; [exact st_kafka_auto_hidden|]. split; [exact Hrev|].
  intros Hinv. destruct Hrev as (l & t & Hl & Ty & Hvis & Ht & _ & Hh).
  specialize (Hinv l Hl). rewrite Ty in Hinv.
  apply Hinv in Hvis. unfold unhidden in Hvis. rewrite Ht in Hvis.
  simpl in Hvis. rewrite Hh in Hvis. discriminate.
Qed.

(* ----------------------------------------------------------------- *)
(** ** Link visibility in the revision of lines 1970-3897 *)

Lemma find_map_id (f : Node -> Node) s ns :
  (forall n, node_id (f n) = node_id n) ->
  find (fun n => node_id n =? s) (map f ns)
  = option_map f (find (fun n => node_id n =? s) ns).
Proof.
  intros Hf. induction ns as [|n ns IH]; simpl; [reflexivity|].
  rewrite Hf. destruct (node_id n =? s); [reflexivity | exact IH].
Qed.

Lemma endNode_map (f : Node -> Node) ns e :
  (forall n, node_id (f n) = node_id n) ->
  endNode (map f ns) e = option_map f (endNode ns e).
Proof.
  intros Hf. destruct e as [s|i]; simpl.
  - now apply find_map_id.
  - apply nth_error_map.
Qed.

Lemma find_vkey s : forall ns ns',
  map vkey ns' = map vkey ns ->
  option_map vkey (find (fun n => node_id n =? s) ns')
  = option_map vkey (find (fun n => node_id n =? s) ns).
Proof.
  induction ns as [|n ns IH]; intros [|n' ns'] H; simpl in *;
    try discriminate; [reflexivity|].
  injection H as Hid Hty Hcat Hhid Hrest.
  rewrite Hid. destruct (node_id n =? s); simpl.
  - unfold vkey, skey. congruence.
  - now apply IH.
Qed.

Lemma endNode_vkey ns ns' e :
  map vkey ns' = map vkey ns ->
  option_map vkey (endNode ns' e) = option_map vkey (endNode ns e).
Proof.
  intros H. destruct e as [s|i]; simpl.
  - now apply find_vkey.
  - rewrite <- !nth_error_map. now rewrite H.
Qed.

Lemma shown_vkey (a b : option Node) :
  option_map vkey a = option_map vkey b -> shown a = shown b.
Proof.
  destruct a, b; simpl; try discriminate; [|reflexivity].
  unfold vkey. intros H. inversion H. congruence.
Qed.

Lemma isItemEnd_vkey ns ns' e :
  map vkey ns' = map vkey ns -> isItemEnd ns e -> isItemEnd ns' e.
Proof.
  intros H (n & Hn & Hi). pose proof (endNode_vkey ns ns' e H) as E.
  rewrite Hn in E. destruct (endNode ns' e) as [n'|] eqn:En'; [|discriminate].
  exists n'. split; [exact En'|]. simpl in E. inversion E.
  unfold isItem in *. congruence.
Qed.

(** Handlers that move or pin nodes, or reframe, keep the invariant. *)
Lemma visibility_same_vkey st st' :
  map vkey (nodesOf st') = map vkey (nodesOf st) ->
  linksOf st' = linksOf st ->
  endsAreItems st /\ visibilityInvariant st ->
  endsAreItems st' /\ visibilityInvariant st'.
Proof.
  intros Hn Hl (Hends & Hvis). split; intros l Hin; rewrite Hl in Hin.
  - specialize (Hends l Hin). destruct (link_type l); auto.
    + now apply (isItemEnd_vkey _ _ _ Hn).
    + destruct Hends. split; now apply (isItemEnd_vkey _ _ _ Hn).
  - specialize (Hvis l Hin). unfold unhidden in *.
    destruct (link_type l); auto;
      rewrite !(shown_vkey _ _ (endNode_vkey _ _ _ Hn)); exact Hvis.
Qed.

Lemma isItemEnd_hideItems h ns e :
  isItemEnd ns e -> isItemEnd (hideItems h ns) e.
Proof.
  intros (n & Hn & Hi). unfold isItemEnd, hideItems.
  rewrite endNode_map, Hn.
  - simpl. eexists. split; [reflexivity|].
    destruct (isType item n); exact Hi.
  - intros m. destruct (isType item m); reflexivity.
Qed.

Lemma Qlt_0_0 : ~ (0 < 0)%Q.
Proof. apply Qlt_irrefl. Qed.

(** The opacities [restyleLink] writes satisfy the invariant. *)
Lemma restyle_visibility S ns ls :
  positiveStyle S ->
  forall l, In l (map (restyleLink S ns) ls) ->
    match link_type l with
    | branch => visible l <-> unhidden ns (link_target l)
    | reference =>
        visible l <-> unhidden ns (link_source l) /\ unhidden ns (link_target l)
    | spine => True
    end.
Proof.
  intros (Pb & Pr & _ & _) l Hin. apply in_map_iff in Hin.
  destruct Hin as (l0 & <- & _). unfold restyleLink, visible, unhidden.
  destruct (link_type l0) eqn:Ty; simpl; rewrite ?Ty; [exact I | |].
  - destruct (shown (endNode ns (link_target l0))); split; auto;
      try discriminate; try (intros H; now apply Qlt_0_0 in H).
  - destruct (shown (endNode ns (link_source l0))),
             (shown (endNode ns (link_target l0))); simpl; split; auto;
      try (intros [? ?]; discriminate); try discriminate;
      try (intros H; now apply Qlt_0_0 in H).
Qed.

Lemma restyle_ends S ns h ls :
  (forall l, In l ls ->
     match link_type l with
     | branch => isItemEnd ns (link_target l)
     | reference => isItemEnd ns (link_source l) /\ isItemEnd ns (link_target l)
     | spine => True
     end) ->
  forall l, In l (map (restyleLink S (hideItems h ns)) ls) ->
     match link_type l with
     | branch => isItemEnd (hideItems h ns) (link_target l)
     | reference =>
         isItemEnd (hideItems h ns) (link_source l) /\
         isItemEnd (hideItems h ns) (link_target l)
     | spine => True
     end.
Proof.
  intros H l Hin. apply in_map_iff in Hin. destruct Hin as (l0 & <- & Hl0).
  specialize (H l0 Hl0). unfold restyleLink.
  destruct (link_type l0) eqn:Ty; simpl; rewrite ?Ty; auto.
  - now apply isItemEnd_hideItems.
  - destruct H. split; now apply isItemEnd_hideItems.
Qed.

Lemma toggleSubgraph_visibility S categoryKey st :
  positiveStyle S ->
  endsAreItems st /\ visibilityInvariant st ->
  endsAreItems (fst (toggleSubgraph S categoryKey st)) /\
  visibilityInvariant (fst (toggleSubgraph S categoryKey st)).
Proof.
  intros Pos (Hends & Hvis).
  destruct (graphData st) as [g|] eqn:G;
    [|unfold toggleSubgraph; rewrite G; now split].
  destruct (simulation st) eqn:Sim;
    [|unfold toggleSubgraph; rewrite G, Sim; now split].
  destruct (toggleSubgraph_spec S categoryKey st g G Sim) as (Hg & _).
  unfold endsAreItems, visibilityInvariant, nodesOf, linksOf in *.
  rewrite Hg. rewrite G in Hends. simpl. split.
  - now apply restyle_ends.
  - now apply restyle_visibility.
Qed.

Lemma showMultipleSubgraphs_visibility S categories st :
  positiveStyle S ->
  endsAreItems st /\ visibilityInvariant st ->
  endsAreItems (fst (showMultipleSubgraphs S categories st)) /\
  visibilityInvariant (fst (showMultipleSubgraphs S categories st)).
Proof.
  intros Pos (Hends & Hvis).
  destruct (graphData st) as [g|] eqn:G;
    [|unfold showMultipleSubgraphs; rewrite G; now split].
  destruct (simulation st) eqn:Sim;
    [|unfold showMultipleSubgraphs; rewrite G, Sim; now split].
  destruct (showMultipleSubgraphs_spec S categories st g G Sim) as (Hg & _).
  unfold endsAreItems, visibilityInvariant, nodesOf, linksOf in *.
  rewrite Hg. rewrite G in Hends. simpl. split.
  - now apply restyle_ends.
  - now apply restyle_visibility.
Qed.

Lemma hidden_end_not_shown ns e :
  isItemEnd ns e -> shown (endNode (hideItems (fun _ => true) ns) e) = false.
Proof.
  intros (n & Hn & Hi). unfold hideItems. rewrite endNode_map, Hn.
  - simpl. apply isType_item in Hi. now rewrite Hi.
  - intros m. destruct (isType item m); reflexivity.
Qed.

Lemma clickBackground_visibility st :
  endsAreItems st /\ visibilityInvariant st ->
  endsAreItems (fst (clickBackground st)) /\
  visibilityInvariant (fst (clickBackground st)).
Proof.
  intros (Hends & Hvis). unfold clickBackground.
  destruct (activeTruthy _); [|now split].
  destruct (graphData st) as [g|] eqn:G.
  - unfold endsAreItems, visibilityInvariant, nodesOf, linksOf in *.
    rewrite (proj1 (zoomToFit_graph _)). rewrite G in Hends. simpl.
    split; intros l Hin; apply in_map_iff in Hin;
      destruct Hin as (l0 & <- & Hl0); specialize (Hends l0 Hl0);
      destruct (link_type l0) eqn:Ty; simpl; rewrite ?Ty; auto.
    + now apply isItemEnd_hideItems.
    + destruct Hends. split; now apply isItemEnd_hideItems.
    + unfold visible, unhidden. simpl.
      rewrite (hidden_end_not_shown _ _ Hends).
      split; [intros H; now apply Qlt_0_0 in H | discriminate].
    + unfold visible, unhidden. simpl. destruct Hends as (Hs & _).
      rewrite (hidden_end_not_shown _ _ Hs).
      split; [intros H; now apply Qlt_0_0 in H | intros [? _]; discriminate].
  - split; intros l Hin; unfold linksOf in Hin; simpl in Hin; contradiction.
Qed.

Lemma mouseover_visibility S i st :
  positiveStyle S -> hoverKeepsHidden S ->
  endsAreItems st /\ visibilityInvariant st ->
  endsAreItems (mouseover S i st) /\ visibilityInvariant (mouseover S i st).
Proof.
  intros (_ & _ & _ & Ph) Hov (Hends & Hvis). unfold mouseover.
  destruct (graphData st) as [g|] eqn:G; [|now split].
  destruct (nth_error (nodes g) i) as [d|]; [|now split].
  destruct (node_hidden d); [now split|].
  unfold endsAreItems, visibilityInvariant, nodesOf, linksOf, withLinks in *.
  rewrite G in *. simpl.
  split; intros l Hin; apply in_map_iff in Hin;
    destruct Hin as (l0 & <- & Hl0);
    specialize (Hends l0 Hl0); specialize (Hvis l0 Hl0);
    destruct (isConnected (nodes g) d l0 && hoverSelects S l0) eqn:E.
  - exact Hends.
  - exact Hends.
  - apply andb_true_iff in E. destruct E as (_ & Hsel). apply Hov in Hsel.
    unfold visible in *. simpl.
    destruct (link_type l0); auto; split; auto; intros _; now apply Hvis.
  - exact Hvis.
Qed.

Lemma mouseout_visibility S i st :
  positiveStyle S ->
  endsAreItems st /\ visibilityInvariant st ->
  endsAreItems (mouseout S i st) /\ visibilityInvariant (mouseout S i st).
Proof.
  intros (Pb & _ & Pr & _) (Hends & Hvis). unfold mouseout.
  unfold endsAreItems, visibilityInvariant, nodesOf, linksOf, withLinks in *.
  destruct (graphData st) as [g|] eqn:G; [|rewrite G; now split].
  simpl.
  split; intros l Hin; apply in_map_iff in Hin;
    destruct Hin as (l0 & <- & Hl0); specialize (Hends l0 Hl0);
    unfold restLink, visible, unhidden;
    destruct (link_type l0) eqn:Ty; simpl; rewrite ?Ty; auto.
  - destruct (shown (endNode (nodes g) (link_target l0))); split; auto;
      try discriminate; try (intros H; now apply Qlt_0_0 in H).
  - destruct (shown (endNode (nodes g) (link_source l0))),
             (shown (endNode (nodes g) (link_target l0))); simpl; split; auto;
      try (intros [? ?]; discriminate); try discriminate;
      try (intros H; now apply Qlt_0_0 in H).
Qed.

Lemma linksOf_same_graph st st' :
  graphData st' = graphData st -> linksOf st' = linksOf st.
Proof. unfold linksOf. now intros ->. Qed.

Lemma handle_visibility S e st :
  positiveStyle S -> hoverKeepsHidden S ->
  endsAreItems st /\ visibilityInvariant st ->
  endsAreItems (fst (handle S e st)) /\
  visibilityInvariant (fst (handle S e st)).
Proof.
  intros Pos Hov Inv.
  assert (Hmove : forall e', movesOnly e' = true ->
            linksOf (fst (handle S e' st)) = linksOf st ->
            endsAreItems (fst (handle S e' st)) /\
            visibilityInvariant (fst (handle S e' st))).
  { intros e' Hm Hl.
    apply (visibility_same_vkey st _ (movesOnly_vkey S e' st Hm) Hl Inv). }
  destruct e.
  - (* click on a node *)
    simpl. unfold clickNode.
    destruct (graphData st) as [g|] eqn:G; [|exact Inv].
    destruct (nth_error (nodes g) i) as [d|]; [|exact Inv].
    destruct (node_type d).
    + assert (Inv1 : endsAreItems (reshuffleGraph offset st) /\
                     visibilityInvariant (reshuffleGraph offset st)).
      { destruct (nodesOf_reshuffle offset st) as (f & Hf & Hns & Hls & _).
        eapply visibility_same_vkey; [| exact Hls | exact Inv].
        rewrite Hns. apply map_key_mapi. intros j n.
        destruct (Hf j n) as (E1 & E2). unfold vkey. now rewrite E1, E2. }
      destruct (activeTruthy _);
        [now apply toggleSubgraph_visibility | exact Inv1].
    + now apply toggleSubgraph_visibility.
    + now apply showMultipleSubgraphs_visibility.
  - now apply clickBackground_visibility.
  - now apply mouseover_visibility.
  - now apply mouseout_visibility.
  - apply Hmove; [reflexivity | apply linksOf_withNodes].
  - apply Hmove; [reflexivity | apply linksOf_withNodes].
  - apply Hmove; [reflexivity | apply linksOf_withNodes].
  - apply Hmove; [reflexivity | apply linksOf_withNodes].
  - apply Hmove; [reflexivity|]. simpl. unfold onResize.
    destruct (simulation st); [|reflexivity].
    now rewrite linksOf_withNodes.
  - apply Hmove; [reflexivity|].
    apply linksOf_same_graph, timerRecenter_graph.
  - apply Hmove; [reflexivity|].
    apply linksOf_same_graph, zoomToVisibleNodes_graph.
  - apply Hmove; [reflexivity|].
    apply linksOf_same_graph, zoomToFit_graph.
Qed.

Lemma run_visibility S es : forall st,
  positiveStyle S -> hoverKeepsHidden S ->
  endsAreItems st /\ visibilityInvariant st ->
  endsAreItems (run S es st) /\ visibilityInvariant (run S es st).
Proof.
  unfold run. induction es as [|e es IH]; intros st Pos Hov Inv; simpl;
    [exact Inv|].
  apply IH; auto. now apply handle_visibility.
Qed.

Lemma Manual_style_positive : positiveStyle Manual_style.
Proof. repeat split. Qed.

Lemma Manual_style_hover : hoverKeepsHidden Manual_style.
Proof.
  intros l H. unfold Manual_style in H. simpl in H.
  apply negb_true_iff in H. unfold visible.
  apply Qnot_le_lt. intros Hle. apply Qle_bool_iff in Hle. congruence.
Qed.

(* ----------------------------------------------------------------- *)
(** ** The rendered state *)

Lemma findLastIndex_nth s ns : forall i j,
  findLastIndex s ns i = Some j ->
  exists n, i <= j /\ nth_error ns (j - i) = Some n /\ node_id n = s.
Proof.
  induction ns as [|n0 ns IH]; intros i j H; simpl in H; [discriminate|].
  destruct (findLastIndex s ns (S i)) as [j'|] eqn:E.
  - inversion H; subst j'. destruct (IH _ _ E) as (n & Hle & Hn & Hid).
    exists n. split; [lia|]. split; [|exact Hid].
    replace (j - i) with (S (j - S i)) by lia. exact Hn.
  - destruct (String.eqb_spec (node_id n0) s) as [Hid|]; [|discriminate].
    inversion H; subst j. exists n0. rewrite Nat.sub_diag. auto.
Qed.

Lemma findLastIndex_some s ns n : forall i,
  In n ns -> node_id n = s -> exists j, findLastIndex s ns i = Some j.
Proof.
  induction ns as [|n0 ns IH]; intros i Hin Hid; [contradiction|]. simpl.
  destruct (findLastIndex s ns (S i)) as [j'|] eqn:E; [eauto|].
  destruct Hin as [->|Hin].
  - rewrite Hid, String.eqb_refl. eauto.
  - destruct (IH (S i) Hin Hid) as (j & Hj). congruence.
Qed.

Lemma NoDup_map_eq {A B} (f : A -> B) l a b :
  NoDup (map f l) -> In a l -> In b l -> f a = f b -> a = b.
Proof.
  induction l as [|x l IH]; simpl; intros Hnd Ha Hb E; [contradiction|].
  inversion Hnd as [|? ? Hnotin Hnd']; subst.
  destruct Ha as [->|Ha], Hb as [->|Hb]; auto.
  - exfalso. apply Hnotin. rewrite E. now apply in_map.
  - exfalso. apply Hnotin. rewrite <- E. now apply in_map.
Qed.

(** With distinct identities, an identity resolves to the node that
    carries it, whichever way the link end is written. *)
Lemma resolveEnd_node ns n :
  NoDup (map node_id ns) -> In n ns ->
  exists e, resolveEnd ns (EndId (node_id n)) = Some e /\
            endNode ns e = Some n.
Proof.
  intros Hnd Hin. simpl.
  destruct (findLastIndex_some (node_id n) ns n 0 Hin eq_refl) as (j & Hj).
  rewrite Hj. simpl. eexists. split; [reflexivity|]. simpl.
  destruct (findLastIndex_nth _ _ _ _ Hj) as (n' & _ & Hn' & Hid).
  rewrite Nat.sub_0_r in Hn'. rewrite Hn'. f_equal.
  apply (NoDup_map_eq node_id ns); auto. now apply nth_error_In with j.
Qed.

Lemma renderLinks_spec S ns ls :
  (forall l, In l ls -> exists l', renderLink S ns l = Some l') ->
  exists ls', renderLinks S ns ls = Some ls' /\
              forall l', In l' ls' ->
                exists l, In l ls /\ renderLink S ns l = Some l'.
Proof.
  induction ls as [|l ls IH]; intros H; simpl.
  - exists []. split; [reflexivity | intros l' []].
  - destruct (H l (or_introl eq_refl)) as (l1 & Hl1). rewrite Hl1.
    destruct IH as (ls' & Hls' & Hall); [intros; apply H; now right|].
    rewrite Hls'. eexists. split; [reflexivity|].
    intros l' [<-|Hin]; [exists l; auto|].
    destruct (Hall l' Hin) as (l0 & Hl0 & Hr). exists l0. auto.
Qed.

(** Which nodes the links of a graph built by the second revision name:
    a branch link leads to an item, a reference link joins two items. *)
Lemma Manual_built_link_items doc orc l :
  let g := graph (Manual.buildGraphData doc orc) in
  In l (links g) ->
  exists a b, In a (nodes g) /\ In b (nodes g) /\
              link_source l = EndId (node_id a) /\
              link_target l = EndId (node_id b) /\
              link_strokeOpacity l = 0%Q /\
              match link_type l with
              | branch => isItem b
              | reference => isItem a /\ isItem b
              | spine => True
              end.
Proof.
  intros g Hin.
  destruct (buildGraphData_spec Manual.variant doc orc Manual_ok)
    as (Hn & Hl & _).
  fold (Manual.buildGraphData doc orc) in Hn, Hl. fold g in Hn, Hl.
  rewrite Hl in Hin. apply in_app_or in Hin. destruct Hin as [Hin|Hin].
  - destruct (in_categoryLinks _ _ _ _ _ _ _ _ Hin)
      as (k & c & b & j & _ & _ & Hcat & [->|(n & Hn' & Hitem & ->)]).
    + eexists (centerNode Manual.variant _ _), _. rewrite Hn.
      split; [now left|]. split; [right; exact Hcat|].
      repeat split; reflexivity.
    + eexists _, n. rewrite Hn. split; [right; exact Hcat|].
      split; [now right|]. repeat split; try reflexivity.
      destruct (in_itemNodes _ _ _ _ _ _ _ _ Hitem) as (j' & e & _ & ->).
      simpl. apply itemNode_type, Manual_ok.
  - assert (Hop : link_strokeOpacity l = 0%Q /\ link_type l = reference).
    { simpl in Hin. unfold Manual.referenceLinks in Hin.
      apply in_flat_map in Hin. destruct Hin as (A & _ & Hin).
      unfold Manual.linksOfNode in Hin.
      destruct (node_type A); try contradiction.
      destruct (node_linksTo A); [|contradiction].
      apply in_flat_map in Hin. destruct Hin as (t & _ & Hin).
      destruct (JS.get _ t); [|contradiction].
      destruct (negb _); [|contradiction].
      destruct Hin as [<-|[]]. split; reflexivity. }
    destruct Hop as (Hop & Ty).
    destruct (refs_ends Manual.variant Manual_ok _ _ _ Hin)
      as (_ & a0 & b0 & _ & _ & Hs & Ht).
    assert (Href : hasReferenceLink g (node_id a0) (node_id b0)).
    { unfold hasReferenceLink. rewrite Hl, map_app. apply in_or_app. right.
      apply in_map_iff. exists l. split; [|exact Hin].
      unfold linkTriple. now rewrite Hs, Ht, Ty. }
    apply Manual_reference_links in Href.
    destruct Href as (A & B & _ & HA & HB & TyA & TyB & EA & EB & _).
    exists A, B. rewrite Ty, Hs, Ht, EA, EB. auto 10.
Qed.

(** The state [initGraph] leaves, for a page whose identities are
    distinct, satisfies the visibility invariant. *)
Lemma Manual_init_visibility doc orc :
  NoDup (nodeIds (graph (Manual.buildGraphData doc orc))) ->
  let st := fst (initGraph Manual.variant Manual_style doc orc) in
  endsAreItems st /\ visibilityInvariant st.
Proof.
  intros Hnd st. unfold st, initGraph.
  destruct (container doc) as [c|];
    [|split; intros l Hin; unfold linksOf in Hin; simpl in Hin; contradiction].
  fold (Manual.buildGraphData doc orc).
  set (g := graph (Manual.buildGraphData doc orc)) in *.
  unfold renderGraph. cbn [graphData].
  assert (Hres : forall l, In l (links g) ->
            exists l' a b,
              renderLink Manual_style (nodes g) l = Some l' /\
              link_type l' = link_type l /\
              endNode (nodes g) (link_source l') = Some a /\
              endNode (nodes g) (link_target l') = Some b /\
              In a (nodes g) /\ In b (nodes g) /\
              match link_type l with
              | branch => isItem b /\ link_strokeOpacity l' = 0%Q
              | reference =>
                  (isItem a /\ isItem b) /\ link_strokeOpacity l' = 0%Q
              | spine => True
              end).
  { intros l Hin.
    destruct (Manual_built_link_items doc orc l Hin)
      as (a & b & Ha & Hb & Hs & Ht & _ & Hty).
    fold g in Ha, Hb.
    destruct (resolveEnd_node (nodes g) a Hnd Ha) as (ea & Hea & Hna).
    destruct (resolveEnd_node (nodes g) b Hnd Hb) as (eb & Heb & Hnb).
    unfold renderLink. rewrite Hs, Ht, Hea, Heb.
    eexists _, a, b. split; [reflexivity|]. simpl.
    repeat split; auto.
    destruct (link_type l); auto. }
  destruct (renderLinks_spec Manual_style (nodes g) (links g)) as (ls' & -> & Hall).
  { intros l Hin. destruct (Hres l Hin) as (l' & _ & _ & Hl' & _). eauto. }
  unfold endsAreItems, visibilityInvariant, nodesOf, linksOf. simpl.
  split; intros l' Hin'; destruct (Hall l' Hin') as (l & Hin & Hr);
    destruct (Hres l Hin)
      as (l1 & a & b & Hr1 & Ety & Hna & Hnb & Ha & Hb & Hty);
    rewrite Hr in Hr1; inversion Hr1; subst l1; rewrite Ety;
    destruct (link_type l); auto.
  - destruct Hty. exists b. auto.
  - destruct Hty as ((Hia & Hib) & _). split; [exists a | exists b]; auto.
  - destruct Hty as (Hib & Hop). unfold visible, unhidden.
    rewrite Hop, Hnb. simpl.
    rewrite (built_items_hidden _ doc orc b Manual_ok Hb Hib). simpl.
    split; [intros H; now apply Qlt_0_0 in H | discriminate].
  - destruct Hty as ((Hia & Hib) & Hop). unfold visible, unhidden.
    rewrite Hop, Hna. simpl.
    rewrite (built_items_hidden _ doc orc a Manual_ok Ha Hia). simpl.
    split; [intros H; now apply Qlt_0_0 in H | intros [? _]; discriminate].
Qed.

(** Of the values last set: in the second revision (lines 1970-3897),
    whose hover handler selects links by their opacity, they satisfy
    the visibility invariant at every reachable state.  This is a fact
    about the values the handlers set, not about the attribute of an
    element while a transition is running. *)
Lemma Manual_visibility_invariant doc orc es :
  NoDup (nodeIds (graph (Manual.buildGraphData doc orc))) ->
  let st := run Manual_style es
                (fst (initGraph Manual.variant Manual_style doc orc)) in
  endsAreItems st /\ visibilityInvariant st.
Proof.
  intros Hnd st. apply run_visibility.
  - apply Manual_style_positive.
  - apply Manual_style_hover.
  - now apply Manual_init_visibility.
Qed.

(* ----------------------------------------------------------------- *)
(** ** The properties on the sample page *)

(** A click on the talk of the sample page shows items of two
    categories: more than one category is reached by an item click. *)
Lemma item_click_shows_two_categories :
  ~ atMostOneCategory (fst (clickNode Auto_style noOffset 6 st_kafka_auto)).
Proof.
  intros H.
  assert (E : exists n m,
            In n (nodesOf (fst (clickNode Auto_style noOffset 6 st_kafka_auto)))
            /\ In m (nodesOf (fst (clickNode Auto_style noOffset 6 st_kafka_auto)))
            /\ isItem n /\ isItem m
            /\ node_hidden n = false /\ node_hidden m = false
            /\ node_category n <> node_category m).
  { vm_compute. do 2 eexists.
    split; [do 4 right; left; reflexivity|].
    split; [do 6 right; left; reflexivity|].
    repeat split; try reflexivity. discriminate. }
  destruct E as (n & m & Hn & Hm & Tn & Tm & Vn & Vm & Hne).
  exact (Hne (H n m Hn Hm Tn Tm Vn Vm)).
Qed.

Lemma sample_run_noItemClick :
  noItemClick Auto_style
    [ClickNode noOffset 1; MouseOver 1; ClickNode noOffset 3; ClickBackground]
    st_kafka_auto.
Proof. cbn [noItemClick]. repeat split; vm_compute; reflexivity. Qed.

Lemma C3_witness :
  atMostOneCategory st_kafka_auto /\
  noItemClick Auto_style
    [ClickNode noOffset 1; MouseOver 1; ClickNode noOffset 3; ClickBackground]
    st_kafka_auto /\
  atMostOneCategory
    (run Auto_style
       [ClickNode noOffset 1; MouseOver 1; ClickNode noOffset 3;
        ClickBackground]
       st_kafka_auto).
Proof.
  split; [exact (allHidden_atMostOne _ st_kafka_auto_hidden)|].
  split; [exact sample_run_noItemClick|].
  exact (proj1 (C3_single_open_category Auto_style _ st_kafka_auto
                  (allHidden_atMostOne _ st_kafka_auto_hidden)
                  sample_run_noItemClick)).
Defined.








(* ----------------------------------------------------------------- *)
(** ** Slugs and reference tokens *)

Lemma dashRuns_chars s : forall b, slugChars (dashRuns s b) = true.
Proof.
  induction s as [|c s IH]; intros b; simpl; [reflexivity|].
  destruct (isSlugChar c) eqn:E; simpl.
  - now rewrite E, IH.
  - destruct b; simpl; apply IH.
Qed.

Lemma slugChar_not_dash c : isSlugChar c = true -> (c =? "-")%char = false.
Proof.
  intros H. destruct (c =? "-")%char eqn:E; [|reflexivity].
  apply Ascii.eqb_eq in E. subst c. discriminate.
Qed.

Lemma dashRuns_single s : forall b, singleDashes (dashRuns s b) b = true.
Proof.
  induction s as [|c s IH]; intros b; simpl; [reflexivity|].
  destruct (isSlugChar c) eqn:E; simpl.
  - rewrite (slugChar_not_dash c E). apply IH.
  - destruct b; simpl; [apply IH|]. apply IH.
Qed.

Lemma singleDashes_weaken s : singleDashes s true = true -> singleDashes s false = true.
Proof. destruct s as [|c s]; simpl; [auto|]. destruct (c =? "-")%char; simpl; [discriminate|auto]. Qed.

Lemma stripLeading_chars s : slugChars s = true -> slugChars (stripLeadingDashes s) = true.
Proof.
  induction s as [|c s IH]; simpl; [auto|]. intros H.
  apply andb_true_iff in H as [H1 H2].
  destruct (c =? "-")%char eqn:E; [auto|]. simpl. rewrite E.
  apply andb_true_iff; split; assumption.
Qed.

Lemma stripLeading_single s b :
  singleDashes s b = true -> singleDashes (stripLeadingDashes s) false = true.
Proof.
  revert b. induction s as [|c s IH]; intros b; simpl; [auto|].
  destruct (c =? "-")%char eqn:E.
  - intros H. apply andb_true_iff in H as [_ H]. now apply IH in H.
  - intros H. simpl. now rewrite E.
Qed.

Lemma stripLeading_start s : startsWithDash (stripLeadingDashes s) = false.
Proof.
  induction s as [|c s IH]; simpl; [reflexivity|].
  destruct (c =? "-")%char eqn:E; [exact IH|]. simpl. exact E.
Qed.

Lemma stripTrailing_chars s : slugChars s = true -> slugChars (stripTrailingDashes s) = true.
Proof.
  induction s as [|c s IH]; simpl; [auto|]. intros H.
  apply andb_true_iff in H as [H1 H2].
  destruct ((c =? "-")%char && (stripTrailingDashes s =? "")); [reflexivity|].
  simpl. apply andb_true_iff; split; auto.
Qed.

Lemma singleDashes_any s b : singleDashes s true = true -> singleDashes s b = true.
Proof. destruct b; [auto|apply singleDashes_weaken]. Qed.

Lemma stripTrailing_single s : forall b,
  singleDashes s b = true -> singleDashes (stripTrailingDashes s) b = true.
Proof.
  induction s as [|c s IH]; intros b; simpl; [auto|].
  destruct (c =? "-")%char eqn:E; simpl.
  - intros H. apply andb_true_iff in H as [H1 H2].
    destruct (stripTrailingDashes s =? ""); [reflexivity|].
    simpl. rewrite E, H1. simpl. now apply IH.
  - intros H. simpl. rewrite E. now apply IH.
Qed.

Lemma stripTrailing_start s :
  startsWithDash s = false -> startsWithDash (stripTrailingDashes s) = false.
Proof.
  destruct s as [|c s]; simpl; [auto|]. intros H. rewrite H. simpl. exact H.
Qed.

Lemma stripTrailing_end s : endsWithDash (stripTrailingDashes s) = false.
Proof.
  induction s as [|c s IH]; simpl; [reflexivity|].
  destruct (stripTrailingDashes s) as [|c' r] eqn:E.
  - rewrite String.eqb_refl, andb_true_r.
    destruct (c =? "-")%char eqn:Ec; simpl; [reflexivity | exact Ec].
  - replace (String c' r =? "") with false by reflexivity.
    rewrite andb_false_r. simpl. simpl in IH. exact IH.
Qed.

Lemma slugify_isSlug text : isSlug (slugify text).
Proof.
  unfold slugify.
  set (d := dashRuns (JS.toLowerCase text) false).
  set (s := stripTrailingDashes (stripLeadingDashes d)).
  destruct (JS.truthy s) eqn:T.
  - unfold isSlug. repeat split.
    + apply truthy_true. exact T.
    + apply stripTrailing_chars, stripLeading_chars, dashRuns_chars.
    + apply stripTrailing_single, (stripLeading_single d false), dashRuns_single.
    + apply stripTrailing_start, stripLeading_start.
    + apply stripTrailing_end.
  - unfold isSlug. repeat split; try reflexivity. discriminate.
Qed.

Lemma slugChars_lower s : slugChars s = true -> JS.toLowerCase s = s.
Proof.
  induction s as [|c s IH]; simpl; [auto|]. intros H.
  apply andb_true_iff in H as [H1 H2]. rewrite (IH H2). f_equal.
  unfold JS.toLowerChar. destruct (JS.isUpper c) eqn:U; [|reflexivity].
  exfalso. unfold isSlugChar, JS.isLower, JS.isDigit, JS.isUpper, JS.inRange in *.
  apply orb_true_iff in H1 as [H1|H1].
  - apply orb_true_iff in H1 as [H1|H1];
      apply andb_true_iff in H1 as [A B]; apply andb_true_iff in U as [C D];
      apply Nat.leb_le in A, B, C, D; lia.
  - apply Ascii.eqb_eq in H1. subst c. discriminate.
Qed.

Lemma dashRuns_fixed s : forall b,
  slugChars s = true -> singleDashes s b = true -> dashRuns s b = s.
Proof.
  induction s as [|c s IH]; intros b; simpl; [auto|]. intros H1 H2.
  apply andb_true_iff in H1 as [Hc Hs].
  destruct (isSlugChar c) eqn:E.
  - rewrite (slugChar_not_dash c E) in H2. now rewrite IH.
  - simpl in Hc. rewrite Hc in H2. apply andb_true_iff in H2 as [Hb H2].
    apply negb_true_iff in Hb. subst b. apply Ascii.eqb_eq in Hc. subst c.
    now rewrite IH.
Qed.

Lemma stripLeading_fixed s : startsWithDash s = false -> stripLeadingDashes s = s.
Proof. destruct s as [|c s]; simpl; [auto|]. now intros ->. Qed.

Lemma stripTrailing_fixed s : endsWithDash s = false -> stripTrailingDashes s = s.
Proof.
  induction s as [|c s IH]; simpl; [auto|]. destruct s as [|c' r].
  - simpl. intros ->. reflexivity.
  - intros H. rewrite (IH H). replace (String c' r =? "") with false by reflexivity.
    now rewrite andb_false_r.
Qed.

Lemma slugify_slug s : isSlug s -> slugify s = s.
Proof.
  intros (Hne & Hc & Hd & Hs & He). unfold slugify.
  rewrite (slugChars_lower s Hc), (dashRuns_fixed s false Hc Hd).
  rewrite (stripLeading_fixed s Hs), (stripTrailing_fixed s He).
  apply truthy_true in Hne. now rewrite Hne.
Qed.

(** X2. [slugify] is idempotent: a slug is left as it is. *)
Theorem X2_slugify_idempotent :
  forall text : string, slugify (slugify text) = slugify text.
Proof. intros text. apply slugify_slug, slugify_isSlug. Qed.

(** X1. [slugify] returns a slug whatever the text: never empty, made
    of lower-case letters, digits and dashes only, with no dash at
    either end and no two dashes in a row. *)
Theorem X1_slugify_returns_slug : forall text : string, isSlug (slugify text).
Proof. exact slugify_isSlug. Qed.

Lemma string_of_uint_digits d :
  Auto.allDigits (NilEmpty.string_of_uint d) = true.
Proof. induction d; simpl; auto. Qed.

Lemma to_uint_nonnil n : Nat.to_uint n <> Decimal.Nil.
Proof.
  rewrite <- (Unsigned.of_to n) at 1. rewrite Unsigned.to_of.
  apply DecimalFacts.unorm_nonnil.
Qed.

Lemma numToString_truthy i : JS.truthy (JS.numToString i) = true.
Proof.
  unfold JS.numToString. pose proof (to_uint_nonnil i) as H.
  destruct (Nat.to_uint i); [contradiction | reflexivity ..].
Qed.

Lemma allDigits_dash s t : Auto.allDigits (s +:+ String "-" t) = false.
Proof.
  induction s as [|c s IH]; simpl; [reflexivity|].
  rewrite IH. apply andb_false_r.
Qed.

Lemma stripIndexSuffix_append s num :
  Auto.allDigits num = true -> JS.truthy num = true ->
  Auto.stripIndexSuffix (s +:+ "-" +:+ num) = s.
Proof.
  intros Hd Ht. change ("-" +:+ num) with (String "-" num).
  induction s as [|c s IH]; simpl.
  - now rewrite Ht, Hd.
  - rewrite allDigits_dash, andb_false_r. now rewrite IH.
Qed.

Lemma stripCategoryPrefix_key k rest :
  In k (map fst Auto.sectionConfig) ->
  Auto.stripCategoryPrefix ["work"; "opensource"; "talks"; "contact"]
    (k +:+ "-" +:+ rest) = rest.
Proof.
  simpl. intros [<-|[<-|[<-|[<-|[]]]]]; reflexivity.
Qed.

Lemma extractReferenceId_derivedId k label i :
  In k (map fst Auto.sectionConfig) ->
  Auto.extractReferenceId (derivedId k label i) = slugify label.
Proof.
  intros Hk. unfold Auto.extractReferenceId, derivedId.
  rewrite (stripCategoryPrefix_key k _ Hk).
  rewrite stripIndexSuffix_append.
  - apply slugChars_lower. apply slugify_isSlug.
  - apply string_of_uint_digits.
  - apply numToString_truthy.
Qed.

(** X3. In the revision with automatic references, an item that
    carries neither a [data-graph-id] nor a [data-graph-ref] is
    referred to by the slug of its label: taking the reference token
    out of the derived identity removes exactly the category key and
    the position that [collectItemData] put around the slug. *)
Theorem X3_reference_token_is_label_slug :
  forall (k : string) (e : ItemEl) (i : nat),
    In k (map fst Auto.sectionConfig) ->
    truthyOpt (graphId e) = false ->
    truthyOpt (graphRef e) = false ->
    node_referenceId (Auto.collectItemData k e i)
    = Some (slugify (itemLabel e)).
Proof.
  intros k e i Hk Hid Href. unfold Auto.collectItemData. simpl. f_equal.
  assert (E : itemId k e i = derivedId k (itemLabel e) i).
  { unfold itemId, JS.orElse. destruct (graphId e) as [s|]; [|reflexivity].
    simpl in Hid. now rewrite Hid. }
  rewrite E, (extractReferenceId_derivedId k _ i Hk).
  unfold JS.orElse. destruct (graphRef e) as [s|]; [|reflexivity].
  simpl in Href. now rewrite Href.
Qed.

Lemma X3_witness :
  In "talks" (map fst Auto.sectionConfig) /\
  truthyOpt (graphId (plainItem "Kafka deep dive")) = false /\
  truthyOpt (graphRef (plainItem "Kafka deep dive")) = false /\
  node_referenceId (Auto.collectItemData "talks" (plainItem "Kafka deep dive") 0)
  = Some "kafka-deep-dive".
Proof.
  split; [simpl; tauto|]. split; [reflexivity|]. split; [reflexivity|].
  exact (X3_reference_token_is_label_slug "talks" (plainItem "Kafka deep dive") 0
           (or_intror (or_intror (or_introl eq_refl))) eq_refl eq_refl).
Defined.

(* ----------------------------------------------------------------- *)
(** ** Shape of a built graph *)

Lemma itemNodes_hierarchy V orc k x y items (Hok : VariantOk V) : forall i,
  map (branchLinkTo k) (itemNodes V orc k x y items i)
  = map hierarchyLink (itemNodes V orc k x y items i).
Proof.
  unfold itemNodes. induction items as [|e items IH]; intros i; simpl;
    [reflexivity|].
  rewrite IH. f_equal. unfold hierarchyLink, branchLinkTo.
  now rewrite itemNode_type, itemNode_category.
Qed.

Lemma categoryLinks_hierarchy V orc cx cy cats (Hok : VariantOk V) :
  forall idx doc,
    categoryLinks V orc cx cy cats idx doc
    = map hierarchyLink (categoryNodes V orc cx cy cats idx doc).
Proof.
  induction cats as [|[k c] cats IH]; intros idx doc; simpl; [reflexivity|].
  destruct (querySection doc k) as [block|]; [|apply IH].
  simpl. rewrite map_app, IH, itemNodes_hierarchy by exact Hok. reflexivity.
Qed.

Lemma hierarchyLink_not_reference n : isReference (hierarchyLink n) = false.
Proof.
  unfold hierarchyLink. destruct (node_type n); try reflexivity.
  destruct (node_category n); reflexivity.
Qed.

Lemma filter_all {A} (f : A -> bool) l :
  (forall a, In a l -> f a = true) -> filter f l = l.
Proof.
  induction l as [|a l IH]; simpl; intros H; [reflexivity|].
  rewrite (H a) by now left. f_equal. apply IH. intros; apply H; now right.
Qed.

Lemma filter_none {A} (f : A -> bool) l :
  (forall a, In a l -> f a = false) -> filter f l = [].
Proof.
  induction l as [|a l IH]; simpl; intros H; [reflexivity|].
  rewrite (H a) by now left. apply IH. intros; apply H; now right.
Qed.

Lemma built_treeShaped V doc orc :
  VariantOk V -> treeShaped (graph (buildGraphData V doc orc)).
Proof.
  intros Hok. destruct (buildGraphData_spec V doc orc Hok) as (Hn & Hl & _).
  eexists _, _. split; [exact Hn|]. split; [reflexivity|]. split.
  - intros n Hin Hc.
    destruct (in_categoryNodes _ _ _ _ _ _ _ _ Hin)
      as (k & c & b & j & _ & _ & [->|Hi] & _); [discriminate|].
    destruct (in_itemNodes _ _ _ _ _ _ _ _ Hi) as (j' & e & _ & ->).
    rewrite itemNode_type in Hc by exact Hok. discriminate.
  - rewrite Hl, filter_app, categoryLinks_hierarchy by exact Hok.
    rewrite filter_all, filter_none; [apply app_nil_r| |].
    + intros l Hin. destruct (refs_ends V Hok _ _ _ Hin) as (Ty & _).
      unfold isReference. now rewrite Ty.
    + intros l Hin. apply in_map_iff in Hin. destruct Hin as (n & <- & _).
      now rewrite hierarchyLink_not_reference.
Qed.

(** X4. The graph either revision builds is a tree with reference links
    added: the center comes first and is the only center; the spine and
    branch links are, in node order, exactly one per other node, from
    the center to each category node and from a category's node to each
    of its items. *)
Theorem X4_built_graph_is_tree :
  forall (doc : Document) (orc : Oracle),
    treeShaped (graph (Auto.buildGraphData doc orc)) /\
    treeShaped (graph (Manual.buildGraphData doc orc)).
Proof.
  intros doc orc. split.
  - apply built_treeShaped, Auto_ok.
  - apply built_treeShaped, Manual_ok.
Qed.

Lemma includes_false arr k : JS.includes arr k = false <-> ~ In k arr.
Proof.
  split.
  - intros H Hin. apply includes_In in Hin. congruence.
  - intros H. destruct (JS.includes arr k) eqn:E; [|reflexivity].
    apply includes_In in E. contradiction.
Qed.

Lemma filter_inCategory_items V orc k k' x y items (Hok : VariantOk V) :
  forall i,
    List.length (filter (inCategory k') (itemNodes V orc k x y items i))
    = if k =? k' then List.length items else 0.
Proof.
  unfold itemNodes. induction items as [|e items IH]; intros i.
  - simpl. now destruct (k =? k').
  - cbn [mapi filter]. unfold inCategory at 1.
    rewrite itemNode_category by exact Hok. cbn [optString_eqb].
    specialize (IH (S i)). destruct (k =? k'); cbn [List.length];
      now rewrite IH.
Qed.

Lemma population_categoryNodes V orc cx cy cats (Hok : VariantOk V) k :
  NoDup (map fst cats) ->
  forall idx doc,
    List.length (filter (inCategory k) (categoryNodes V orc cx cy cats idx doc))
    = population (map fst cats) doc k.
Proof.
  unfold population.
  induction cats as [|[k0 c] cats IH]; intros Hnd idx doc; simpl;
    [reflexivity|].
  inversion Hnd as [|? ? Hnotin Hnd']; subst.
  destruct (String.eqb_spec k k0) as [->|Hne].
  - simpl. assert (E : JS.includes (map fst cats) k0 = false)
      by now apply includes_false.
    specialize (IH Hnd' (S idx) doc). rewrite E in IH.
    destruct (querySection doc k0) as [block|]; [|exact IH].
    simpl. unfold inCategory at 1. simpl. rewrite String.eqb_refl. simpl.
    rewrite filter_app, length_app, IH, Nat.add_0_r.
    rewrite filter_inCategory_items by exact Hok.
    now rewrite String.eqb_refl.
  - simpl. destruct (querySection doc k0) as [block|]; [|apply IH; exact Hnd'].
    simpl. unfold inCategory at 1. simpl.
    apply String.eqb_neq in Hne. rewrite String.eqb_sym, Hne. 
    rewrite filter_app, length_app, filter_inCategory_items by exact Hok.
    rewrite String.eqb_sym, Hne. simpl. apply IH; exact Hnd'.
Qed.

Lemma built_population V doc orc k :
  VariantOk V ->
  List.length (filter (inCategory k) (nodes (graph (buildGraphData V doc orc))))
  = population (map fst (sectionConfig V)) doc k.
Proof.
  intros Hok. destruct (buildGraphData_spec V doc orc Hok) as (Hn & _).
  rewrite Hn. simpl.
  apply population_categoryNodes; [exact Hok | apply (config_keys_distinct V Hok)].
Qed.

(** X5. Every content block becomes exactly one node.  For each key,
    the nodes of that category number one more than the content blocks
    of its section when the key is configured and the page has its
    section block; a configured key whose block is missing, and a
    section whose key is not configured, contribute no node. *)
Theorem X5_one_node_per_content_block :
  forall (doc : Document) (orc : Oracle) (k : string),
    List.length (filter (inCategory k)
                   (nodes (graph (Auto.buildGraphData doc orc))))
    = population (map fst Auto.sectionConfig) doc k /\
    List.length (filter (inCategory k)
                   (nodes (graph (Manual.buildGraphData doc orc))))
    = population (map fst Manual.sectionConfig) doc k.
Proof.
  intros doc orc k. split.
  - apply (built_population Auto.variant), Auto_ok.
  - apply (built_population Manual.variant), Manual_ok.
Qed.

(* ----------------------------------------------------------------- *)
(** ** The index of content blocks *)

Lemma forEachItem_dom V orc k x y items : forall i acc,
  let r := forEachItem V orc k x y items i acc in
  b_domIndex (fst r)
  = fold_left (fun m e => JS.set m (idOf e) e) (snd r) (b_domIndex acc).
Proof.
  induction items as [|e items IH]; intros i acc; simpl; [reflexivity|].
  match goal with
  | |- context [forEachItem V orc k x y items (S i) ?a] =>
      specialize (IH (S i) a); destruct (forEachItem V orc k x y items (S i) a)
        as [acc2 rest'] eqn:E
  end.
  simpl in IH |- *. exact IH.
Qed.

Lemma visitedItems_agree cats : forall d1 d2,
  agreeOn (map fst cats) d1 d2 -> visitedItems cats d1 = visitedItems cats d2.
Proof.
  induction cats as [|[k c] cats IH]; intros d1 d2 H; simpl; [reflexivity|].
  rewrite (H k) by now left.
  rewrite (IH d1 d2) by (intros k' Hk'; apply H; now right).
  reflexivity.
Qed.

Lemma forEachCategory_dom V orc cx cy cats :
  VariantOk V -> NoDup (map fst cats) ->
  forall idx doc acc,
    b_domIndex (fst (forEachCategory V orc cx cy cats idx doc acc))
    = fold_left (fun m e => JS.set m (idOf e) e) (visitedItems cats doc)
        (b_domIndex acc).
Proof.
  intros Hok. induction cats as [|[k c] cats IH]; intros Hnd idx doc acc; simpl;
    [reflexivity|].
  inversion Hnd as [|? ? Hnotin Hnd']; subst.
  destruct (querySection doc k) as [block|] eqn:Hq; [|now apply IH].
  pose proof (forEachItem_spec V orc k
                (cx + cosAngle orc idx * CATEGORY_RADIUS)%Q
                (cy + sinAngle orc idx * CATEGORY_RADIUS)%Q
                (blockItems block) 0) as Hitems.
  pose proof (forEachItem_dom V orc k
                (cx + cosAngle orc idx * CATEGORY_RADIUS)%Q
                (cy + sinAngle orc idx * CATEGORY_RADIUS)%Q
                (blockItems block) 0) as Hdom.
  match goal with
  | |- context [forEachItem V orc k ?x ?y (blockItems block) 0 ?a] =>
      specialize (Hitems a); specialize (Hdom a);
      destruct (forEachItem V orc k x y (blockItems block) 0 a)
        as [acc2 items'] eqn:E
  end.
  simpl in Hitems, Hdom. destruct Hitems as (_ & _ & _ & Hs).
  rewrite IH by exact Hnd'. rewrite Hdom, fold_left_app. f_equal.
  - apply visitedItems_agree. intros k' Hk'. unfold querySection. simpl.
    apply get_replaceSection_other. intros ->. contradiction.
  - f_equal. rewrite Hs. unfold stampItems. apply mapi_ext.
    intros. now rewrite (collect_id V Hok).
Qed.

Lemma fold_setEl_get l : forall m id e,
  JS.get (fold_left (fun m e => JS.set m (idOf e) e) l m) id = Some e ->
  (In e l /\ idOf e = id) \/ JS.get m id = Some e.
Proof.
  induction l as [|a l IH]; intros m id e H; simpl in H; [now right|].
  destruct (IH _ _ _ H) as [[Hin Hid]|Hm]; [left; split; [now right|exact Hid]|].
  destruct (String.eqb_spec (idOf a) id) as [<-|Hne].
  - rewrite get_set_same in Hm. inversion Hm; subst. left. split; [now left|reflexivity].
  - rewrite get_set_other in Hm by exact Hne. now right.
Qed.

Lemma fold_setEl_has l : forall m id,
  (In id (map idOf l) \/ JS.get m id <> None) ->
  JS.get (fold_left (fun m e => JS.set m (idOf e) e) l m) id <> None.
Proof.
  induction l as [|a l IH]; intros m id H; simpl.
  - destruct H as [[]|H]; exact H.
  - apply IH. destruct H as [[<-|H]|H].
    + right. rewrite get_set_same. discriminate.
    + now left.
    + right. destruct (String.eqb_spec (idOf a) id) as [<-|Hne].
      * rewrite get_set_same. discriminate.
      * now rewrite get_set_other by exact Hne.
Qed.

Lemma stampItems_ids V orc k x y items (Hok : VariantOk V) :
  map idOf (stampItems k items) = map node_id (itemNodes V orc k x y items 0).
Proof.
  unfold stampItems, itemNodes. rewrite !mapi_map. apply mapi_ext.
  intros j e. rewrite itemNode_id by exact Hok. reflexivity.
Qed.

Lemma visitedItems_ids V orc cx cy cats (Hok : VariantOk V) : forall idx doc,
  map idOf (visitedItems cats doc)
  = map node_id (filter (isType item) (categoryNodes V orc cx cy cats idx doc)).
Proof.
  induction cats as [|[k c] cats IH]; intros idx doc; simpl; [reflexivity|].
  destruct (querySection doc k) as [block|]; [|apply IH].
  cbn [filter isType categoryNode node_type NodeType_eqb].
  rewrite filter_app, filter_item_itemNodes by apply (collect_type V Hok).
  rewrite !map_app, (IH (S idx) doc).
  now rewrite (stampItems_ids V orc k (seedX orc cx idx) (seedY orc cy idx)).
Qed.

Lemma in_visitedItems cats e : forall doc,
  In e (visitedItems cats doc) ->
  exists k block, In k (map fst cats) /\ querySection doc k = Some block /\
                  In e (stampItems k (blockItems block)).
Proof.
  induction cats as [|[k c] cats IH]; intros doc H; simpl in H; [contradiction|].
  destruct (querySection doc k) as [block|] eqn:Hq.
  - apply in_app_or in H. destruct H as [H|H].
    + exists k, block. simpl. auto.
    + destruct (IH _ H) as (k' & b' & Hk' & Hq' & He). exists k', b'. simpl. auto.
  - destruct (IH _ H) as (k' & b' & Hk' & Hq' & He). exists k', b'. simpl. auto.
Qed.

Lemma stampItems_graphId k items e :
  In e (stampItems k items) -> graphId e = Some (idOf e).
Proof.
  unfold stampItems. intros H. apply in_mapi in H.
  destruct H as (j & e0 & _ & ->). reflexivity.
Qed.

Lemma built_domIndex V doc orc :
  VariantOk V ->
  domIndex (buildGraphData V doc orc)
  = fold_left (fun m e => JS.set m (idOf e) e)
      (visitedItems (sectionConfig V) doc) [].
Proof.
  intros Hok. unfold buildGraphData.
  destruct (centerOf (container doc)) as [cx cy].
  pose proof (forEachCategory_dom V orc cx cy (sectionConfig V) Hok
                (config_keys_distinct V Hok) 0 doc
                (mkBuild [centerNode V cx cy] [] [] [])) as H.
  destruct (forEachCategory V orc cx cy (sectionConfig V) 0 doc
              (mkBuild [centerNode V cx cy] [] [] [])) as [acc doc'].
  exact H.
Qed.

Lemma built_domIndexFaithful V doc orc :
  VariantOk V -> domIndexFaithful (buildGraphData V doc orc).
Proof.
  intros Hok.
  destruct (buildGraphData_spec V doc orc Hok) as (Hn & _ & _ & _ & Hin & _).
  pose proof (built_domIndex V doc orc Hok) as Hd.
  set (r := buildGraphData V doc orc) in *.
  set (cx := fst (centerOf (container doc))) in *.
  set (cy := snd (centerOf (container doc))) in *.
  pose proof (visitedItems_ids V orc cx cy (sectionConfig V) Hok 0 doc) as Hids.
  split.
  - intros n Hnin Hty. rewrite Hn in Hnin.
    destruct Hnin as [<-|Hnin]; [discriminate|].
    assert (Hid : In (node_id n) (map idOf (visitedItems (sectionConfig V) doc))).
    { rewrite Hids. apply in_map. apply filter_In. split; [exact Hnin|].
      unfold isType. now rewrite Hty. }
    pose proof (fold_setEl_has _ [] _ (or_introl Hid)) as Hhas.
    rewrite <- Hd in Hhas.
    destruct (JS.get (domIndex r) (node_id n)) as [e|]; [eauto|contradiction].
  - intros id e Hget. rewrite Hd in Hget.
    destruct (fold_setEl_get _ _ _ _ Hget) as [[He Hid]|Hm]; [|discriminate].
    destruct (in_visitedItems _ _ _ He) as (k & block & Hk & Hq & Hst).
    split; [|split].
    + rewrite <- Hid. now apply (stampItems_graphId k (blockItems block)).
    + assert (Hid' : In id (map idOf (visitedItems (sectionConfig V) doc)))
        by (rewrite <- Hid; now apply in_map).
      rewrite Hids in Hid'. apply in_map_iff in Hid'.
      destruct Hid' as (n & En & Hnin). apply filter_In in Hnin.
      destruct Hnin as (Hnin & Hty). exists n. rewrite Hn.
      split; [now right|]. split; [|exact En].
      unfold isType in Hty. destruct (node_type n); try discriminate. reflexivity.
    + exists k, (stampBlock k block). rewrite (Hin k Hk), Hq. split; [reflexivity|].
      exact Hst.
Qed.

(** X6. After a build by either revision, [domIndex] leads from every
    item node to a content block: each item node's identity is a key,
    and each entry maps an identity to a content block of the page that
    now carries this identity in [data-graph-id] and from which an item
    node of this identity was built. *)
Theorem X6_domIndex_leads_to_content_blocks :
  forall (doc : Document) (orc : Oracle),
    domIndexFaithful (Auto.buildGraphData doc orc) /\
    domIndexFaithful (Manual.buildGraphData doc orc).
Proof.
  intros doc orc. split.
  - apply (built_domIndexFaithful Auto.variant), Auto_ok.
  - apply (built_domIndexFaithful Manual.variant), Manual_ok.
Qed.

(* ----------------------------------------------------------------- *)
(** ** Rendering a built graph *)

Lemma resolveEnd_hasNodeId g e :
  hasNodeId g e ->
  exists a e', e = EndId a /\ resolveEnd (nodes g) e = Some e' /\
               resolvedTo (nodes g) e' a.
Proof.
  intros (n & Hin & ->). 
  destruct (findLastIndex_some (node_id n) (nodes g) n 0 Hin eq_refl) as (j & Hj).
  exists (node_id n), (EndObj j). split; [reflexivity|]. simpl. rewrite Hj.
  split; [reflexivity|].
  destruct (findLastIndex_nth _ _ _ _ Hj) as (n' & _ & Hn' & Hid).
  rewrite Nat.sub_0_r in Hn'. exists j, n'. auto.
Qed.

Lemma renderLinks_total S g ls :
  (forall l, In l ls ->
     hasNodeId g (link_source l) /\ hasNodeId g (link_target l)) ->
  exists ls', renderLinks S (nodes g) ls = Some ls' /\
              Forall2 (renderedFrom S (nodes g)) ls ls'.
Proof.
  induction ls as [|l ls IH]; intros H; simpl.
  - exists []. split; [reflexivity | constructor].
  - destruct (H l (or_introl eq_refl)) as (Hs & Ht).
    destruct (resolveEnd_hasNodeId g _ Hs) as (a & ea & Ea & Ra & Pa).
    destruct (resolveEnd_hasNodeId g _ Ht) as (b & eb & Eb & Rb & Pb).
    destruct IH as (ls' & Hls' & Hall); [intros; apply H; now right|].
    unfold renderLink. rewrite Ra, Rb, Hls'.
    eexists. split; [reflexivity|]. constructor; [|exact Hall].
    unfold renderedFrom. simpl. split; [reflexivity|].
    split; [exists a; auto|]. split; [exists b; auto|].
    destruct (link_type l); reflexivity.
Qed.

Lemma init_completes V S doc orc : VariantOk V -> initCompletes V S doc orc.
Proof.
  intros Hok. unfold initCompletes, initGraph.
  destruct (container doc) as [c|] eqn:C.
  - pose proof (built_graphInvariant V doc orc Hok) as (_ & _ & Hl).
    destruct (renderLinks_total S (graph (buildGraphData V doc orc)) _ Hl)
      as (ls' & Hr & Hall).
    unfold renderGraph. cbn [graphData]. rewrite Hr. cbn [fst snd].
    split; [reflexivity|]. split; [discriminate|]. intros _.
    split; [reflexivity|]. split; [|split; [reflexivity|split; [reflexivity|exact Hall]]].
    split; [reflexivity|].
    intros n Hn Hi. unfold nodesOf in Hn. simpl in Hn.
    now apply (built_items_hidden V doc orc).
  - simpl. split; [reflexivity|]. split; [reflexivity|]. intros H. now elim H.
Qed.

(** X7. [initGraph] returns: always in the revision with author-listed
    references, and in the revision with automatic references on a page
    whose reference tokens are free of regular-expression
    metacharacters (another token can leave [findReferences] with a
    malformed expression, which throws).  Without the container nothing
    is built.  With it, the state holds the nodes of the build; every
    link has each end replaced by a node object of the identity written
    there, spine links at rest and branch and reference links
    invisible; the layout runs, no subgraph is open and every item is
    hidden. *)
Theorem X7_initGraph_renders_the_build :
  forall (doc : Document) (orc : Oracle),
    (literalTokens (Auto.buildGraphData doc orc) ->
     initCompletes Auto.variant Auto_style doc orc) /\
    initCompletes Manual.variant Manual_style doc orc.
Proof.
  intros doc orc. split; [intros _|]; apply init_completes;
    [apply Auto_ok | apply Manual_ok].
Qed.

Lemma X7_witness :
  literalTokens (Auto.buildGraphData doc_kafka orc_zero) /\
  initCompletes Auto.variant Auto_style doc_kafka orc_zero /\
  map (fun l => (link_source l, link_target l))
      (linksOf (fst (initGraph Auto.variant Auto_style doc_kafka orc_zero)))
  = [ (EndObj 0, EndObj 1); (EndObj 1, EndObj 2); (EndObj 0, EndObj 3);
      (EndObj 3, EndObj 4); (EndObj 0, EndObj 5); (EndObj 5, EndObj 6);
      (EndObj 2, EndObj 4); (EndObj 6, EndObj 4) ].
Proof.
  split; [exact doc_kafka_literalTokens|].
  split; [exact (proj1 (X7_initGraph_renders_the_build doc_kafka orc_zero)
                   doc_kafka_literalTokens)|].
  vm_compute. reflexivity.
Defined.

(* ----------------------------------------------------------------- *)
(** ** What no handler changes *)

Lemma linkTriple_setOpacity l o : linkTriple (setOpacity l o) = linkTriple l.
Proof. reflexivity. Qed.

Lemma linkTriple_restyle S ns l : linkTriple (restyleLink S ns l) = linkTriple l.
Proof. unfold restyleLink. destruct (link_type l); reflexivity. Qed.

Lemma linkTriple_rest S ns l : linkTriple (restLink S ns l) = linkTriple l.
Proof. unfold restLink. destruct (link_type l); reflexivity. Qed.

Lemma toggleSubgraph_structure S categoryKey st :
  map skey (nodesOf (fst (toggleSubgraph S categoryKey st))) = map skey (nodesOf st) /\
  map linkTriple (linksOf (fst (toggleSubgraph S categoryKey st)))
  = map linkTriple (linksOf st).
Proof.
  destruct (graphData st) as [g|] eqn:G;
    [|unfold toggleSubgraph; rewrite G; auto].
  destruct (simulation st) eqn:Sim;
    [|unfold toggleSubgraph; rewrite G, Sim; auto].
  destruct (toggleSubgraph_spec S categoryKey st g G Sim) as (Hg & _).
  unfold nodesOf, linksOf. rewrite Hg, G. simpl. split.
  - apply map_key_hideItems. reflexivity.
  - rewrite map_map. apply map_ext. intros l. apply linkTriple_restyle.
Qed.

Lemma showMultipleSubgraphs_structure S categories st :
  map skey (nodesOf (fst (showMultipleSubgraphs S categories st)))
  = map skey (nodesOf st) /\
  map linkTriple (linksOf (fst (showMultipleSubgraphs S categories st)))
  = map linkTriple (linksOf st).
Proof.
  destruct (graphData st) as [g|] eqn:G;
    [|unfold showMultipleSubgraphs; rewrite G; auto].
  destruct (simulation st) eqn:Sim;
    [|unfold showMultipleSubgraphs; rewrite G, Sim; auto].
  destruct (showMultipleSubgraphs_spec S categories st g G Sim) as (Hg & _).
  unfold nodesOf, linksOf. rewrite Hg, G. simpl. split.
  - apply map_key_hideItems. reflexivity.
  - rewrite map_map. apply map_ext. intros l. apply linkTriple_restyle.
Qed.

Lemma reshuffle_structure offset st :
  map skey (nodesOf (reshuffleGraph offset st)) = map skey (nodesOf st) /\
  map linkTriple (linksOf (reshuffleGraph offset st)) = map linkTriple (linksOf st).
Proof.
  destruct (nodesOf_reshuffle offset st) as (f & Hf & Hn & Hl & _).
  rewrite Hn, Hl. split; [|reflexivity].
  apply map_key_mapi. intros i n. apply Hf.
Qed.

Lemma linksOf_withLinks_map st (f : list Node -> Link -> Link) :
  (forall ns l, linkTriple (f ns l) = linkTriple l) ->
  map linkTriple (linksOf (withLinks st (fun ns ls => map (f ns) ls)))
  = map linkTriple (linksOf st).
Proof.
  intros H. unfold withLinks, linksOf.
  destruct (graphData st) as [g|] eqn:G; simpl; [|now rewrite G].
  rewrite map_map. apply map_ext. intros l. apply H.
Qed.

Lemma handle_structure S e st :
  map skey (nodesOf (fst (handle S e st))) = map skey (nodesOf st) /\
  map linkTriple (linksOf (fst (handle S e st))) = map linkTriple (linksOf st).
Proof.
  destruct e; simpl.
  - (* ClickNode *)
    unfold clickNode. destruct (graphData st) as [g|] eqn:G; [|auto].
    destruct (nth_error (nodes g) i) as [d|]; [|auto].
    destruct (node_type d).
    + destruct (reshuffle_structure offset st) as (Hn & Hl).
      destruct (activeTruthy _); [|simpl; auto].
      destruct (toggleSubgraph_structure S None (reshuffleGraph offset st))
        as (Hn' & Hl').
      rewrite Hn', Hl'. auto.
    + apply toggleSubgraph_structure.
    + apply showMultipleSubgraphs_structure.
  - (* ClickBackground *)
    unfold clickBackground. destruct (activeTruthy _); [|auto].
    destruct (graphData st) as [g|] eqn:G.
    + unfold nodesOf, linksOf. rewrite (proj1 (zoomToFit_graph _)), G. simpl.
      split.
      * apply map_key_hideItems. reflexivity.
      * rewrite map_map. apply map_ext. intros l.
        destruct (link_type l) eqn:Ty; reflexivity.
    + unfold nodesOf, linksOf. simpl. rewrite G. auto.
  - (* MouseOver *)
    unfold mouseover. destruct (graphData st) as [g|] eqn:G; [|auto].
    destruct (nth_error (nodes g) i) as [d|]; [|auto].
    destruct (node_hidden d); [auto|].
    rewrite nodesOf_withLinks. split; [reflexivity|].
    apply (linksOf_withLinks_map st
             (fun ns l => if isConnected ns d l && hoverSelects S l
                          then setOpacity l (hoverOpacity S) else l)).
    intros ns l. destruct (_ && _); reflexivity.
  - (* MouseOut *)
    unfold mouseout. rewrite nodesOf_withLinks. split; [reflexivity|].
    apply (linksOf_withLinks_map st (restLink S)). intros; apply linkTriple_rest.
  - unfold dragStart. rewrite linksOf_withNodes.
    rewrite nodesOf_withNodes by (destruct i; reflexivity).
    split; [apply map_key_updateAt; reflexivity | reflexivity].
  - unfold dragMove. rewrite linksOf_withNodes.
    rewrite nodesOf_withNodes by (destruct i; reflexivity).
    split; [apply map_key_updateAt; reflexivity | reflexivity].
  - unfold dragEnd. rewrite linksOf_withNodes.
    rewrite nodesOf_withNodes by (destruct i; reflexivity).
    split; [|reflexivity]. apply map_key_updateAt.
    intros n. destruct (isType center n); reflexivity.
  - unfold simulationTick. rewrite linksOf_withNodes.
    rewrite nodesOf_withNodes by reflexivity.
    split; [apply map_key_mapi; reflexivity | reflexivity].
  - unfold onResize. destruct (simulation st).
    + rewrite linksOf_withNodes. rewrite nodesOf_withNodes by reflexivity.
      split; [|reflexivity].
      rewrite map_key_pinFirstCenter by reflexivity. reflexivity.
    + auto.
  - unfold nodesOf, linksOf. now rewrite (proj1 (timerRecenter_graph st)).
  - unfold nodesOf, linksOf. now rewrite (proj1 (zoomToVisibleNodes_graph st)).
  - unfold nodesOf, linksOf. now rewrite (proj1 (zoomToFit_graph st)).
Qed.

Lemma run_structure S es : forall st,
  map skey (nodesOf (run S es st)) = map skey (nodesOf st) /\
  map linkTriple (linksOf (run S es st)) = map linkTriple (linksOf st).
Proof.
  unfold run. induction es as [|e es IH]; intros st; simpl; [auto|].
  destruct (IH (fst (handle S e st))) as (Hn & Hl).
  destruct (handle_structure S e st) as (Hn' & Hl').
  rewrite Hn, Hl, Hn', Hl'. auto.
Qed.

(** X8. No run of events changes the structure of the graph: the
    sequence of nodes keeps its identities, kinds and categories, and
    the sequence of links its ends and kinds.  Handlers move, pin, hide
    and restyle; they never add, remove, reorder or rename. *)
Theorem X8_events_keep_graph_structure :
  forall (S : Style) (es : list Event) (st : State),
    map skey (nodesOf (run S es st)) = map skey (nodesOf st) /\
    map linkTriple (linksOf (run S es st)) = map linkTriple (linksOf st).
Proof. intros S es st. apply run_structure. Qed.

(* ----------------------------------------------------------------- *)
(** ** Where a reframe puts the nodes *)







(* ----------------------------------------------------------------- *)
(** ** Reached states *)

Lemma toggleSubgraph_frame S categoryKey st :
  simulation (fst (toggleSubgraph S categoryKey st)) = simulation st /\
  st_container (fst (toggleSubgraph S categoryKey st)) = st_container st.
Proof.
  destruct (graphData st) as [g|] eqn:G;
    [|unfold toggleSubgraph; rewrite G; auto].
  destruct (simulation st) eqn:Sim;
    [|unfold toggleSubgraph; rewrite G, Sim; auto].
  destruct (toggleSubgraph_spec S categoryKey st g G Sim) as (_ & _ & Hc & Hs).
  auto.
Qed.

Lemma showMultipleSubgraphs_frame S categories st :
  simulation (fst (showMultipleSubgraphs S categories st)) = simulation st /\
  st_container (fst (showMultipleSubgraphs S categories st)) = st_container st.
Proof.
  unfold showMultipleSubgraphs. destruct (graphData st) as [g|]; [|auto].
  destruct (simulation st) eqn:Sim; simpl; auto.
Qed.

Lemma withNodes_frame st f :
  simulation (withNodes st f) = simulation st /\
  st_container (withNodes st f) = st_container st.
Proof. unfold withNodes. destruct (graphData st); auto. Qed.

Lemma withLinks_frame st f :
  simulation (withLinks st f) = simulation st /\
  st_container (withLinks st f) = st_container st.
Proof. unfold withLinks. destruct (graphData st); auto. Qed.

Lemma handle_frame S e st :
  simulation (fst (handle S e st)) = simulation st /\
  (st_container st <> None -> st_container (fst (handle S e st)) <> None).
Proof.
  assert (same : forall st', simulation st' = simulation st /\
                             st_container st' = st_container st ->
            simulation st' = simulation st /\
            (st_container st <> None -> st_container st' <> None))
    by (intros st' (-> & ->); auto).
  destruct e; simpl.
  - apply same. unfold clickNode. destruct (graphData st) as [g|] eqn:G; [|auto].
    destruct (nth_error (nodes g) i) as [d|]; [|auto].
    destruct (node_type d).
    + destruct (nodesOf_reshuffle offset st) as (f & _ & _ & _ & _ & Hs & Hc).
      destruct (activeTruthy _); [|simpl; auto].
      destruct (toggleSubgraph_frame S None (reshuffleGraph offset st)) as (-> & ->).
      auto.
    + apply toggleSubgraph_frame.
    + apply showMultipleSubgraphs_frame.
  - apply same. unfold clickBackground. destruct (activeTruthy _); [|auto].
    destruct (graphData st) as [g|]; [|simpl; auto].
    match goal with
    | |- context [zoomToFit ?s] => destruct (zoomToFit_graph s) as (_ & _ & -> & ->)
    end. auto.
  - apply same. unfold mouseover. destruct (graphData st) as [g|] eqn:G; [|auto].
    destruct (nth_error (nodes g) i) as [d|]; [|auto].
    destruct (node_hidden d); [auto | apply withLinks_frame].
  - apply same. apply withLinks_frame.
  - apply same. apply withNodes_frame.
  - apply same. apply withNodes_frame.
  - apply same. apply withNodes_frame.
  - apply same. apply withNodes_frame.
  - unfold onResize. destruct (simulation st) eqn:Sim.
    + match goal with
      | |- context [withNodes ?s ?f] =>
          destruct (withNodes_frame s f) as (-> & ->)
      end.
      simpl. split; [reflexivity|]. destruct (st_container st); [discriminate|auto].
    + simpl. split; [reflexivity|]. destruct (st_container st); [discriminate|auto].
  - apply same. destruct (timerRecenter_graph st) as (_ & _ & -> & ->). auto.
  - apply same. destruct (zoomToVisibleNodes_graph st) as (_ & _ & -> & ->). auto.
  - apply same. destruct (zoomToFit_graph st) as (_ & _ & -> & ->). auto.
Qed.

Lemma run_frame S es : forall st,
  simulation (run S es st) = simulation st /\
  (st_container st <> None -> st_container (run S es st) <> None).
Proof.
  unfold run. induction es as [|e es IH]; intros st; simpl; [auto|].
  destruct (IH (fst (handle S e st))) as (Hs & Hc).
  destruct (handle_frame S e st) as (Hs' & Hc').
  rewrite Hs, Hs'. auto.
Qed.

Lemma reached_frame V S doc orc es :
  VariantOk V -> container doc <> None ->
  simulation (reached V S doc orc es) = true /\
  st_container (reached V S doc orc es) <> None.
Proof.
  intros Hok Hc. unfold reached.
  destruct (run_frame S es (fst (initGraph V S doc orc))) as (Hs & Hcont).
  destruct (init_completes V S doc orc Hok) as (_ & _ & Hinit).
  destruct (Hinit Hc) as (Sim & _ & Ec & _).
  rewrite Hs, Sim. split; [reflexivity|]. apply Hcont. now rewrite Ec.
Qed.

Lemma reached_center_first V S doc orc es :
  VariantOk V -> container doc <> None ->
  exists c rest,
    nodesOf (reached V S doc orc es) = c :: rest /\
    node_id c = "center" /\ node_type c = center /\
    (forall n, In n rest -> node_type n <> center).
Proof.
  intros Hok Hc. unfold reached.
  destruct (run_structure S es (fst (initGraph V S doc orc))) as (Hk & _).
  destruct (init_completes V S doc orc Hok) as (_ & _ & Hinit).
  destruct (Hinit Hc) as (_ & _ & _ & En & _). rewrite En in Hk.
  destruct (buildGraphData_spec V doc orc Hok) as (Hn & _).
  destruct (built_treeShaped V doc orc Hok) as (c0 & rest0 & E0 & Ty0 & Hrest0 & _).
  rewrite E0 in Hk.
  destruct (nodesOf (run S es (fst (initGraph V S doc orc)))) as [|c rest];
    [discriminate|].
  simpl in Hk. inversion Hk as [[Hid Hty Hcat Hrest]].
  exists c, rest. split; [reflexivity|].
  rewrite Hn in E0. inversion E0; subst c0.
  split; [rewrite Hid; reflexivity|]. split; [rewrite Hty; reflexivity|].
  intros n Hin Hcn.
  destruct (in_same_keys skey rest0 rest n Hrest Hin) as (m & Hm & Em).
  apply (Hrest0 m Hm). unfold skey in Em. congruence.
Qed.

Lemma resize_recenters V S doc orc es w h :
  VariantOk V -> container doc <> None ->
  st_container (onResize w h (reached V S doc orc es)) = Some (w, h) /\
  centerAtViewportCenter (onResize w h (reached V S doc orc es)).
Proof.
  intros Hok Hc.
  destruct (reached_frame V S doc orc es Hok Hc) as (Sim & Hcont).
  destruct (reached_center_first V S doc orc es Hok Hc)
    as (c & rest & En & Hid & Hty & Hrest).
  set (st := reached V S doc orc es) in *.
  assert (Ec : st_container (onResize w h st) = Some (w, h)).
  { unfold onResize. rewrite Sim.
    match goal with
    | |- st_container (withNodes ?s ?f) = _ =>
        rewrite (proj2 (withNodes_frame s f))
    end. simpl. destruct (st_container st); [reflexivity | now elim Hcont]. }
  split; [exact Ec|].
  intros n Hn Tyn. rewrite Ec. unfold onResize in Hn. rewrite Sim in Hn.
  rewrite nodesOf_withNodes in Hn by reflexivity.
  replace (nodesOf _) with (c :: rest) in Hn by (rewrite <- En; reflexivity).
  simpl in Hn. rewrite Hid in Hn. simpl in Hn.
  destruct Hn as [<-|Hn]; [|now elim (Hrest n Hn)].
  unfold isPinnedAt. simpl. split; reflexivity.
Qed.

(** X10. A resize brings the center back.  In any state reached from
    [initGraph] on a page with the container, the [resize] listener
    records the new dimensions and leaves the center pinned at the
    center of the resized container, wherever a drag had left it. *)
Theorem X10_resize_recenters_the_pin :
  forall (doc : Document) (orc : Oracle) (es : list Event) (w h : Q),
    container doc <> None ->
    (st_container (onResize w h (reached Auto.variant Auto_style doc orc es))
     = Some (w, h) /\
     centerAtViewportCenter
       (onResize w h (reached Auto.variant Auto_style doc orc es))) /\
    (st_container (onResize w h (reached Manual.variant Manual_style doc orc es))
     = Some (w, h) /\
     centerAtViewportCenter
       (onResize w h (reached Manual.variant Manual_style doc orc es))).
Proof.
  intros doc orc es w h Hc. split; apply resize_recenters; auto using Auto_ok, Manual_ok.
Qed.

Lemma X10_witness :
  container doc_kafka <> None /\
  ~ centerAtViewportCenter
      (reached Manual.variant Manual_style doc_kafka orc_zero dragCenterAway) /\
  centerAtViewportCenter
    (onResize 800 600
       (reached Manual.variant Manual_style doc_kafka orc_zero dragCenterAway)).
Proof.
  assert (H : container doc_kafka <> None) by (vm_compute; discriminate).
  split; [exact H|]. split.
  - intros Hc.
    assert (E : exists c,
              In c (nodesOf (reached Manual.variant Manual_style doc_kafka
                               orc_zero dragCenterAway)) /\
              node_type c = center /\ node_fx c = Some 10%Q).
    { vm_compute. eexists. split; [left; reflexivity|]. split; reflexivity. }
    destruct E as (c & Hin & Ty & Hfx).
    specialize (Hc c Hin Ty). unfold isPinnedAt in Hc. rewrite Hfx in Hc.
    destruct (node_fy c); [|exact Hc]. destruct Hc as (Hx & _).
    vm_compute in Hx. discriminate.
  - exact (proj2 (proj2 (X10_resize_recenters_the_pin doc_kafka orc_zero
                           dragCenterAway 800 600 H))).
Defined.

(* ----------------------------------------------------------------- *)
(** ** Visibility in the revision with author-listed references *)

Lemma doc_kafka_manual_NoDup :
  NoDup (nodeIds (graph (Manual.buildGraphData doc_kafka orc_zero))).
Proof.
  vm_compute. repeat constructor; simpl; intuition discriminate.
Qed.

(* ----------------------------------------------------------------- *)
(** ** Leaving a node *)

Lemma restLink_setOpacity S ns l o :
  restLink S ns (setOpacity l o) = restLink S ns l.
Proof. unfold restLink. simpl. destruct (link_type l); reflexivity. Qed.

Lemma restLink_idem S ns l : restLink S ns (restLink S ns l) = restLink S ns l.
Proof. unfold restLink. destruct (link_type l) eqn:Ty; simpl; rewrite Ty; reflexivity. Qed.

Lemma mouseout_withLinks S j st f :
  (forall ns l, restLink S ns (f ns l) = restLink S ns l) ->
  mouseout S j (withLinks st (fun ns ls => map (f ns) ls)) = mouseout S j st.
Proof.
  intros H. unfold mouseout, withLinks.
  destruct (graphData st) as [g|] eqn:G; simpl; [|now rewrite G].
  do 2 f_equal. f_equal. rewrite map_map. apply map_ext. intros l. apply H.
Qed.

Lemma mouseout_absorbs_mouseover S i j st :
  mouseout S j (mouseover S i st) = mouseout S j st.
Proof.
  unfold mouseover. destruct (graphData st) as [g|] eqn:G; [|reflexivity].
  destruct (nth_error (nodes g) i) as [d|]; [|reflexivity].
  destruct (node_hidden d); [reflexivity|].
  apply (mouseout_withLinks S j st
           (fun ns l => if isConnected ns d l && hoverSelects S l
                        then setOpacity l (hoverOpacity S) else l)).
  intros ns l. destruct (_ && _); [apply restLink_setOpacity | reflexivity].
Qed.

Lemma mouseout_idempotent S i j st :
  mouseout S j (mouseout S i st) = mouseout S i st.
Proof.
  unfold mouseout at 2.
  rewrite (mouseout_withLinks S j st (restLink S)) by (intros; apply restLink_idem).
  reflexivity.
Qed.

(** X12. Leaving a node resets the links whatever was hovered before:
    [mouseout] after [mouseover] gives the state [mouseout] alone
    gives, and a second [mouseout] changes nothing.  What a hover
    highlights, a hidden branch link included, does not outlast it. *)
Theorem X12_mouseout_resets_links :
  forall (S : Style) (i j : nat) (st : State),
    mouseout S j (mouseover S i st) = mouseout S j st /\
    mouseout S j (mouseout S i st) = mouseout S i st.
Proof.
  intros S i j st. split;
    [apply mouseout_absorbs_mouseover | apply mouseout_idempotent].
Qed.

(* ----------------------------------------------------------------- *)
(** ** Two ways of closing *)

Lemma close_links_agree ns ls :
  (forall l, In l ls ->
     match link_type l with
     | branch => isItemEnd ns (link_target l)
     | reference => isItemEnd ns (link_source l) /\ isItemEnd ns (link_target l)
     | spine => True
     end) ->
  forall S,
  map (restyleLink S (hideItems (fun _ => true) ns)) ls
  = map (fun l => match link_type l with
                  | branch | reference => setOpacity l 0
                  | spine => l
                  end) ls.
Proof.
  intros H S. apply map_ext_in. intros l Hin. specialize (H l Hin).
  unfold restyleLink. destruct (link_type l).
  - reflexivity.
  - now rewrite (hidden_end_not_shown _ _ H).
  - destruct H as (Hs & _). now rewrite (hidden_end_not_shown _ _ Hs).
Qed.

Lemma background_click_is_toggle_null S st g :
  graphData st = Some g -> simulation st = true -> endsAreItems st ->
  activeTruthy (activeSubgraph st) = true ->
  clickBackground st = toggleSubgraph S None st.
Proof.
  intros G Sim Hends Hact. unfold clickBackground, toggleSubgraph.
  rewrite Hact, Sim, G.
  assert (E : (if sameActive (activeSubgraph st) None then None else None)
              = @None string) by (destruct (sameActive _ _); reflexivity).
  rewrite E. cbn [truthyOpt activeOfKey].
  unfold endsAreItems, linksOf, nodesOf in Hends. rewrite G in Hends.
  now rewrite (close_links_agree (nodes g) (links g) Hends S).
Qed.

(** X13. Two ways of closing agree.  In the revision of lines
    1970-3897, on a page with the container and distinct node
    identities, in any state reached from [initGraph] with a subgraph
    open, a click on the background has exactly the effect of
    [toggleSubgraph(null)], the call a click on the center makes: same
    hidden flags, same link opacities, same reframe, same
    completion. *)
Theorem X13_background_click_is_toggle_null :
  forall (doc : Document) (orc : Oracle) (es : list Event),
    container doc <> None ->
    NoDup (nodeIds (graph (Manual.buildGraphData doc orc))) ->
    activeTruthy
      (activeSubgraph (reached Manual.variant Manual_style doc orc es)) = true ->
    clickBackground (reached Manual.variant Manual_style doc orc es)
    = toggleSubgraph Manual_style None
        (reached Manual.variant Manual_style doc orc es).
Proof.
  intros doc orc es Hc Hnd Hact.
  destruct (reached_frame Manual.variant Manual_style doc orc es Manual_ok Hc)
    as (Sim & _).
  destruct (reached_center_first Manual.variant Manual_style doc orc es
              Manual_ok Hc) as (c & rest & En & _).
  destruct (Manual_visibility_invariant doc orc es Hnd) as (Hends & _).
  unfold nodesOf in En.
  destruct (graphData (reached Manual.variant Manual_style doc orc es))
    as [g|] eqn:G; [|discriminate].
  now apply (background_click_is_toggle_null Manual_style _ g).
Qed.

Lemma X13_witness :
  container doc_kafka <> None /\
  NoDup (nodeIds (graph (Manual.buildGraphData doc_kafka orc_zero))) /\
  activeTruthy
    (activeSubgraph
       (reached Manual.variant Manual_style doc_kafka orc_zero
          [ClickNode noOffset 1])) = true /\
  clickBackground
    (reached Manual.variant Manual_style doc_kafka orc_zero
       [ClickNode noOffset 1])
  = toggleSubgraph Manual_style None
      (reached Manual.variant Manual_style doc_kafka orc_zero
         [ClickNode noOffset 1]).
Proof.
  assert (H1 : container doc_kafka <> None) by (vm_compute; discriminate).
  assert (H3 : activeTruthy
                 (activeSubgraph
                    (reached Manual.variant Manual_style doc_kafka orc_zero
                       [ClickNode noOffset 1])) = true)
    by (vm_compute; reflexivity).
  split; [exact H1|]. split; [exact doc_kafka_manual_NoDup|].
  split; [exact H3|].
  exact (X13_background_click_is_toggle_null doc_kafka orc_zero
           [ClickNode noOffset 1] H1 doc_kafka_manual_NoDup H3).
Defined.

(* ----------------------------------------------------------------- *)
(** ** The accordion *)

Lemma headers_cons b bs :
  Accordion.installHeaderListeners (b :: bs) = Returned <->
  (exists a, Accordion.header b = Some a) /\
  Accordion.installHeaderListeners bs = Returned.
Proof.
  unfold Accordion.installHeaderListeners. simpl.
  destruct (Accordion.header b) as [a|]; simpl.
  - split; [intros H; split; [eauto | exact H] | intros [_ H]; exact H].
  - split; [discriminate | intros [[a Ha] _]; discriminate].
Qed.

Lemma closeAll_loaded bs :
  Accordion.installHeaderListeners bs = Returned ->
  Accordion.closeAll bs = (map closeBlock bs, Returned).
Proof.
  induction bs as [|b bs IH]; intros H; simpl; [reflexivity|].
  apply headers_cons in H. destruct H as ((a & Ha) & H).
  rewrite Ha, (IH H). reflexivity.
Qed.

Lemma query_same_markup bs bs' k :
  map Accordion.dataSection bs' = map Accordion.dataSection bs ->
  Accordion.querySectionBlock bs' k = Accordion.querySectionBlock bs k.
Proof.
  revert bs'. induction bs as [|b bs IH]; intros [|b' bs'] H; simpl in *;
    try discriminate; [reflexivity|].
  inversion H as [[Hb Hr]]. rewrite Hb, (IH bs' Hr). reflexivity.
Qed.

Lemma query_nth bs k : forall i,
  Accordion.querySectionBlock bs k = Some i ->
  exists b, nth_error bs i = Some b /\ Accordion.dataSection b = Some k.
Proof.
  induction bs as [|b bs IH]; intros i H; simpl in H; [discriminate|].
  destruct (optString_eqb (Accordion.dataSection b) (Some k)) eqn:E.
  - inversion H; subst i. exists b. split; [reflexivity|].
    now apply optString_eqb_eq.
  - destruct (Accordion.querySectionBlock bs k) as [j|]; [|discriminate].
    inversion H; subst i. simpl. now apply IH.
Qed.

Lemma map_updateAt_same {A B} (f : A -> B) (g : A -> A) l :
  (forall a, f (g a) = f a) -> forall i, map f (updateAt i g l) = map f l.
Proof.
  intros H. induction l as [|a l IH]; intros [|i]; simpl; try reflexivity.
  - now rewrite H.
  - now rewrite IH.
Qed.

Lemma nth_updateAt_eq {A} (g : A -> A) l : forall i a,
  nth_error l i = Some a -> nth_error (updateAt i g l) i = Some (g a).
Proof.
  induction l as [|x l IH]; intros [|i] a H; simpl in *; try discriminate.
  - now inversion H.
  - now apply IH.
Qed.

Lemma nth_updateAt_neq {A} (g : A -> A) l : forall i j,
  i <> j -> nth_error (updateAt i g l) j = nth_error l j.
Proof.
  induction l as [|x l IH]; intros [|i] [|j] H; simpl; try reflexivity.
  - now elim H.
  - apply IH. congruence.
Qed.

(** The page a call of [toggleSection] that finds its block leaves. *)
Lemma toggleSection_found id force upd p i :
  loaded p ->
  Accordion.querySectionBlock (Accordion.sectionBlocks p) id = Some i ->
  let bs := Accordion.sectionBlocks p in
  let o := shouldOpen force bs i in
  Accordion.toggleSection id force upd p
  = (Accordion.mkPage
       (if o then updateAt i openedBlock (map closeBlock bs)
        else map closeBlock bs)
       (if o then Some id else None)
       (Accordion.svg p)
       (Accordion.highlightCategory p (if o then Some id else None))
       (if upd then (if o then id else "") else Accordion.hash p),
     Returned, o).
Proof.
  intros Hl Hq bs o. unfold Accordion.toggleSection. rewrite Hq.
  fold bs. rewrite (closeAll_loaded bs Hl).
  destruct (query_nth _ _ _ Hq) as (b & Hb & _). fold bs in Hb.
  assert (Eo : (match force with
                | Some f => f
                | None => negb match nth_error bs i with
                               | Some block => Accordion.active block
                               | None => false
                               end
                end) = o) by reflexivity.
  rewrite Eo. destruct o; [|destruct upd; reflexivity].
  rewrite nth_error_map, Hb. simpl.
  assert (E : updateAt i (fun _ => Accordion.mkBlock (Accordion.dataSection b)
                                     true (Some (Some "true")))
                       (map closeBlock bs)
              = updateAt i openedBlock (map closeBlock bs)).
  { clear -Hb. revert i Hb. induction bs as [|x l IH]; intros [|i] Hb;
      simpl in *; try discriminate.
    - inversion Hb; subst. reflexivity.
    - f_equal. now apply IH. }
  rewrite E. destruct upd; reflexivity.
Qed.

Lemma loaded_closed bs :
  Accordion.installHeaderListeners (map closeBlock bs) = Returned.
Proof.
  induction bs as [|b bs IH]; [reflexivity|]. simpl map.
  apply headers_cons. split; [eexists; reflexivity | exact IH].
Qed.

Lemma loaded_updateAt_open bs i :
  Accordion.installHeaderListeners bs = Returned ->
  Accordion.installHeaderListeners (updateAt i openedBlock bs) = Returned.
Proof.
  revert i. induction bs as [|b bs IH]; intros [|i] H; simpl; auto;
    apply headers_cons in H; destruct H as (Ha & H); apply headers_cons.
  - split; [eexists; reflexivity | exact H].
  - split; [exact Ha | now apply IH].
Qed.

Lemma onlyOpen_closed bs : onlyOpen (map closeBlock bs) None.
Proof.
  intros j b Hb. rewrite nth_error_map in Hb.
  destruct (nth_error bs j); [|discriminate]. inversion Hb; subst. simpl.
  split; discriminate.
Qed.

Lemma onlyOpen_opened bs i b0 :
  nth_error bs i = Some b0 ->
  onlyOpen (updateAt i openedBlock (map closeBlock bs)) (Some i).
Proof.
  intros H0 j b Hb. destruct (Nat.eq_dec i j) as [<-|Hne].
  - rewrite (nth_updateAt_eq openedBlock _ i (closeBlock b0)) in Hb
      by (rewrite nth_error_map, H0; reflexivity).
    inversion Hb; subst. simpl. tauto.
  - rewrite nth_updateAt_neq in Hb by exact Hne.
    rewrite nth_error_map in Hb.
    destruct (nth_error bs j); [|discriminate]. inversion Hb; subst. simpl.
    split; [discriminate | intros E; inversion E; contradiction].
Qed.

Lemma ariaAgrees_closed bs : ariaAgrees (map closeBlock bs).
Proof.
  intros b Hb. apply in_map_iff in Hb. destruct Hb as (b0 & <- & _). reflexivity.
Qed.

Lemma in_updateAt_cases {A} (g : A -> A) l a : forall i,
  In a (updateAt i g l) -> In a l \/ exists x, In x l /\ a = g x.
Proof.
  induction l as [|x l IH]; intros [|i] H; simpl in *; try contradiction.
  - destruct H as [<-|H]; [right; exists x; auto | left; auto].
  - destruct H as [<-|H]; [left; auto|].
    destruct (IH _ H) as [H'|(y & Hy & ->)]; [left; auto | right; exists y; auto].
Qed.

Lemma ariaAgrees_opened bs i :
  ariaAgrees (updateAt i openedBlock (map closeBlock bs)).
Proof.
  intros b Hb. destruct (in_updateAt_cases _ _ _ _ Hb) as [H|(x & _ & ->)].
  - now apply ariaAgrees_closed in H.
  - reflexivity.
Qed.

Lemma markup_closed bs :
  map Accordion.dataSection (map closeBlock bs) = map Accordion.dataSection bs.
Proof. rewrite map_map. reflexivity. Qed.

Lemma markup_opened bs i :
  map Accordion.dataSection (updateAt i openedBlock (map closeBlock bs))
  = map Accordion.dataSection bs.
Proof.
  rewrite map_updateAt_same by reflexivity. apply markup_closed.
Qed.

(** A call that finds its block leaves the accordion settled, whatever
    it was before. *)
Lemma toggleSection_settles id force upd p i :
  loaded p ->
  Accordion.querySectionBlock (Accordion.sectionBlocks p) id = Some i ->
  let p' := fst (fst (Accordion.toggleSection id force upd p)) in
  loaded p' /\ settled p' /\ sameMarkup p p' /\
  snd (fst (Accordion.toggleSection id force upd p)) = Returned /\
  onlyOpen (Accordion.sectionBlocks p')
    (if shouldOpen force (Accordion.sectionBlocks p) i then Some i else None) /\
  Accordion.activeCategory p'
  = (if shouldOpen force (Accordion.sectionBlocks p) i then Some id else None).
Proof.
  intros Hl Hq. rewrite (toggleSection_found id force upd p i Hl Hq). cbn [fst snd].
  destruct (query_nth _ _ _ Hq) as (b0 & Hb0 & _).
  unfold loaded, settled, sameMarkup, namedBlock.
  destruct (shouldOpen force (Accordion.sectionBlocks p) i); cbn.
  - rewrite (query_same_markup _ _ id (markup_opened _ i)), Hq.
    pose proof (onlyOpen_opened _ i b0 Hb0) as Hopen.
    split; [apply loaded_updateAt_open, loaded_closed|].
    split; [split; [discriminate | split; [exact Hopen | apply ariaAgrees_opened]]|].
    split; [apply markup_opened|]. split; [reflexivity|].
    split; [exact Hopen | reflexivity].
  - split; [apply loaded_closed|].
    split; [split; [intros H; now elim H
                   | split; [apply onlyOpen_closed | apply ariaAgrees_closed]]|].
    split; [apply markup_closed|]. split; [reflexivity|].
    split; [apply onlyOpen_closed | reflexivity].
Qed.

Lemma toggleSection_missing id force upd p :
  Accordion.querySectionBlock (Accordion.sectionBlocks p) id = None ->
  Accordion.toggleSection id force upd p = (p, Returned, false).
Proof. intros H. unfold Accordion.toggleSection. now rewrite H. Qed.


Lemma settled_with_hash p h :
  settled p ->
  settled (Accordion.mkPage (Accordion.sectionBlocks p)
             (Accordion.activeCategory p) (Accordion.svg p)
             (Accordion.currentHighlightedCategory p) h).
Proof. intros H. exact H. Qed.





Lemma page_kafka_loaded : loaded page_kafka.
Proof. reflexivity. Qed.


Lemma page_kafka_plain : plainPage page_kafka.
Proof.
  split; [reflexivity|].
  intros b k [<-|[<-|[<-|[]]]] E; inversion E; reflexivity.
Qed.


Lemma headerClick_toggles hashes p i b k :
  loaded p -> nth_error (Accordion.sectionBlocks p) i = Some b ->
  Accordion.dataSection b = Some k ->
  Accordion.querySectionBlock (Accordion.sectionBlocks p) k = Some i ->
  let p' := fst (Accordion.handlePage hashes (Accordion.HeaderClick i) p) in
  snd (Accordion.handlePage hashes (Accordion.HeaderClick i) p) = Returned /\
  onlyOpen (Accordion.sectionBlocks p')
    (if Accordion.active b then None else Some i) /\
  Accordion.activeCategory p' = (if Accordion.active b then None else Some k) /\
  (hashes = true ->
   Accordion.hash p' = (if Accordion.active b then "" else k)).
Proof.
  intros Hl Hb Hk Hq. simpl. rewrite Hb.
  assert (Eid : Accordion.sectionIdOf b = k)
    by (unfold Accordion.sectionIdOf; now rewrite Hk).
  rewrite Eid.
  destruct (toggleSection_settles k None hashes p i Hl Hq)
    as (_ & _ & _ & Hc & Ho & Ha).
  unfold shouldOpen in Ho, Ha. rewrite Hb in Ho, Ha.
  split; [exact Hc|].
  split; [destruct (Accordion.active b); exact Ho|].
  split; [destruct (Accordion.active b); exact Ha|].
  intros ->. rewrite (toggleSection_found k None true p i Hl Hq). cbn.
  unfold shouldOpen. rewrite Hb. destruct (Accordion.active b); reflexivity.
Qed.

Lemma escape_closes hashes p k :
  loaded p -> settled p -> Accordion.activeCategory p = Some k -> k <> "" ->
  let p' := fst (Accordion.handlePage hashes (Accordion.KeyDown "Escape") p) in
  snd (Accordion.handlePage hashes (Accordion.KeyDown "Escape") p) = Returned /\
  onlyOpen (Accordion.sectionBlocks p') None /\
  Accordion.activeCategory p' = None /\
  (hashes = true -> Accordion.hash p' = "").
Proof.
  intros Hl (Hn & _) Hk Hne. simpl. rewrite Hk.
  apply truthy_true in Hne. rewrite Hne. simpl.
  unfold namedBlock in Hn. rewrite Hk in Hn.
  destruct (Accordion.querySectionBlock (Accordion.sectionBlocks p) k)
    as [i|] eqn:Hq; [|elim Hn; [discriminate | reflexivity]].
  destruct (toggleSection_settles k (Some false) hashes p i Hl Hq)
    as (_ & _ & _ & Hc & Ho & Ha).
  split; [exact Hc|]. split; [exact Ho|]. split; [exact Ha|].
  intros ->. rewrite (toggleSection_found k (Some false) true p i Hl Hq).
  reflexivity.
Qed.

(** X15. What a header and the Escape key do.  On a loaded page, a
    click on the header of the first block carrying a given
    [data-section] closes every section when that block is open, and
    otherwise opens it alone; the last revision then leaves the
    section's key, or nothing, in the URL fragment.  With the accordion
    settled and [activeCategory] a non-empty key, Escape closes every
    section and clears [activeCategory] (and the fragment). *)
Theorem X15_header_toggles_escape_closes :
  forall (hashes : bool) (p : Accordion.Page),
    loaded p -> plainPage p ->
    (forall i b k,
       nth_error (Accordion.sectionBlocks p) i = Some b ->
       Accordion.dataSection b = Some k ->
       Accordion.querySectionBlock (Accordion.sectionBlocks p) k = Some i ->
       let p' := fst (Accordion.handlePage hashes (Accordion.HeaderClick i) p) in
       snd (Accordion.handlePage hashes (Accordion.HeaderClick i) p) = Returned /\
       onlyOpen (Accordion.sectionBlocks p')
         (if Accordion.active b then None else Some i) /\
       Accordion.activeCategory p'
       = (if Accordion.active b then None else Some k) /\
       (hashes = true ->
        Accordion.hash p' = (if Accordion.active b then "" else k))) /\
    (forall k,
       settled p -> Accordion.activeCategory p = Some k -> k <> "" ->
       let p' := fst (Accordion.handlePage hashes (Accordion.KeyDown "Escape") p) in
       snd (Accordion.handlePage hashes (Accordion.KeyDown "Escape") p) = Returned /\
       onlyOpen (Accordion.sectionBlocks p') None /\
       Accordion.activeCategory p' = None /\
       (hashes = true -> Accordion.hash p' = "")).
Proof.
  intros hashes p Hl _. split.
  - intros i b k. now apply headerClick_toggles.
  - intros k. now apply escape_closes.
Qed.

Lemma X15_witness :
  loaded page_kafka /\ plainPage page_kafka /\
  Accordion.activeCategory
    (fst (Accordion.handlePage true (Accordion.HeaderClick 1) page_kafka))
  = Some "opensource".
Proof.
  split; [exact page_kafka_loaded|]. split; [exact page_kafka_plain|].
  exact (proj1 (proj2 (proj2
           (proj1 (X15_header_toggles_escape_closes true page_kafka
                     page_kafka_loaded page_kafka_plain)
              1 (closedBlock "opensource") "opensource"
              eq_refl eq_refl eq_refl)))).
Defined.

(** X16. A link to a section reopens it.  In the last revision, on a
    loaded page, opening a section by its header leaves its key in the
    URL fragment; on any page with the same markup and that fragment,
    the listener that runs when the document has loaded opens that
    section alone, whatever was open, and does not touch the fragment.
    The key is plain (letters, digits, [_] and [-]) and not empty. *)
Theorem X16_fragment_reopens_section :
  forall (p q : Accordion.Page) (i : nat) (b : Accordion.Block) (k : string),
    loaded p -> loaded q -> sameMarkup p q ->
    nth_error (Accordion.sectionBlocks p) i = Some b ->
    Accordion.dataSection b = Some k -> Accordion.active b = false ->
    Accordion.querySectionBlock (Accordion.sectionBlocks p) k = Some i ->
    Accordion.plainId k = true -> k <> "" ->
    let p' := fst (Accordion.handlePage true (Accordion.HeaderClick i) p) in
    Accordion.hash p' = k /\
    (Accordion.hash q = Accordion.hash p' ->
     let q' := fst (Accordion.handlePage true Accordion.DomContentLoaded q) in
     onlyOpen (Accordion.sectionBlocks q') (Some i) /\
     Accordion.activeCategory q' = Some k /\
     Accordion.hash q' = k).
Proof.
  intros p q i b k Hlp Hlq Hm Hb Hk Ha Hq _ Hne p'.
  destruct (headerClick_toggles true p i b k Hlp Hb Hk Hq) as (_ & _ & _ & Hh).
  specialize (Hh eq_refl). rewrite Ha in Hh. fold p' in Hh.
  split; [exact Hh|]. intros Eh q'. rewrite Hh in Eh.
  assert (Hq' : Accordion.querySectionBlock (Accordion.sectionBlocks q) k = Some i)
    by (rewrite (query_same_markup _ _ k Hm); exact Hq).
  unfold q'. simpl. rewrite Eh. apply truthy_true in Hne. rewrite Hne, Hq'.
  destruct (toggleSection_settles k (Some true) false q i Hlq Hq')
    as (_ & _ & _ & _ & Ho & Hac).
  split; [exact Ho|]. split; [exact Hac|].
  rewrite (toggleSection_found k (Some true) false q i Hlq Hq'). cbn. exact Eh.
Qed.

Lemma X16_witness :
  Accordion.hash
    (fst (Accordion.handlePage true (Accordion.HeaderClick 2) page_kafka))
  = "talks" /\
  Accordion.activeCategory
    (fst (Accordion.handlePage true Accordion.DomContentLoaded
            (Accordion.mkPage (Accordion.sectionBlocks page_kafka) None true None
                              "talks")))
  = Some "talks".
Proof.
  pose proof (X16_fragment_reopens_section page_kafka
                (Accordion.mkPage (Accordion.sectionBlocks page_kafka) None true
                                  None "talks")
                2 (closedBlock "talks") "talks"
                page_kafka_loaded page_kafka_loaded eq_refl eq_refl eq_refl
                eq_refl eq_refl eq_refl
                (fun H : "talks" = "" => eq_ind "talks"
                   (fun s => match s with EmptyString => False | _ => True end)
                   I "" H)) as H.
  cbv zeta in H. destruct H as (H1 & H2).
  split; [exact H1|]. exact (proj1 (proj2 (H2 H1))).
Defined.

(* ----------------------------------------------------------------- *)
(** ** Clicks on the graph, with the accordion *)

Lemma openSections_spec hashes bs ks : forall p acc,
  loaded p ->
  map Accordion.dataSection (Accordion.sectionBlocks p)
  = map Accordion.dataSection bs ->
  match acc with
  | Some (k, j) =>
      onlyOpen (Accordion.sectionBlocks p) (Some j) /\
      Accordion.activeCategory p = Some k
  | None => True
  end ->
  exists p',
    openSections hashes ks p = (p', Returned) /\
    match fold_left
            (fun acc k =>
               match Accordion.querySectionBlock bs k with
               | Some j => Some (k, j)
               | None => acc
               end) ks acc with
    | Some (k, j) =>
        onlyOpen (Accordion.sectionBlocks p') (Some j) /\
        Accordion.activeCategory p' = Some k
    | None => p' = p
    end.
Proof.
  induction ks as [|k ks IH]; intros p acc Hl Hm Hacc; simpl.
  - exists p. split; [reflexivity|]. destruct acc as [[k j]|]; auto.
  - destruct (Accordion.querySectionBlock bs k) as [j|] eqn:Hq.
    + assert (Hq' : Accordion.querySectionBlock (Accordion.sectionBlocks p) k
                    = Some j)
        by (rewrite (query_same_markup _ _ k Hm); exact Hq).
      destruct (toggleSection_settles k (Some true) hashes p j Hl Hq')
        as (Hl1 & _ & Hm1 & Hc & Ho & Ha).
      destruct (Accordion.toggleSection k (Some true) hashes p)
        as [[p1 c] r]. simpl in *. subst c.
      destruct (IH p1 (Some (k, j)) Hl1) as (p' & E & Hres).
      * unfold sameMarkup in Hm1. congruence.
      * auto.
      * exists p'. split; [exact E|].
        destruct (fold_left _ ks (Some (k, j))) as [[k' j']|] eqn:F;
          [exact Hres|].
        exfalso. clear -F. revert F. generalize (k, j).
        induction ks as [|x ks IH]; intros pr F; simpl in F; [discriminate|].
        destruct (Accordion.querySectionBlock bs x); eapply IH; exact F.
    + assert (Hq' : Accordion.querySectionBlock (Accordion.sectionBlocks p) k
                    = None)
        by (rewrite (query_same_markup _ _ k Hm); exact Hq).
      rewrite (toggleSection_missing k (Some true) hashes p Hq').
      apply IH; assumption.
Qed.

Lemma toggleSubgraph_returns S categoryKey st :
  st_container st <> None ->
  snd (toggleSubgraph S categoryKey st) = Returned.
Proof.
  intros Hc. unfold toggleSubgraph.
  destruct (graphData st) as [g|]; [|reflexivity].
  destruct (simulation st); [|reflexivity].
  destruct (st_container st) as [[w h]|] eqn:C; [|now elim Hc].
  cbv zeta.
  destruct (if sameActive (activeSubgraph st) categoryKey then None
            else categoryKey) as [k|];
    [destruct (JS.truthy k)|];
    unfold zoomToCategory, zoomToVisibleNodes, zoomToFit, withGraph; simpl;
    rewrite C; destruct (boundingBox _); reflexivity.
Qed.

(** X17. One click, two views.  A click on an item node shows, in the
    graph, the items of its own category and of every related one; in
    the accordion, where opening a section closes the others, it
    leaves open only the section of the last of these keys that names a
    block, the item's own section only when no related category
    does.  The handler returns, in both revisions, on a loaded page
    (in the last revision, for a click that does not end a drag). *)
Theorem X17_item_click_opens_last_related_section :
  forall (hashes : bool) (S : Style) (offset : nat -> Q * Q) (i : nat)
         (s : Site) (g : GraphData) (d : Node),
    graphData (graphState s) = Some g ->
    nth_error (nodes g) i = Some d -> node_type d = item ->
    loaded (page s) -> plainPage (page s) ->
    let related := getRelatedCategories (graphState s) d in
    let s' := fst (clickNodeSite hashes S offset i s) in
    snd (clickNodeSite hashes S offset i s) = Returned /\
    graphState s'
    = fst (showMultipleSubgraphs S (node_category d :: map Some related)
             (graphState s)) /\
    match lastSection (Accordion.sectionBlocks (page s))
                      (categoryId d :: related) with
    | Some (k, j) =>
        onlyOpen (Accordion.sectionBlocks (page s')) (Some j) /\
        Accordion.activeCategory (page s') = Some k
    | None => page s' = page s
    end.
Proof.
  intros hashes S offset i s g d G Hd Ty Hl _ related s'.
  unfold s', clickNodeSite. rewrite G, Hd, Ty. fold related.
  destruct (openSections_spec hashes (Accordion.sectionBlocks (page s))
              (categoryId d :: related) (page s) None Hl eq_refl I)
    as (p' & E & Hres).
  rewrite E.
  destruct (showMultipleSubgraphs S (node_category d :: map Some related)
              (graphState s)) as [st1 c] eqn:Es.
  assert (Hc : c = Returned).
  { unfold showMultipleSubgraphs in Es.
    destruct (graphData (graphState s)); [|inversion Es; reflexivity].
    destruct (simulation (graphState s)); inversion Es; reflexivity. }
  subst c. cbn [fst snd graphState page].
  split; [reflexivity|]. split; [reflexivity|]. exact Hres.
Qed.

(** X18. A click on a category node always leaves its section open.
    With the layout running and the container present, the handler
    returns; the graph is left as [toggleSubgraph] leaves it, closed
    when the subgraph of that category was open; the accordion, where
    the call is [toggleSection(key, true)], has the category's section
    open and only it, whichever way the subgraph went (in the last
    revision, for a click that does not end a drag). *)
Theorem X18_category_click_keeps_section_open :
  forall (hashes : bool) (S : Style) (offset : nat -> Q * Q) (i j : nat)
         (s : Site) (k : string),
    simulation (graphState s) = true ->
    st_container (graphState s) <> None ->
    categoryNodeAt (graphState s) i k ->
    loaded (page s) -> plainPage (page s) ->
    Accordion.querySectionBlock (Accordion.sectionBlocks (page s)) k = Some j ->
    let s' := fst (clickNodeSite hashes S offset i s) in
    snd (clickNodeSite hashes S offset i s) = Returned /\
    graphState s' = fst (toggleSubgraph S (Some k) (graphState s)) /\
    (activeSubgraph (graphState s) = AKey k -> closedState (graphState s')) /\
    onlyOpen (Accordion.sectionBlocks (page s')) (Some j) /\
    Accordion.activeCategory (page s') = Some k.
Proof.
  intros hashes S offset i j s k Sim Hc Hcat Hl _ Hq s'.
  pose proof (click_open_category_closes S offset i (graphState s) k Sim Hcat)
    as Hclose.
  destruct Hcat as (d & Hd & Ty & Hid). unfold nodesOf in Hd.
  destruct (graphData (graphState s)) as [g|] eqn:G;
    [|destruct i; discriminate].
  unfold clickNode in Hclose. rewrite G, Hd, Ty, Hid, replaceFirst_cat in Hclose.
  unfold s', clickNodeSite. rewrite G, Hd, Ty, Hid, replaceFirst_cat.
  pose proof (toggleSubgraph_returns S (Some k) (graphState s) Hc) as Hret.
  destruct (toggleSubgraph S (Some k) (graphState s)) as [st1 c].
  simpl in Hret, Hclose. subst c.
  destruct (toggleSection_settles k (Some true) hashes (page s) j Hl Hq)
    as (_ & _ & _ & Hc' & Ho & Ha).
  destruct (Accordion.toggleSection k (Some true) hashes (page s))
    as [[p1 c] r]. simpl in *. subst c.
  auto.
Qed.

Lemma X17_witness :
  graphData (graphState site_kafka) = Some g_kafka_rendered /\
  nth_error (nodes g_kafka_rendered) 6 = Some (nodeAt g_kafka 6) /\
  node_type (nodeAt g_kafka 6) = item /\
  node_category (nodeAt g_kafka 6) = Some "talks" /\
  loaded (page site_kafka) /\ plainPage (page site_kafka) /\
  Accordion.activeCategory
    (page (fst (clickNodeSite false Auto_style noOffset 6 site_kafka)))
  = Some "opensource".
Proof.
  assert (H1 : graphData (graphState site_kafka) = Some g_kafka_rendered)
    by (vm_compute; reflexivity).
  assert (H2 : nth_error (nodes g_kafka_rendered) 6 = Some (nodeAt g_kafka 6))
    by (vm_compute; reflexivity).
  assert (H3 : node_type (nodeAt g_kafka 6) = item) by (vm_compute; reflexivity).
  split; [exact H1|]. split; [exact H2|]. split; [exact H3|].
  split; [vm_compute; reflexivity|].
  split; [exact page_kafka_loaded|]. split; [exact page_kafka_plain|].
  pose proof (X17_item_click_opens_last_related_section false Auto_style
                noOffset 6 site_kafka g_kafka_rendered (nodeAt g_kafka 6)
                H1 H2 H3 page_kafka_loaded page_kafka_plain) as T.
  cbv zeta in T. destruct T as (_ & _ & T).
  assert (E : lastSection (Accordion.sectionBlocks (page site_kafka))
                (categoryId (nodeAt g_kafka 6)
                 :: getRelatedCategories (graphState site_kafka) (nodeAt g_kafka 6))
              = Some ("opensource", 1)) by (vm_compute; reflexivity).
  rewrite E in T. exact (proj2 T).
Defined.

Lemma X18_witness :
  simulation (graphState site_kafka) = true /\
  st_container (graphState site_kafka) <> None /\
  categoryNodeAt (graphState site_kafka) 1 "work" /\
  loaded (page site_kafka) /\ plainPage (page site_kafka) /\
  Accordion.querySectionBlock (Accordion.sectionBlocks (page site_kafka)) "work"
  = Some 0 /\
  Accordion.activeCategory
    (page (fst (clickNodeSite false Auto_style noOffset 1 site_kafka)))
  = Some "work".
Proof.
  assert (H1 : simulation (graphState site_kafka) = true)
    by (vm_compute; reflexivity).
  assert (H2 : st_container (graphState site_kafka) <> None)
    by (vm_compute; discriminate).
  assert (H3 : categoryNodeAt (graphState site_kafka) 1 "work")
    by (vm_compute; eexists; repeat split; reflexivity).
  assert (H4 : Accordion.querySectionBlock
                 (Accordion.sectionBlocks (page site_kafka)) "work" = Some 0)
    by (vm_compute; reflexivity).
  split; [exact H1|]. split; [exact H2|]. split; [exact H3|].
  split; [exact page_kafka_loaded|]. split; [exact page_kafka_plain|].
  split; [exact H4|].
  exact (proj2 (proj2 (proj2 (proj2
           (X18_category_click_keeps_section_open false Auto_style noOffset 1 0
              site_kafka "work" H1 H2 H3 page_kafka_loaded page_kafka_plain
              H4))))).
Defined.

(* ----------------------------------------------------------------- *)
(** ** Sound *)

Lemma ensureContext_refuses env a :
  Audio.muted a = true \/ Audio.enabled a = false ->
  Audio.ensureContext env a = (a, false).
Proof.
  intros [H|H]; unfold Audio.ensureContext; rewrite H; [|reflexivity].
  now rewrite orb_true_r.
Qed.

Lemma play_refused env vs a :
  Audio.muted a = true \/ Audio.enabled a = false -> Audio.play env vs a = a.
Proof. intros H. unfold Audio.play. now rewrite (ensureContext_refuses env a H). Qed.

(** X19. Muted means silent.  While the object is muted, or disabled
    because no audio context or no storage was available, none of the
    sound methods creates an oscillator, creates or resumes the audio
    context, or changes anything else: [playHover], [playClick],
    [playExpand], [playCollapse], [playCardHover], [playBye],
    [startDrag] and [updateDrag] return at their first line. *)
Theorem X19_muted_is_silent :
  forall (env : Audio.Env) (velocity : Q) (a : Audio.AudioFeedback),
    Audio.muted a = true \/ Audio.enabled a = false ->
    silent (Audio.playHover env) a /\ silent (Audio.playClick env) a /\
    silent (Audio.playExpand env) a /\ silent (Audio.playCollapse env) a /\
    silent (Audio.playCardHover env) a /\ silent (Audio.playBye env) a /\
    silent (Audio.startDrag env) a /\
    silent (Audio.updateDrag env velocity) a.
Proof.
  intros env velocity a H. unfold silent.
  repeat split; try (apply play_refused; exact H).
  - unfold Audio.startDrag. now rewrite (ensureContext_refuses env a H).
  - unfold Audio.updateDrag. destruct (Audio.dragOscillator a); [|reflexivity].
    now rewrite (ensureContext_refuses env a H).
Qed.

Lemma X19_witness :
  Audio.muted (Audio.newAudioFeedback (Some [("soundMuted", "true")])) = true /\
  silent (Audio.playClick env0)
         (Audio.newAudioFeedback (Some [("soundMuted", "true")])).
Proof.
  split; [reflexivity|].
  exact (proj1 (proj2 (X19_muted_is_silent env0 0
                         (Audio.newAudioFeedback (Some [("soundMuted", "true")]))
                         (or_introl eq_refl)))).
Defined.

(** X20. The mute switch survives a reload.  With [localStorage]
    accessible, [toggleMute] returns the flipped flag and stores it,
    and an object created from that storage, as on the next page load,
    starts enabled with the same flag; a second [toggleMute] brings
    the flag back.  The flag is stored as [true] or [false] under
    [soundMuted]. *)
Theorem X20_mute_survives_reload :
  forall (a : Audio.AudioFeedback) (items : JS.Map string),
    let r1 := Audio.toggleMute a (Some items) in
    let a1 := fst (fst (fst r1)) in
    let storage1 := snd (fst (fst r1)) in
    let r2 := Audio.toggleMute a1 storage1 in
    snd (fst r1) = Returned /\
    snd r1 = negb (Audio.muted a) /\ Audio.muted a1 = negb (Audio.muted a) /\
    Audio.muted (Audio.newAudioFeedback storage1) = Audio.muted a1 /\
    Audio.enabled (Audio.newAudioFeedback storage1) = true /\
    Audio.muted (fst (fst (fst r2))) = Audio.muted a /\
    Audio.muted (Audio.newAudioFeedback (snd (fst (fst r2)))) = Audio.muted a.
Proof.
  intros a items. cbv zeta. unfold Audio.toggleMute. cbn [fst snd Audio.muted].
  unfold Audio.newAudioFeedback, Audio.savedMuted. cbn [Audio.muted Audio.enabled].
  rewrite !get_set_same. rewrite negb_involutive.
  destruct (Audio.muted a); repeat split; reflexivity.
Qed.

Section WellKept.

Variables ok1 ok2 : Q -> Prop.

Lemma wellKept_tone a b : tone b = tone a -> wellKept ok1 ok2 a -> wellKept ok1 ok2 b.
Proof.
  unfold tone. intros E. inversion E as [[Hv H1 H2 H3 H4]].
  unfold wellKept, noStrayTone, basesSet, glidesSatisfy.
  rewrite Hv, H1, H2, H3, H4. tauto.
Qed.

Lemma ensureContext_tone env a : tone (fst (Audio.ensureContext env a)) = tone a.
Proof.
  unfold Audio.ensureContext, tone, voicesOf.
  destruct (negb (Audio.enabled a) || Audio.muted a); [reflexivity|].
  destruct (Audio.context a) as [c|] eqn:C.
  - destruct (Audio.contextSuspended env); simpl; rewrite ?C; reflexivity.
  - destruct (Audio.contextAvailable env); simpl; reflexivity.
Qed.

Lemma ensureContext_has env a :
  snd (Audio.ensureContext env a) = true ->
  Audio.context (fst (Audio.ensureContext env a)) <> None.
Proof.
  unfold Audio.ensureContext.
  destruct (negb (Audio.enabled a) || Audio.muted a); [discriminate|].
  destruct (Audio.context a) as [c|] eqn:C.
  - destruct (Audio.contextSuspended env); simpl; rewrite ?C; discriminate.
  - destruct (Audio.contextAvailable env); simpl; discriminate.
Qed.

Lemma length_updateAt {A} (f : A -> A) l : forall i,
  List.length (updateAt i f l) = List.length l.
Proof.
  induction l as [|a l IH]; intros [|i]; simpl; auto.
Qed.

Lemma nth_updateAt_cases {A} (f : A -> A) l i j a :
  nth_error (updateAt i f l) j = Some a ->
  (i = j /\ exists a0, nth_error l j = Some a0 /\ a = f a0) \/
  (i <> j /\ nth_error l j = Some a).
Proof.
  intros H. destruct (Nat.eq_dec i j) as [<-|Hne].
  - left. split; [reflexivity|].
    destruct (nth_error l i) as [a0|] eqn:E.
    + rewrite (nth_updateAt_eq f l i a0 E) in H. inversion H. eauto.
    + exfalso. apply nth_error_None in E.
      assert (Hlt : i < List.length (updateAt i f l))
        by (apply nth_error_Some; congruence).
      rewrite length_updateAt in Hlt. lia.
  - right. split; [exact Hne|]. now rewrite nth_updateAt_neq in H.
Qed.

Lemma tone_updateVoice a o f :
  tone (Audio.updateVoice a o f)
  = (match o with Some j => updateAt j f (voicesOf a) | None => voicesOf a end,
     Audio.dragOscillator a, Audio.dragOscillator2 a,
     Audio.dragBaseFreq a, Audio.dragBaseFreq2 a).
Proof.
  unfold Audio.updateVoice, tone, voicesOf.
  destruct (Audio.context a) as [c|] eqn:C; destruct o as [j|]; simpl;
    rewrite ?C; try reflexivity.
  destruct j; reflexivity.
Qed.

Lemma updateVoice_fields a o f :
  Audio.dragOscillator (Audio.updateVoice a o f) = Audio.dragOscillator a /\
  Audio.dragOscillator2 (Audio.updateVoice a o f) = Audio.dragOscillator2 a /\
  Audio.dragBaseFreq (Audio.updateVoice a o f) = Audio.dragBaseFreq a /\
  Audio.dragBaseFreq2 (Audio.updateVoice a o f) = Audio.dragBaseFreq2 a.
Proof.
  unfold Audio.updateVoice.
  destruct (Audio.context a); destruct o; simpl; auto.
Qed.

Lemma voicesOf_updateVoice a o f :
  voicesOf (Audio.updateVoice a o f)
  = match o with Some j => updateAt j f (voicesOf a) | None => voicesOf a end.
Proof. pose proof (tone_updateVoice a o f) as H. unfold tone in H. congruence. Qed.

Lemma tone_addVoices a vs :
  Audio.context a <> None ->
  tone (Audio.addVoices a vs)
  = (voicesOf a ++ vs, Audio.dragOscillator a, Audio.dragOscillator2 a,
     Audio.dragBaseFreq a, Audio.dragBaseFreq2 a).
Proof.
  unfold Audio.addVoices, tone, voicesOf.
  destruct (Audio.context a) as [c|]; [reflexivity | intros H; now elim H].
Qed.

Lemma wellKept_append a b vs :
  tone b = (voicesOf a ++ vs, Audio.dragOscillator a, Audio.dragOscillator2 a,
            Audio.dragBaseFreq a, Audio.dragBaseFreq2 a) ->
  Forall stops vs -> wellKept ok1 ok2 a -> wellKept ok1 ok2 b.
Proof.
  unfold tone. intros E Hvs (Hs & Hb & G1 & G2).
  inversion E as [[Hv H1 H2 H3 H4]].
  destruct Hs as (S1 & S2 & S3).
  assert (Hold : forall j v, j < List.length (voicesOf a) ->
            nth_error (voicesOf a ++ vs) j = Some v ->
            nth_error (voicesOf a) j = Some v)
    by (intros j v Hj Hn; now rewrite nth_error_app1 in Hn).
  unfold wellKept, noStrayTone, basesSet, glidesSatisfy.
  rewrite Hv, H1, H2, H3, H4. split; [split; [|split]|split; [exact Hb|split]].
  - intros i v Hn Hstop.
    destruct (Nat.lt_ge_cases i (List.length (voicesOf a))) as [Hlt|Hge].
    + apply (S1 i v); auto.
    + rewrite nth_error_app2 in Hn by exact Hge.
      apply nth_error_In in Hn. rewrite Forall_forall in Hvs.
      now elim (Hvs v Hn).
  - intros i Hi. rewrite length_app. specialize (S2 i Hi). lia.
  - intros i Hi. rewrite length_app. destruct (S3 i Hi) as (A & B & C).
    repeat split; auto; lia.
  - intros j v target t Ej Hn Hin. apply (G1 j v target t Ej); [|exact Hin].
    apply Hold; [now apply S2 | exact Hn].
  - intros j v target t Ej Hn Hin. apply (G2 j v target t Ej); [|exact Hin].
    apply Hold; [now apply S3 | exact Hn].
Qed.

Lemma play_wellKept env vs a :
  Forall stops vs -> wellKept ok1 ok2 a -> wellKept ok1 ok2 (Audio.play env vs a).
Proof.
  intros Hvs Hw. unfold Audio.play.
  pose proof (ensureContext_tone env a) as Ht.
  pose proof (ensureContext_has env a) as Hc.
  destruct (Audio.ensureContext env a) as [a1 [|]]; simpl in Ht, Hc.
  - apply (wellKept_append a1 _ vs); [|exact Hvs|].
    + apply tone_addVoices. now apply Hc.
    + now apply (wellKept_tone a).
  - now apply (wellKept_tone a).
Qed.

Lemma updateVoice_has a o f :
  Audio.context a <> None -> Audio.context (Audio.updateVoice a o f) <> None.
Proof.
  unfold Audio.updateVoice.
  destruct (Audio.context a) as [c|] eqn:C; destruct o; simpl; rewrite ?C; congruence.
Qed.

Lemma stopDrag_tone env a :
  wellKept ok1 ok2 a ->
  wellKept ok1 ok2 (Audio.stopDrag env a) /\
  Audio.dragOscillator (Audio.stopDrag env a) = None /\
  Audio.dragOscillator2 (Audio.stopDrag env a) = None /\
  (Audio.context a <> None -> Audio.context (Audio.stopDrag env a) <> None) /\
  (forall v, In v (voicesOf (Audio.stopDrag env a)) -> stops v).
Proof.
  intros Hw. pose proof Hw as (Hs & Hb & G1 & G2). destruct Hs as (S1 & S2 & S3).
  unfold Audio.stopDrag.
  destruct (Audio.dragOscillator a) as [j1|] eqn:D1.
  - cbv zeta.
    set (a1 := Audio.updateVoice a (Some j1) (Audio.fadeOut (Audio.currentTime env))).
    set (a2 := Audio.updateVoice a1 (Audio.dragOscillator2 a)
                 (Audio.fadeOut (Audio.currentTime env))).
    assert (Hv : voicesOf a2
                 = match Audio.dragOscillator2 a with
                   | Some j2 => updateAt j2 (Audio.fadeOut (Audio.currentTime env))
                                  (updateAt j1 (Audio.fadeOut (Audio.currentTime env))
                                     (voicesOf a))
                   | None => updateAt j1 (Audio.fadeOut (Audio.currentTime env))
                               (voicesOf a)
                   end).
    { unfold a2. rewrite voicesOf_updateVoice. unfold a1.
      rewrite voicesOf_updateVoice. reflexivity. }
    assert (Hall : forall i v, nth_error (voicesOf a2) i = Some v -> stops v).
    { intros i v Hn. rewrite Hv in Hn. unfold stops.
      destruct (Audio.dragOscillator2 a) as [j2|] eqn:D2.
      - destruct (nth_updateAt_cases _ _ _ _ _ Hn) as [(_ & v0 & _ & ->)|(Hne2 & Hn')];
          [discriminate|].
        destruct (nth_updateAt_cases _ _ _ _ _ Hn') as [(_ & v0 & _ & ->)|(Hne1 & Hn'')];
          [discriminate|].
        intros Hstop. destruct (S1 i v Hn'' Hstop) as [E|E]; congruence.
      - destruct (nth_updateAt_cases _ _ _ _ _ Hn) as [(_ & v0 & _ & ->)|(Hne1 & Hn')];
          [discriminate|].
        intros Hstop. destruct (S1 i v Hn' Hstop) as [E|E]; congruence. }
    assert (Hvo : voicesOf
                    (Audio.mkAudioFeedback (Audio.context a2) (Audio.enabled a2)
                       (Audio.muted a2) (Audio.masterVolume a2) None None
                       (Audio.dragBaseFreq a2) (Audio.dragBaseFreq2 a2))
                  = voicesOf a2) by reflexivity.
    split; [|split; [reflexivity|split; [reflexivity|split; [|]]]].
    + unfold wellKept, noStrayTone, basesSet, glidesSatisfy. rewrite Hvo.
      cbn [Audio.dragOscillator Audio.dragOscillator2].
      split; [split; [|split]|split; [|split]]; try discriminate.
      * intros i v Hn Hstop. now elim (Hall i v Hn).
      * intros H; now elim H.
    + intros Hc. cbn [Audio.context]. unfold a2, a1.
      now apply updateVoice_has, updateVoice_has.
    + rewrite Hvo. intros v Hin. apply In_nth_error in Hin.
      destruct Hin as (i & Hi). now apply (Hall i).
  - split; [exact Hw|]. split; [exact D1|].
    assert (D2 : Audio.dragOscillator2 a = None).
    { destruct (Audio.dragOscillator2 a) as [j2|] eqn:D2; [|reflexivity].
      destruct (S3 j2 eq_refl) as (_ & H & _). rewrite ?D1 in H. now elim H. }
    split; [exact D2|]. split; [tauto|].
    intros v Hin. apply In_nth_error in Hin. destruct Hin as (i & Hi).
    unfold stops. intros Hstop. destruct (S1 i v Hi Hstop); congruence.
Qed.

Lemma startDrag_wellKept env a : wellKept ok1 ok2 a -> wellKept ok1 ok2 (Audio.startDrag env a).
Proof.
  intros Hw. unfold Audio.startDrag.
  pose proof (ensureContext_tone env a) as Ht.
  pose proof (ensureContext_has env a) as Hc.
  destruct (Audio.ensureContext env a) as [a1 [|]]; simpl in Ht, Hc;
    [|now apply (wellKept_tone a)].
  assert (Hw1 : wellKept ok1 ok2 a1) by now apply (wellKept_tone a).
  destruct (stopDrag_tone env a1 Hw1) as (Hw2 & D1 & D2 & Hc2 & Hall).
  cbv zeta. specialize (Hc2 (Hc eq_refl)).
  destruct (Audio.context (Audio.stopDrag env a1)) as [c|] eqn:C; [|exact Hw2].
  assert (Hvs : voicesOf (Audio.stopDrag env a1) = Audio.voices c)
    by (unfold voicesOf; now rewrite C).
  rewrite Hvs in Hall. clear Hc2 Hw2 Hvs.
  set (n := List.length (Audio.voices c)).
  set (t := Audio.currentTime env).
  unfold wellKept, noStrayTone, basesSet, glidesSatisfy, voicesOf.
  cbn [Audio.context Audio.voices Audio.dragOscillator Audio.dragOscillator2
       Audio.dragBaseFreq Audio.dragBaseFreq2].
  assert (Hn0 : nth_error (Audio.voices c ++ [Audio.dragVoice t 220 (12 # 100);
                                             Audio.dragVoice t 330 (6 # 100)]) n
                = Some (Audio.dragVoice t 220 (12 # 100))).
  { rewrite nth_error_app2 by (unfold n; lia). unfold n.
    now rewrite Nat.sub_diag. }
  assert (Hn1 : nth_error (Audio.voices c ++ [Audio.dragVoice t 220 (12 # 100);
                                             Audio.dragVoice t 330 (6 # 100)]) (S n)
                = Some (Audio.dragVoice t 330 (6 # 100))).
  { rewrite nth_error_app2 by (unfold n; lia). unfold n.
    replace (S (List.length (Audio.voices c)) - List.length (Audio.voices c))
      with 1 by lia. reflexivity. }
  split; [split; [|split]|split; [|split]].
  - intros i v Hn Hstop.
    destruct (Nat.lt_ge_cases i n) as [Hlt|Hge].
    + rewrite nth_error_app1 in Hn by exact Hlt.
      apply nth_error_In in Hn. now elim (Hall v Hn).
    + assert (Hi : i < List.length (Audio.voices c ++
                       [Audio.dragVoice t 220 (12 # 100);
                        Audio.dragVoice t 330 (6 # 100)]))
        by (apply nth_error_Some; congruence).
      rewrite length_app in Hi. simpl in Hi. fold n in Hi.
      assert (Hcase : i = n \/ i = S n) by lia.
      destruct Hcase as [->| ->]; [now left | now right].
  - intros i Hi. inversion Hi. rewrite length_app. simpl. unfold n. lia.
  - intros i Hi. inversion Hi. rewrite length_app. simpl. unfold n.
    split; [lia|]. split; [discriminate|]. intros E. inversion E. lia.
  - intros _. split; reflexivity.
  - intros j v target t0 Ej Hn Hin. inversion Ej; subst j.
    rewrite Hn0 in Hn. inversion Hn; subst v. simpl in Hin.
    destruct Hin as [Hin|[]]. discriminate.
  - intros j v target t0 Ej Hn Hin. inversion Ej; subst j.
    rewrite Hn1 in Hn. inversion Hn; subst v. simpl in Hin.
    destruct Hin as [Hin|[]]. discriminate.
Qed.

Lemma nth_updateAt_keeps {A} (f : A -> A) l i j a :
  nth_error (updateAt i f l) j = Some a ->
  exists a0, nth_error l j = Some a0 /\ (a = a0 \/ a = f a0).
Proof.
  intros H. destruct (nth_updateAt_cases f l i j a H) as [(_ & a0 & H0 & ->)|(_ & H0)];
    eauto.
Qed.

Lemma glide_wellKept a b j1 now t1 t2 :
  wellKept ok1 ok2 a -> Audio.dragOscillator a = Some j1 ->
  ok1 t1 -> ok2 t2 ->
  tone b = (match Audio.dragOscillator2 a with
            | Some j2 => updateAt j2 (Audio.glideTo now t2)
                           (updateAt j1 (Audio.glideTo now t1) (voicesOf a))
            | None => updateAt j1 (Audio.glideTo now t1) (voicesOf a)
            end,
            Audio.dragOscillator a, Audio.dragOscillator2 a,
            Audio.dragBaseFreq a, Audio.dragBaseFreq2 a) ->
  wellKept ok1 ok2 b.
Proof.
  intros (Hs & Hb & G1 & G2) D1 B1 B2 E. destruct Hs as (S1 & S2 & S3).
  unfold tone in E. inversion E as [[Hv H1 H2 H3 H4]]. clear E.
  assert (Hlen : List.length
                   (match Audio.dragOscillator2 a with
                    | Some j2 => updateAt j2 (Audio.glideTo now t2)
                                   (updateAt j1 (Audio.glideTo now t1) (voicesOf a))
                    | None => updateAt j1 (Audio.glideTo now t1) (voicesOf a)
                    end) = List.length (voicesOf a))
    by (destruct (Audio.dragOscillator2 a); now rewrite !length_updateAt).
  assert (Hramp : forall v0 tg target t,
            In (Audio.LinearRampToValueAtTime target t)
               (Audio.frequency (Audio.glideTo now tg v0)) ->
            In (Audio.LinearRampToValueAtTime target t) (Audio.frequency v0)
            \/ target = tg).
  { intros v0 tg target t Hin. simpl in Hin. apply in_app_or in Hin.
    destruct Hin as [Hin|Hin]; [now left|]. right.
    simpl in Hin. destruct Hin as [Hin|[Hin|[Hin|[]]]]; try discriminate.
    now inversion Hin. }
  unfold wellKept, noStrayTone, basesSet, glidesSatisfy.
  rewrite Hv, H1, H2, H3, H4, Hlen.
  split; [split; [|split]|split; [|split]]; auto.
  - intros i v Hn Hstop.
    assert (Hex : exists v0, nth_error (voicesOf a) i = Some v0 /\
                             Audio.stopAt v0 = Audio.stopAt v).
    { destruct (Audio.dragOscillator2 a) as [j2|].
      - destruct (nth_updateAt_keeps _ _ _ _ _ Hn) as (v1 & Hn1 & Hv1).
        destruct (nth_updateAt_keeps _ _ _ _ _ Hn1) as (v0 & Hn0 & Hv0).
        exists v0. split; [exact Hn0|].
        destruct Hv1 as [-> | ->]; destruct Hv0 as [-> | ->]; reflexivity.
      - destruct (nth_updateAt_keeps _ _ _ _ _ Hn) as (v0 & Hn0 & Hv0).
        exists v0. split; [exact Hn0|]. destruct Hv0 as [-> | ->]; reflexivity. }
    destruct Hex as (v0 & Hn0 & Hst). apply (S1 i v0 Hn0). congruence.
  - intros j v target t Ej Hn Hin. rewrite D1 in Ej. inversion Ej; subst j.
    assert (Hv0 : exists v0, nth_error (voicesOf a) j1 = Some v0 /\
                             v = Audio.glideTo now t1 v0).
    { destruct (Audio.dragOscillator2 a) as [j2|] eqn:D2.
      - destruct (S3 j2 eq_refl) as (_ & _ & Hne).
        destruct (nth_updateAt_cases _ _ _ _ _ Hn) as [(Heq & _)|(_ & Hn1)];
          [subst j2; now elim Hne|].
        destruct (nth_updateAt_cases _ _ _ _ _ Hn1) as [(_ & v0 & Hn0 & ->)|(Hne1 & _)];
          [eauto | now elim Hne1].
      - destruct (nth_updateAt_cases _ _ _ _ _ Hn) as [(_ & v0 & Hn0 & ->)|(Hne1 & _)];
          [eauto | now elim Hne1]. }
    destruct Hv0 as (v0 & Hn0 & ->).
    destruct (Hramp _ _ _ _ Hin) as [Hold| ->]; [|exact B1].
    now apply (G1 j1 v0 target t D1 Hn0).
  - intros j2 v target t Ej Hn Hin. rewrite Ej in Hn.
    destruct (S3 j2 Ej) as (_ & _ & Hne). rewrite D1 in Hne.
    destruct (nth_updateAt_cases _ _ _ _ _ Hn) as [(_ & v1 & Hn1 & ->)|(Hne2 & _)];
      [|now elim Hne2].
    destruct (nth_updateAt_cases _ _ _ _ _ Hn1) as [(Heq & _)|(_ & Hn0)];
      [subst j2; now elim Hne|].
    destruct (Hramp _ _ _ _ Hin) as [Hold| ->]; [|exact B2].
    now apply (G2 j2 v1 target t Ej Hn0).
Qed.


Lemma updateDrag_wellKept env velocity a :
  ok1 (220 + Qmin (velocity * 3) 100)%Q ->
  ok2 (330 + Qmin (velocity * 3) 100 * (15 # 10))%Q ->
  wellKept ok1 ok2 a -> wellKept ok1 ok2 (Audio.updateDrag env velocity a).
Proof.
  intros M1 M2 Hw. unfold Audio.updateDrag.
  destruct (Audio.dragOscillator a) as [j1|] eqn:D1; [|exact Hw].
  pose proof (ensureContext_tone env a) as Ht.
  destruct (Audio.ensureContext env a) as [a1 [|]]; simpl in Ht;
    [|now apply (wellKept_tone a)].
  assert (Hw1 : wellKept ok1 ok2 a1) by now apply (wellKept_tone a).
  assert (D1' : Audio.dragOscillator a1 = Some j1)
    by (unfold tone in Ht; congruence).
  pose proof Hw1 as (Hs & Hb & G1 & G2).
  destruct (Hb ltac:(congruence)) as (B1 & B2).
  cbv zeta. rewrite B1, B2. simpl Audio.baseOr0.
  eapply (glide_wellKept a1 _ j1); [exact Hw1|exact D1'|exact M1|exact M2|].
  rewrite tone_updateVoice, voicesOf_updateVoice.
  destruct (updateVoice_fields a1 (Audio.dragOscillator a1)
              (Audio.glideTo (Audio.currentTime env)
                 (220 + Qmin (velocity * 3) 100))) as (-> & -> & -> & ->).
  rewrite D1'. reflexivity.
Qed.

Lemma toggleMute_tone a storage :
  tone (fst (fst (fst (Audio.toggleMute a storage)))) = tone a.
Proof. unfold Audio.toggleMute. destruct storage; reflexivity. Qed.

Lemma perform_wellKept env c s :
  targetsOk ok1 ok2 (env, c) -> wellKept ok1 ok2 (fst s) ->
  wellKept ok1 ok2 (fst (Audio.perform env c s)).
Proof.
  destruct s as [a storage]. unfold targetsOk. simpl fst. simpl snd.
  intros Hf Hw.
  assert (Hplay : forall vs, Forall stops vs -> wellKept ok1 ok2 (Audio.play env vs a))
    by (intros vs Hvs; now apply play_wellKept).
  destruct c; cbn [Audio.perform fst].
  - apply Hplay. repeat constructor; discriminate.
  - apply Hplay. repeat constructor; discriminate.
  - apply Hplay. repeat constructor; discriminate.
  - apply Hplay. repeat constructor; discriminate.
  - apply Hplay. repeat constructor; discriminate.
  - apply Hplay. repeat constructor; discriminate.
  - now apply startDrag_wellKept.
  - destruct Hf as (M1 & M2). now apply updateDrag_wellKept.
  - now apply stopDrag_tone.
  - apply (wellKept_tone a); [|exact Hw].
    pose proof (toggleMute_tone a storage) as H.
    destruct (Audio.toggleMute a storage) as [[[a1 st1] k] b]. exact H.
Qed.

Lemma new_wellKept storage : wellKept ok1 ok2 (Audio.newAudioFeedback storage).
Proof.
  unfold Audio.newAudioFeedback.
  destruct storage; unfold wellKept, noStrayTone, basesSet, glidesSatisfy, voicesOf;
    cbn [Audio.context Audio.dragOscillator Audio.dragOscillator2];
    (split; [split; [|split]|split; [|split]]); try discriminate;
    try (intros H; now elim H);
    intros [|i] v H; discriminate.
Qed.

Lemma session_wellKept storage calls :
  Forall (targetsOk ok1 ok2) calls -> wellKept ok1 ok2 (fst (Audio.session storage calls)).
Proof.
  unfold Audio.session.
  assert (Hgen : forall s, wellKept ok1 ok2 (fst s) -> Forall (targetsOk ok1 ok2) calls ->
            wellKept ok1 ok2 (fst (fold_left
              (fun s ec => Audio.perform (fst ec) (snd ec) s) calls s))).
  { induction calls as [|[env c] calls IH]; intros s Hw Hf; [exact Hw|].
    inversion Hf; subst. simpl. apply IH; [|assumption].
    now apply perform_wellKept. }
  intros Hf. apply Hgen; [apply new_wellKept | exact Hf].
Qed.

End WellKept.

Lemma modulation_bounds velocity :
  (0 <= velocity)%Q ->
  ((220 <= 220 + Qmin (velocity * 3) 100)%Q /\
   (220 + Qmin (velocity * 3) 100 <= 320)%Q) /\
  ((330 <= 330 + Qmin (velocity * 3) 100 * (15 # 10))%Q /\
   (330 + Qmin (velocity * 3) 100 * (15 # 10) <= 480)%Q).
Proof.
  intros Hv.
  assert (H0 : (0 <= Qmin (velocity * 3) 100)%Q)
    by (apply Q.min_glb; lra).
  assert (H1 : (Qmin (velocity * 3) 100 <= 100)%Q) by apply Q.le_min_r.
  set (m := Qmin (velocity * 3) 100) in *. clearbody m.
  repeat split; lra.
Qed.

(** X21.  Whatever the page calls on the sound object, every
    oscillator that was started and is not yet scheduled to stop is one
    of the two the object holds as the drag tone, so a [stopDrag]
    leaves every oscillator of the context scheduled to stop. *)
Theorem X21_no_stray_tone : forall storage calls env,
  let a := fst (Audio.session storage calls) in
  noStrayTone a /\ allStop (Audio.stopDrag env a).
Proof.
  intros storage calls env a.
  assert (Hw : wellKept (fun _ => True) (fun _ => True) a).
  { apply session_wellKept. apply Forall_forall. intros [e c] _.
    unfold targetsOk. destruct c; simpl; auto. }
  split; [exact (proj1 Hw)|].
  destruct (stopDrag_tone _ _ env a Hw) as (_ & _ & _ & _ & Hall).
  exact Hall.
Qed.

(** X22.  When no [updateDrag] is given a negative velocity, every
    frequency ramp of the drag tone ends between 220 and 320 Hz on the
    first oscillator and between 330 and 480 Hz on the second. *)
Theorem X22_drag_tone_stays_in_range : forall storage calls,
  Forall forwardVelocity calls ->
  let a := fst (Audio.session storage calls) in
  glidesWithin a (Audio.dragOscillator a) 220 320 /\
  glidesWithin a (Audio.dragOscillator2 a) 330 480.
Proof.
  intros storage calls Hf a.
  assert (Hw : wellKept (fun target => (220 <= target)%Q /\ (target <= 320)%Q)
                        (fun target => (330 <= target)%Q /\ (target <= 480)%Q) a).
  { apply session_wellKept. rewrite Forall_forall in *. intros [e c] Hin.
    specialize (Hf _ Hin). unfold forwardVelocity in Hf. unfold targetsOk.
    destruct c; simpl in *; auto. now apply modulation_bounds. }
  destruct Hw as (_ & _ & G1 & G2). split; [exact G1 | exact G2].
Qed.

Lemma X22_witness :
  let calls := [(env0, Audio.StartDrag); (env0, Audio.UpdateDrag 10);
                (env0, Audio.UpdateDrag 50)] in
  let a := fst (Audio.session (Some []) calls) in
  Forall forwardVelocity calls /\
  Audio.dragOscillator a = Some 0 /\
  glidesWithin a (Audio.dragOscillator a) 220 320 /\
  glidesWithin a (Audio.dragOscillator2 a) 330 480.
Proof.
  assert (Hf : Forall forwardVelocity
                 [(env0, Audio.StartDrag); (env0, Audio.UpdateDrag 10);
                  (env0, Audio.UpdateDrag 50)])
    by (repeat constructor; vm_compute; discriminate).
  split; [exact Hf|]. split; [reflexivity|].
  exact (X22_drag_tone_stays_in_range (Some []) _ Hf).
Defined.

(* ----------------------------------------------------------------- *)
(** *** The theme toggle *)

Lemma map_fst_colorItems c ns : map fst (Theme.colorItems c ns) = map fst ns.
Proof.
  unfold Theme.colorItems. rewrite map_map. apply map_ext.
  intros [n col]. simpl. now destruct (NodeType_eqb (node_type n) item).
Qed.

Lemma colorItems_rest g g' ns :
  filter (isType center) (map fst ns) = [] ->
  Forall (fun nc => snd nc = Theme.builtColor g (fst nc)) ns ->
  Forall (fun nc => snd nc = Theme.builtColor g' (fst nc))
         (Theme.colorItems (Theme.p_node g') ns).
Proof.
  induction ns as [|[n col] ns IH]; intros Hnc Hall; [constructor|].
  inversion Hall as [|x l Hn Hrest]; subst. simpl in Hn, Hnc.
  unfold isType in Hnc at 1.
  destruct (NodeType_eqb (node_type n) center) eqn:Ec; [discriminate|].
  unfold Theme.colorItems. cbn [map fst].
  constructor; [|now apply IH].
  unfold Theme.builtColor in Hn |- *. cbn [fst snd] in Hn |- *.
  destruct (node_type n) eqn:Ty; cbn [NodeType_eqb fst snd] in *;
    rewrite ?Ty; try discriminate; auto.
Qed.

Lemma recolor_wellPainted g g' ns :
  wellPainted g ns ->
  wellPainted g'
    (Theme.colorItems (Theme.p_node g') (Theme.colorCenter (Theme.p_center g') ns)).
Proof.
  intros ((c & rest & Hm & Hid & Hty & Hnc) & Hall).
  destruct ns as [|[c0 col0] ns0]; [discriminate|].
  simpl in Hm. inversion Hm; subst c0 rest. clear Hm.
  inversion Hall as [|x l _ Hrest]; subst.
  cbn [Theme.colorCenter]. rewrite Hid. simpl (_ =? _).
  split.
  - exists c, (map fst ns0). rewrite map_fst_colorItems. auto.
  - change (Theme.colorItems (Theme.p_node g') ((c, Some (Theme.p_center g')) :: ns0))
      with ((if NodeType_eqb (node_type c) item
             then (c, Some (Theme.p_node g'))
             else (c, Some (Theme.p_center g')))
            :: Theme.colorItems (Theme.p_node g') ns0).
    rewrite Hty. cbn [NodeType_eqb].
    constructor; [|now apply (colorItems_rest g)].
    simpl. unfold Theme.builtColor. now rewrite Hty.
Qed.

Lemma built_wellPainted g doc orc :
  wellPainted g
    (map (fun n => (n, Theme.builtColor g n))
         (nodes (graph (Manual.buildGraphData doc orc)))).
Proof.
  unfold Manual.buildGraphData.
  destruct (buildGraphData_spec Manual.variant doc orc Manual_ok) as (Hn & _).
  split.
  - rewrite map_map. simpl. rewrite map_id. rewrite Hn.
    eexists _, _. split; [reflexivity|]. split; [reflexivity|].
    split; [reflexivity|]. apply categoryNodes_not_center, Manual_ok.
  - apply Forall_forall. intros [n col] Hin. apply in_map_iff in Hin.
    destruct Hin as (n' & E & _). now inversion E.
Qed.

Lemma COLORS_other theme :
  theme = "dark" \/ theme = "light" ->
  (otherTheme theme = "dark" \/ otherTheme theme = "light") /\
  otherTheme (otherTheme theme) = theme.
Proof. intros [-> | ->]; simpl; auto. Qed.

Lemma setTheme_kept theme p :
  theme = "dark" \/ theme = "light" ->
  Theme.storage p <> None -> Theme.themeIcon p <> None ->
  Theme.themeLabel p <> None ->
  (forall bg, Theme.svgBackground p = Some bg -> bg = Theme.p_bg (Theme.globals p)) ->
  (forall ns, Theme.painted p = Some ns -> wellPainted (Theme.globals p) ns) ->
  snd (Theme.setTheme theme p) = Returned /\
  themed theme (fst (Theme.setTheme theme p)) /\
  (forall ns, Theme.painted (fst (Theme.setTheme theme p)) = Some ns ->
     wellPainted (Theme.globals (fst (Theme.setTheme theme p))) ns).
Proof.
  intros Ht Hs Hi Hl Hbg Hp. unfold Theme.setTheme.
  destruct (Theme.storage p) as [items|]; [|now elim Hs].
  assert (Hc : exists colors, Theme.COLORS theme = Some colors)
    by (destruct Ht as [-> | ->];
        [exists Theme.dark | exists Theme.light]; reflexivity).
  destruct Hc as (colors & Hc). rewrite Hc. cbv zeta.
  unfold Theme.updateThemeToggle. cbn [Theme.themeIcon Theme.themeLabel].
  destruct (Theme.themeIcon p) as [icon|]; [|now elim Hi].
  destruct (Theme.themeLabel p) as [label|]; [|now elim Hl].
  cbn [fst snd Theme.dataTheme Theme.storage Theme.prefersLight Theme.globals
       Theme.svgBackground Theme.tooltipStyle Theme.themeIcon Theme.themeLabel
       Theme.painted].
  assert (Hwp : forall ns,
            option_map (fun ns0 => Theme.colorItems (Theme.p_node colors)
                         (Theme.colorCenter (Theme.p_center colors) ns0))
                       (Theme.painted p) = Some ns ->
            wellPainted colors ns).
  { intros ns E. destruct (Theme.painted p) as [ns0|]; [|discriminate].
    simpl in E. inversion E. apply (recolor_wellPainted (Theme.globals p)).
    now apply Hp. }
  split; [reflexivity|]. split; [|exact Hwp].
  unfold themed.
  cbn [Theme.dataTheme Theme.storage Theme.prefersLight Theme.globals
       Theme.svgBackground Theme.tooltipStyle Theme.themeIcon Theme.themeLabel
       Theme.painted].
  repeat split.
  - unfold storedTheme. apply get_set_same.
  - exact Hc.
  - intros bg E. destruct (Theme.svgBackground p); [|discriminate].
    simpl in E. now inversion E.
  - intros ns n col E Hin. destruct (Hwp ns E) as (_ & Hall).
    rewrite Forall_forall in Hall. exact (Hall (n, col) Hin).
Qed.

Lemma themed_controls theme p :
  themed theme p ->
  Theme.storage p <> None /\ Theme.themeIcon p <> None /\
  Theme.themeLabel p <> None /\
  (forall bg, Theme.svgBackground p = Some bg -> bg = Theme.p_bg (Theme.globals p)).
Proof.
  intros (_ & Hs & _ & _ & Hi & Hl & Hbg & _).
  repeat split; try congruence.
  - unfold storedTheme in Hs. destruct (Theme.storage p); congruence.
  - exact Hbg.
Qed.

Lemma clickToggle_kept theme p :
  theme = "dark" \/ theme = "light" -> themed theme p ->
  (forall ns, Theme.painted p = Some ns -> wellPainted (Theme.globals p) ns) ->
  themed (otherTheme theme) (fst (Theme.clickToggle p)) /\
  (forall ns, Theme.painted (fst (Theme.clickToggle p)) = Some ns ->
     wellPainted (Theme.globals (fst (Theme.clickToggle p))) ns).
Proof.
  intros Ht Hth Hp.
  destruct (themed_controls theme p Hth) as (Hs & Hi & Hl & Hbg).
  assert (E : Theme.clickToggle p = Theme.setTheme (otherTheme theme) p).
  { unfold Theme.clickToggle. destruct Hth as (-> & _).
    destruct Ht as [-> | ->]; reflexivity. }
  rewrite E.
  destruct (setTheme_kept (otherTheme theme) p (proj1 (COLORS_other theme Ht))
              Hs Hi Hl Hbg Hp) as (_ & H1 & H2).
  split; assumption.
Qed.

Lemma initGraph_kept theme doc orc p :
  themed theme p ->
  (forall ns, Theme.painted p = Some ns -> wellPainted (Theme.globals p) ns) ->
  themed theme (Theme.initGraph doc orc p) /\
  (forall ns, Theme.painted (Theme.initGraph doc orc p) = Some ns ->
     wellPainted (Theme.globals (Theme.initGraph doc orc p)) ns).
Proof.
  intros Hth Hp. unfold Theme.initGraph.
  destruct (container doc); [|split; assumption].
  destruct Hth as (H1 & H2 & H3 & H4 & H5 & H6 & H7 & H8).
  assert (Hwp : wellPainted (Theme.globals p)
            (map (fun n => (n, Theme.builtColor (Theme.globals p) n))
                 (nodes (graph (Manual.buildGraphData doc orc)))))
    by apply built_wellPainted.
  split.
  - unfold themed.
    cbn [Theme.dataTheme Theme.storage Theme.prefersLight Theme.globals
         Theme.svgBackground Theme.tooltipStyle Theme.themeIcon Theme.themeLabel
         Theme.painted].
    repeat split; auto.
    + intros bg E. now inversion E.
    + intros ns n col E Hin. inversion E; subst ns.
      destruct Hwp as (_ & Hall). rewrite Forall_forall in Hall.
      exact (Hall (n, col) Hin).
  - cbn [Theme.painted Theme.globals]. intros ns E. now inversion E.
Qed.

Lemma getTheme_pageWritten p :
  pageWritten (Theme.storage p) ->
  exists theme, Theme.getTheme p = Some theme /\
    (theme = "dark" \/ theme = "light") /\
    (storedTheme (Theme.storage p) = Some theme \/
     storedTheme (Theme.storage p) = None /\
     theme = if Theme.prefersLight p then "light" else "dark").
Proof.
  intros (Hs & Hv). unfold Theme.getTheme, storedTheme in *.
  destruct (Theme.storage p) as [items|]; [|now elim Hs].
  destruct Hv as [E|[E|E]]; rewrite E; simpl.
  - destruct (Theme.prefersLight p); eexists; split; eauto.
  - eexists; split; eauto.
  - eexists; split; eauto.
Qed.

Lemma load_kept attr items prefers label :
  pageWritten items ->
  let p0 := Theme.scriptStart attr items prefers true (Some label) in
  snd (Theme.load p0) = Returned /\ themeKept (fst (Theme.load p0)) /\
  Theme.getTheme p0 = Some (JS.orElse (Theme.dataTheme (fst (Theme.load p0))) "").
Proof.
  intros Hw p0.
  destruct (getTheme_pageWritten p0 Hw) as (theme & Hg & Ht & _).
  unfold Theme.load. rewrite Hg.
  destruct (setTheme_kept theme p0 Ht) as (Hr & Hth & Hp);
    try (simpl; discriminate).
  - exact (proj1 Hw).
  - split; [exact Hr|]. split; [exists theme; auto|].
    destruct Hth as (-> & _). simpl. destruct Ht as [-> | ->]; reflexivity.
Qed.

Lemma run_kept listening events : forall p,
  themeKept p ->
  themeKept (fold_left (fun q e => Theme.handleTheme listening e q) events p).
Proof.
  induction events as [|e events IH]; intros p Hk; [exact Hk|].
  simpl. apply IH. destruct Hk as (theme & Ht & Hth & Hp).
  destruct e as [|doc orc]; simpl.
  - destruct listening; [|exists theme; auto].
    destruct (clickToggle_kept theme p Ht Hth Hp) as (H1 & H2).
    exists (otherTheme theme). split; [apply COLORS_other, Ht|]. split; assumption.
  - destruct (initGraph_kept theme doc orc p Hth Hp) as (H1 & H2).
    exists theme. auto.
Qed.

Lemma session_kept attr items prefers label toggle events :
  pageWritten items ->
  themeKept (Theme.session (Theme.scriptStart attr items prefers true (Some label))
                           toggle events).
Proof.
  intros Hw. unfold Theme.session.
  destruct (load_kept attr items prefers label Hw) as (Hr & Hk & _).
  destruct (Theme.load _) as [p k]. simpl in Hr, Hk. subst k.
  now apply run_kept.
Qed.

Lemma session_snoc p0 toggle events e :
  Theme.session p0 toggle (events ++ [e])
  = Theme.handleTheme
      (match snd (Theme.load p0) with Returned => toggle | Thrown => false end)
      e (Theme.session p0 toggle events).
Proof.
  unfold Theme.session. destruct (Theme.load p0) as [p k]. simpl.
  now rewrite fold_left_app.
Qed.

(** X23.  With a readable storage that holds no theme or one the page
    wrote, and the icon and label elements present, the page shows one
    theme consistently after any clicks on the toggle and any build of
    the graph: the attribute, the saved value, the colour globals, the
    tooltip, the icon and label, the background and the colour of every
    node agree with it. *)
Theorem X23_theme_shown_consistently :
  forall attr items prefers label toggle events,
  pageWritten items ->
  let p := Theme.session (Theme.scriptStart attr items prefers true (Some label))
                         toggle events in
  exists theme, (theme = "dark" \/ theme = "light") /\ themed theme p.
Proof.
  intros attr items prefers label toggle events Hw p.
  destruct (session_kept attr items prefers label toggle events Hw)
    as (theme & Ht & Hth & _).
  exists theme. split; assumption.
Qed.

Lemma X23_witness :
  pageWritten (Some []) /\
  exists theme, (theme = "dark" \/ theme = "light") /\
    themed theme
      (Theme.session startPage true
         [Theme.ToggleClick; Theme.InitGraph doc_kafka orc_zero;
          Theme.ToggleClick; Theme.ToggleClick]).
Proof.
  assert (Hw : pageWritten (Some [])) by (split; [discriminate | now left]).
  split; [exact Hw|].
  exact (X23_theme_shown_consistently None (Some []) true "Theme" true
           [Theme.ToggleClick; Theme.InitGraph doc_kafka orc_zero;
            Theme.ToggleClick; Theme.ToggleClick] Hw).
Defined.

(** X24.  Under the same conditions a click on the toggle switches the
    theme shown to the other of dark and light, and a later load of the
    page reads that theme back from the storage, whatever the system
    preference is then. *)
Theorem X24_click_switches_theme_and_reload_restores :
  forall attr items prefers label events,
  pageWritten items ->
  let p0 := Theme.scriptStart attr items prefers true (Some label) in
  let p := Theme.session p0 true events in
  let p' := Theme.session p0 true (events ++ [Theme.ToggleClick]) in
  exists theme,
    Theme.dataTheme p = Some theme /\
    Theme.dataTheme p' = Some (otherTheme theme) /\
    otherTheme (otherTheme theme) = theme /\
    forall attr' prefers' icon' label',
      Theme.getTheme (Theme.scriptStart attr' (Theme.storage p') prefers' icon' label')
      = Some (otherTheme theme).
Proof.
  intros attr items prefers label events Hw p0 p p'.
  destruct (session_kept attr items prefers label true events Hw)
    as (theme & Ht & Hth & Hp). fold p0 in Hth, Hp. fold p in Hth, Hp.
  assert (E : p' = fst (Theme.clickToggle p)).
  { unfold p', p. rewrite session_snoc.
    destruct (load_kept attr items prefers label Hw) as (Hr & _).
    fold p0 in Hr. rewrite Hr. reflexivity. }
  destruct (clickToggle_kept theme p Ht Hth Hp) as (H1 & _). rewrite <- E in H1.
  exists theme. split; [exact (proj1 Hth)|]. split; [exact (proj1 H1)|].
  split; [apply COLORS_other, Ht|].
  intros attr' prefers' icon' label'. unfold Theme.getTheme. simpl.
  destruct H1 as (_ & Hs & _). unfold storedTheme in Hs.
  destruct (Theme.storage p') as [m|]; [|discriminate]. rewrite Hs.
  destruct Ht as [-> | ->]; reflexivity.
Qed.

Lemma X24_witness :
  pageWritten (Some [("theme", "light")]) /\
  let p0 := Theme.scriptStart None (Some [("theme", "light")]) false true
                              (Some "Theme") in
  Theme.dataTheme (Theme.session p0 true [Theme.ToggleClick]) = Some "dark" /\
  exists theme,
    Theme.dataTheme (Theme.session p0 true []) = Some theme /\
    Theme.dataTheme (Theme.session p0 true ([] ++ [Theme.ToggleClick]))
    = Some (otherTheme theme) /\
    otherTheme (otherTheme theme) = theme /\
    forall attr' prefers' icon' label',
      Theme.getTheme
        (Theme.scriptStart attr'
           (Theme.storage (Theme.session p0 true ([] ++ [Theme.ToggleClick])))
           prefers' icon' label')
      = Some (otherTheme theme).
Proof.
  assert (Hw : pageWritten (Some [("theme", "light")]))
    by (split; [discriminate | right; right; reflexivity]).
  split; [exact Hw|]. split; [reflexivity|].
  exact (X24_click_switches_theme_and_reload_restores None
           (Some [("theme", "light")]) false "Theme" [] Hw).
Defined.

(** X25.  Without the [theme-icon] element the script stops while it
    applies the first theme: the attribute, the storage and the colour
    globals already hold that theme, the label is left as the page came,
    and no click on the toggle changes any of it afterwards. *)
Theorem X25_missing_icon_leaves_toggle_dead :
  forall attr items prefers label toggle events,
  pageWritten items ->
  let p0 := Theme.scriptStart attr items prefers false label in
  let p := Theme.session p0 toggle events in
  exists theme,
    Theme.getTheme p0 = Some theme /\
    Theme.dataTheme p = Some theme /\
    storedTheme (Theme.storage p) = Some theme /\
    Theme.COLORS theme = Some (Theme.globals p) /\
    Theme.themeIcon p = None /\ Theme.themeLabel p = label.
Proof.
  intros attr items prefers label toggle events Hw p0 p.
  destruct (getTheme_pageWritten p0 Hw) as (theme & Hg & Ht & _).
  exists theme. split; [exact Hg|].
  assert (Hc : exists colors, Theme.COLORS theme = Some colors)
    by (destruct Ht as [-> | ->];
        [exists Theme.dark | exists Theme.light]; reflexivity).
  destruct Hc as (colors & Hc).
  destruct Hw as (Hs & _). destruct items as [m|]; [|now elim Hs].
  assert (Hl : Theme.load p0
               = (Theme.mkPage (Some theme) (Some (JS.set m "theme" theme)) prefers
                    colors None (Theme.updateTooltipTheme theme) None label None,
                  Thrown)).
  { unfold Theme.load. rewrite Hg. unfold Theme.setTheme. simpl Theme.storage.
    rewrite Hc. reflexivity. }
  unfold p, Theme.session. rewrite Hl.
  set (q := Theme.mkPage _ _ _ _ _ _ _ _ _).
  assert (Hgen : forall q0,
            Theme.dataTheme q0 = Some theme /\
            storedTheme (Theme.storage q0) = Some theme /\
            Theme.COLORS theme = Some (Theme.globals q0) /\
            Theme.themeIcon q0 = None /\ Theme.themeLabel q0 = label ->
            let r := fold_left (fun q1 e => Theme.handleTheme false e q1) events q0 in
            Theme.dataTheme r = Some theme /\
            storedTheme (Theme.storage r) = Some theme /\
            Theme.COLORS theme = Some (Theme.globals r) /\
            Theme.themeIcon r = None /\ Theme.themeLabel r = label).
  { induction events as [|e es IH]; intros q0 H0; [exact H0|].
    simpl. apply IH. destruct e as [|doc orc]; simpl; [exact H0|].
    unfold Theme.initGraph. destruct (container doc); [|exact H0]. exact H0. }
  apply Hgen. unfold q. simpl. repeat split; auto.
  unfold storedTheme. apply get_set_same.
Qed.

Lemma X25_witness :
  pageWritten (Some []) /\
  exists theme,
    Theme.getTheme (Theme.scriptStart None (Some []) false false (Some "Theme"))
    = Some theme /\
    Theme.dataTheme
      (Theme.session (Theme.scriptStart None (Some []) false false (Some "Theme"))
                     true [Theme.ToggleClick]) = Some theme /\
    storedTheme
      (Theme.storage
         (Theme.session (Theme.scriptStart None (Some []) false false (Some "Theme"))
                        true [Theme.ToggleClick])) = Some theme /\
    Theme.COLORS theme
    = Some (Theme.globals
         (Theme.session (Theme.scriptStart None (Some []) false false (Some "Theme"))
                        true [Theme.ToggleClick])) /\
    Theme.themeIcon
      (Theme.session (Theme.scriptStart None (Some []) false false (Some "Theme"))
                     true [Theme.ToggleClick]) = None /\
    Theme.themeLabel
      (Theme.session (Theme.scriptStart None (Some []) false false (Some "Theme"))
                     true [Theme.ToggleClick]) = Some "Theme".
Proof.
  assert (Hw : pageWritten (Some [])) by (split; [discriminate | now left]).
  split; [exact Hw|].
  exact (X25_missing_icon_leaves_toggle_dead None (Some []) false (Some "Theme")
           true [Theme.ToggleClick] Hw).
Defined.
